(** * corobus: a bus of bounded FIFO channels for cooperative coroutines

    Shallow embedding of [1/corobus.c] and the properties of its channels.

    The C code runs on one thread; a coroutine keeps the processor until it
    calls [coro_suspend] or [coro_yield].  The code between two such points
    is therefore atomic, and every API function is embedded as one function
    per such segment: the segment that starts at the call, and, for the
    blocking functions, the segment that starts when the coroutine is
    resumed inside [wakeup_queue_suspend_this].  The local variables that
    are live across the suspension are kept in a continuation ([kont]).

    Integer model (LP64): [unsigned] is 32 bits, [size_t] is 64 bits, [int]
    is 32 bits.  A value of those types is a [Z]; every operation that can
    wrap in C has its wrap-around written out.

    Memory model: a channel lives in a heap of blocks; a pointer is the
    address of its block, [malloc] returns the address of any block that
    is not in use, a freed one among them, and a use of a freed or NULL
    pointer, like a read outside an array, ends the segment as
    [Undefined].  The caller's buffers and the storage of a vector are
    values: writes through a bad buffer pointer and a failing [realloc] of
    the storage are not modelled. *)

From stdpp Require Import base gmap list.
From Stdlib Require Import ZArith Lia.

Open Scope Z_scope.

(** ** Machine integers *)

Definition UINT_MOD : Z := 2 ^ 32.
Definition SIZE_MOD : Z := 2 ^ 64.
Definition INT_MAX : Z := 2 ^ 31 - 1.

(** Conversion to [unsigned] (also the result of unsigned arithmetic). *)
Definition to_unsigned (z : Z) : Z := z mod UINT_MOD.

(** Arithmetic in [size_t]. *)
Definition to_size_t (z : Z) : Z := z mod SIZE_MOD.

(** Conversion of an [unsigned] to [int], as gcc and clang do it. *)
Definition to_int (u : Z) : Z := if u <=? INT_MAX then u else u - UINT_MOD.

(** ** Data model *)

(** A pointer to a heap object.  Addresses are block identifiers: [malloc]
    hands out a block that is not in use ([next_addr] in [world]), and
    after a [free] the block may be handed out again. *)
Definition addr := nat.

(** The identity of a coroutine ([struct coro *]). *)
Definition coro := nat.

(** Modelled from the spec: [corobus.h] is not among the sources.  The
    error kinds are the four the specification lists; [corobus.c] itself
    only ever names the first three. *)
Inductive coro_bus_error_code :=
| CORO_BUS_ERR_NONE
| CORO_BUS_ERR_NO_CHANNEL
| CORO_BUS_ERR_WOULD_BLOCK
| CORO_BUS_ERR_ALLOCATION.

#[global] Instance coro_bus_error_code_eq_dec : EqDecision coro_bus_error_code.
Proof. solve_decision. Defined.

(** [struct data_vector].  The array [data] and its [size] are kept
    together as the list of the first [size] elements. *)
Record data_vector := DataVector {
  data : list Z;
  capacity : Z
}.

Definition data_size (vector : data_vector) : Z := Z.of_nat (length (data vector)).

(** [struct wakeup_queue]: the [rlist] of [wakeup_entry], oldest first.  An
    entry lives on the stack of the suspended coroutine and holds only that
    coroutine, so the entry is identified with it. *)
Definition wakeup_queue := list coro.

(** Modelled from the spec: [rlist.h] is not among the sources.  A wait
    queue is "a FIFO of waiters": [rlist_add_tail_entry] puts an entry
    behind the last one. *)
Definition rlist_add_tail_entry (q : wakeup_queue) (entry : coro) : wakeup_queue :=
  q ++ [entry].

(** Modelled from the spec: [rlist_del_entry] takes the entry out of the
    list it is linked in and leaves the other entries in their order; on
    an entry that is in no list it does nothing. *)
Definition rlist_del_entry (entry : coro) (q : wakeup_queue) : wakeup_queue :=
  filter (fun x => x ≠ entry) q.

(** [struct coro_bus_channel]. *)
Record coro_bus_channel := Channel {
  size_limit : Z;
  send_queue : wakeup_queue;
  recv_queue : wakeup_queue;
  chan_data : data_vector
}.

(** [struct coro_bus].  [channels] is [None] for the NULL array;
    [channel_count] is the length of the array. *)
Record coro_bus := Bus {
  channels : option (list (option addr))
}.

Definition channel_count (b : coro_bus) : Z :=
  match channels b with
  | None => 0
  | Some arr => Z.of_nat (length arr)
  end.

(** The [struct coro_bus *] argument of the API: NULL or the bus. *)
Inductive bus_ptr := NULL | BUS.

(** Everything the code reads and writes: the bus, the heap of channels,
    the allocator, [global_error] and the scheduler's set of coroutines
    that [coro_wakeup] has made runnable. *)
Record world := World {
  bus : coro_bus;
  heap : gmap addr coro_bus_channel;
  next_addr : addr;
  global_error : coro_bus_error_code;
  runnable : gset coro
}.

(** Updates of one field of the world. *)
Definition set_bus (b : coro_bus) (w : world) : world :=
  World b (heap w) (next_addr w) (global_error w) (runnable w).
Definition set_heap (h : gmap addr coro_bus_channel) (w : world) : world :=
  World (bus w) h (next_addr w) (global_error w) (runnable w).
Definition set_runnable (r : gset coro) (w : world) : world :=
  World (bus w) (heap w) (next_addr w) (global_error w) r.
Definition set_next_addr (a : addr) (w : world) : world :=
  World (bus w) (heap w) a (global_error w) (runnable w).

(** [coro_bus_new]. *)
Definition coro_bus_new : world :=
  World (Bus None) ∅ 0%nat CORO_BUS_ERR_NONE ∅.

(** Which of the two wait queues of a channel. *)
Inductive which_queue := SendQ | RecvQ.

(** Reads and updates of the fields of a channel. *)
Definition queue_of (q : which_queue) (chan : coro_bus_channel) : wakeup_queue :=
  match q with SendQ => send_queue chan | RecvQ => recv_queue chan end.

Definition set_queue (q : which_queue) (l : wakeup_queue) (chan : coro_bus_channel)
  : coro_bus_channel :=
  match q with
  | SendQ => Channel (size_limit chan) l (recv_queue chan) (chan_data chan)
  | RecvQ => Channel (size_limit chan) (send_queue chan) l (chan_data chan)
  end.

Definition set_chan_data (v : data_vector) (chan : coro_bus_channel) : coro_bus_channel :=
  Channel (size_limit chan) (send_queue chan) (recv_queue chan) v.

(** ** Results of a segment *)

(** What a function returned.  [RetFail] is the statement [return -1;],
    [RetInt v out] is [return <expression>;] with the values stored through
    the output pointer, [RetVoid] the return of a [void] function.  The
    caller of the C function sees [ret_int]. *)
Inductive ret :=
| RetFail
| RetInt (v : Z) (out : list Z)
| RetVoid.

(** The [int] that the caller receives (0 stands for no value). *)
Definition ret_int (r : ret) : Z :=
  match r with
  | RetFail => -1
  | RetInt v _ => v
  | RetVoid => 0
  end.

(** Where a suspended coroutine continues: the function it is in and the
    locals that are live there. *)
Inductive kont :=
| KSend (channel : Z) (chan : addr) (d : Z)
| KRecv (channel : Z) (chan : addr)
| KBroadcast (i : Z) (d : Z)
| KBroadcastYield (d : Z)
| KSendV (channel : Z) (chan : addr) (src : list Z) (count sent : Z)
| KRecvV (channel : Z) (capacity : Z).

(** How a segment ends: the function returned, the coroutine suspended
    itself, it yielded, or the segment ran into undefined behaviour (a read
    outside an array, a dereference of NULL or of freed memory, a failed
    [assert], signed overflow). *)
Inductive outcome (A : Type) :=
| Done (a : A)
| Parked (k : kont)
| Yielded (k : kont)
| Undefined.
Arguments Done {A} a.
Arguments Parked {A} k.
Arguments Yielded {A} k.
Arguments Undefined {A}.

(** ** A state monad for segments *)

(** A segment, or a part of one: from a world to the way it ends and the
    world it leaves.  [bind] runs its second part only when the first one
    is [Done]. *)
Definition M (A : Type) : Type := world -> outcome A * world.

Definition pure {A} (a : A) : M A := fun w => (Done a, w).

Definition bind {A B} (m : M A) (f : A -> M B) : M B :=
  fun w =>
    match m w with
    | (Done a, w') => f a w'
    | (Parked k, w') => (Parked k, w')
    | (Yielded k, w') => (Yielded k, w')
    | (Undefined, w') => (Undefined, w')
    end.

(** The segment ends in undefined behaviour. *)
Definition undefined {A} : M A := fun w => (Undefined, w).

(** The current world, and a write to it. *)
Definition get : M world := fun w => (Done w, w).
Definition modify (f : world -> world) : M unit := fun w => (Done tt, f w).

Notation "'do' x <- m ; k" := (bind m (fun x => k))
  (at level 10, x name, m at level 100, k at level 200).
Notation "m ;; k" := (bind m (fun _ => k))
  (at level 100, k at level 200, right associativity).

(** ** [data_vector] *)

(** [data_vector_append_many]: grow the capacity if needed, copy [count]
    values of [src] behind the last element.  [realloc] is taken to
    succeed (the code does not test its result). *)
Definition data_vector_append_many (vector : data_vector) (src : list Z) (count : Z)
  : data_vector :=
  let cap :=
    if to_size_t (data_size vector + count) >? capacity vector then
      let cap1 := if capacity vector =? 0 then 4 else to_size_t (capacity vector * 2) in
      if cap1 <? to_size_t (data_size vector + count)
      then to_size_t (data_size vector + count) else cap1
    else capacity vector in
  DataVector (data vector ++ take (Z.to_nat count) src) cap.

(** [data_vector_append]. *)
Definition data_vector_append (vector : data_vector) (d : Z) : data_vector :=
  data_vector_append_many vector [d] 1.

(** [data_vector_pop_first_many]: [None] when the [assert] fails. *)
Definition data_vector_pop_first_many (vector : data_vector) (count : Z)
  : option (list Z * data_vector) :=
  if count <=? data_size vector then
    Some (take (Z.to_nat count) (data vector),
          DataVector (drop (Z.to_nat count) (data vector)) (capacity vector))
  else None.

(** [data_vector_pop_first]: the local [data] starts as 0 and receives one
    value. *)
Definition data_vector_pop_first (vector : data_vector) : option (Z * data_vector) :=
  match data_vector_pop_first_many vector 1 with
  | Some (out, vector') => Some (hd 0 out, vector')
  | None => None
  end.

(** ** Scheduler and wait queues *)

(** [coro_bus_errno_set]. *)
Definition coro_bus_errno_set (err : coro_bus_error_code) : M unit :=
  modify (fun w => World (bus w) (heap w) (next_addr w) err (runnable w)).

(** [coro_bus_errno]. *)
Definition coro_bus_errno : M coro_bus_error_code :=
  fun w => (Done (global_error w), w).

(** Modelled from the spec: [libcoro.h] is not among the sources.
    [coro_wakeup] is "resume a specific task": it marks the coroutine
    runnable; the coroutine continues when the scheduler picks it. *)
Definition coro_wakeup (c : coro) : M unit :=
  modify (fun w => set_runnable ({[c]} ∪ runnable w) w).

(** Modelled from the spec: [coro_suspend] is "suspend the calling task
    until resumed": the caller stops being runnable and its segment ends;
    [k] is where it continues. *)
Definition coro_suspend {A} (self : coro) (k : kont) : M A :=
  fun w => (Parked k, set_runnable (runnable w ∖ {[self]}) w).

(** Modelled from the spec: [coro_yield] is "voluntarily yield": the
    segment ends and the caller stays runnable. *)
Definition coro_yield {A} (self : coro) (k : kont) : M A :=
  fun w => (Yielded k, set_runnable ({[self]} ∪ runnable w) w).

(** Dereference of a channel pointer. *)
Definition deref (chan : addr) : M coro_bus_channel :=
  fun w =>
    match heap w !! chan with
    | Some c => (Done c, w)
    | None => (Undefined, w)
    end.

(** Assignment through a channel pointer. *)
Definition store (chan : addr) (c : coro_bus_channel) : M unit :=
  modify (fun w => set_heap (<[chan := c]> (heap w)) w).

(** First half of [wakeup_queue_suspend_this]: the entry of the calling
    coroutine ([coro_this]) goes to the tail of the queue
    ([rlist_add_tail_entry]), then the coroutine suspends. *)
Definition wakeup_queue_suspend_this {A} (chan : addr) (q : which_queue)
    (self : coro) (k : kont) : M A :=
  do c <- deref chan;
  store chan (set_queue q (rlist_add_tail_entry (queue_of q c) self) c);;
  coro_suspend self k.

(** A channel without the entry of [self] in its wait queues. *)
Definition unlink_entry (self : coro) (c : coro_bus_channel) : coro_bus_channel :=
  Channel (size_limit c)
          (rlist_del_entry self (send_queue c))
          (rlist_del_entry self (recv_queue c))
          (chan_data c).

(** Second half of [wakeup_queue_suspend_this], run when the coroutine is
    resumed: [rlist_del_entry] takes the entry out of whatever queue it is
    still linked in.  After [coro_bus_channel_close] unlinked it, the entry
    is in no queue and nothing changes. *)
Definition wakeup_queue_resume_this (self : coro) : M unit :=
  modify (fun w => set_heap (unlink_entry self <$> heap w) w).

(** [wakeup_queue_wakeup_first]: nothing on an empty queue
    ([rlist_empty]); otherwise the oldest entry ([rlist_first_entry]) is
    woken and stays in the queue. *)
Definition wakeup_queue_wakeup_first (chan : addr) (q : which_queue) : M unit :=
  do c <- deref chan;
  match queue_of q c with
  | [] => pure tt
  | first :: _ => coro_wakeup first
  end.

(** ** Handles *)

(** [bus->channels[channel]] with no test before it: [None] when the read
    is outside the array or the array is NULL. *)
Definition read_slot (channel : Z) (w : world) : option (option addr) :=
  match channels (bus w) with
  | None => None
  | Some arr => if channel <? 0 then None else arr !! Z.to_nat channel
  end.

(** The same read as an action: undefined outside the array. *)
Definition slot (channel : Z) : M (option addr) :=
  fun w =>
    match read_slot channel w with
    | Some s => (Done s, w)
    | None => (Undefined, w)
    end.

(** The test
    [bus == NULL || bus->channels == NULL || channel < 0 ||
     channel >= bus->channel_count || !bus->channels[channel]]
    of send, try_send, close and the batch functions: [Some chan] when
    every disjunct is false. *)
Definition check_channel (b : bus_ptr) (channel : Z) (w : world) : option addr :=
  match b with
  | NULL => None
  | BUS =>
      match channels (bus w) with
      | None => None
      | Some arr =>
          if (channel <? 0) || (channel >=? channel_count (bus w)) then None
          else match arr !! Z.to_nat channel with
               | Some (Some chan) => Some chan
               | _ => None
               end
      end
  end.

(** The test
    [bus == NULL || bus->channels == NULL || bus->channel_count == 0 ||
     !bus->channels[channel]]
    of recv and try_recv, which reads the slot without comparing [channel]
    with the bounds of the array: [None] when that read is outside the
    array, [Some None] when a disjunct is true. *)
Definition check_channel_recv (b : bus_ptr) (channel : Z) (w : world)
  : option (option addr) :=
  match b with
  | NULL => Some None
  | BUS =>
      match channels (bus w) with
      | None => Some None
      | Some arr =>
          if channel_count (bus w) =? 0 then Some None
          else read_slot channel w
      end
  end.

(** ** Opening and closing channels *)

(** The loop of [coro_bus_channel_open] over the slots: the index of the
    first NULL slot at or after [i]. *)
Fixpoint first_free_slot (arr : list (option addr)) (i : Z) : option Z :=
  match arr with
  | [] => None
  | None :: _ => Some i
  | Some _ :: rest => first_free_slot rest (i + 1)
  end.

(** What [coro_bus_channel_open] stores in a new channel: the limit, two
    empty wait queues and an empty vector with no storage. *)
Definition new_channel (limit : Z) : coro_bus_channel :=
  Channel limit [] [] (DataVector [] 0).

(** [malloc] of a channel that succeeds.  The allocator hands out the
    block [next_addr], which is not in use; the block it hands out after
    that is again one that is not in use. *)
Definition malloc_channel (c : coro_bus_channel) : M addr :=
  fun w =>
    (Done (next_addr w),
     World (bus w) (<[next_addr w := c]> (heap w))
           (fresh (dom (<[next_addr w := c]> (heap w))))
           (global_error w) (runnable w)).

(** [free] of a channel.  The block is no longer in use, and it is the
    one the allocator hands out next. *)
Definition free_channel (chan : addr) : M unit :=
  modify (fun w => set_next_addr chan (set_heap (delete chan (heap w)) w)).

(** Assignment of the slot array. *)
Definition set_channels (arr : list (option addr)) : M unit :=
  modify (fun w => set_bus (Bus (Some arr)) w).

(** [coro_bus_channel_open].  [malloc_ok] and [realloc_ok] say whether the
    two allocations succeed. *)
Definition coro_bus_channel_open (b : bus_ptr) (limit : Z)
    (malloc_ok realloc_ok : bool) : M ret :=
  if negb malloc_ok then pure RetFail
  else
    do channel <- malloc_channel (new_channel limit);
    match b with
    | NULL => undefined
    | BUS =>
        do w <- get;
        match (match channels (bus w) with
               | Some arr => first_free_slot arr 0
               | None => None
               end) with
        | Some i =>
            set_channels (<[Z.to_nat i := Some channel]> (default [] (channels (bus w))));;
            pure (RetInt i [])
        | None =>
            if channel_count (bus w) =? INT_MAX then undefined
            else if negb realloc_ok then
              free_channel channel;;
              coro_bus_errno_set CORO_BUS_ERR_NO_CHANNEL;;
              pure RetFail
            else
              set_channels (default [] (channels (bus w)) ++ [Some channel]);;
              pure (RetInt (channel_count (bus w)) [])
        end
    end.

(** One of the two [while] loops of [coro_bus_channel_close]: as long as
    the queue is not empty, the error code is set and the oldest entry is
    unlinked and woken.  The queue itself goes with the channel when it is
    freed. *)
Fixpoint close_drain (q : wakeup_queue) : M unit :=
  match q with
  | [] => pure tt
  | entry :: rest =>
      coro_bus_errno_set CORO_BUS_ERR_NO_CHANNEL;;
      coro_wakeup entry;;
      close_drain rest
  end.

(** [coro_bus_channel_close]. *)
Definition coro_bus_channel_close (b : bus_ptr) (channel : Z) : M ret :=
  fun w =>
    match check_channel b channel w with
    | None => (Done RetVoid, w)
    | Some chan =>
        (do c <- deref chan;
         close_drain (recv_queue c);;
         close_drain (send_queue c);;
         free_channel chan;;
         set_channels (<[Z.to_nat channel := None]> (default [] (channels (bus w))));;
         pure RetVoid) w
    end.

(** ** Send and receive *)

(** [data_vector_append(&chan->data, d)]. *)
Definition channel_append (chan : addr) (d : Z) : M unit :=
  do c <- deref chan;
  store chan (set_chan_data (data_vector_append (chan_data c) d) c).

(** [data_vector_pop_first(&chan->data)]. *)
Definition channel_pop_first (chan : addr) : M Z :=
  do c <- deref chan;
  match data_vector_pop_first (chan_data c) with
  | None => undefined
  | Some (d, vector) => store chan (set_chan_data vector c);; pure d
  end.

(** One turn of the [for (;;)] of [coro_bus_send], up to the return or the
    suspension. *)
Definition coro_bus_send (self : coro) (b : bus_ptr) (channel : Z) (d : Z) : M ret :=
  do w <- get;
  match check_channel b channel w with
  | None => coro_bus_errno_set CORO_BUS_ERR_NO_CHANNEL;; pure RetFail
  | Some chan =>
      do c <- deref chan;
      if data_size (chan_data c) <? size_limit c then
        channel_append chan d;;
        wakeup_queue_wakeup_first chan RecvQ;;
        wakeup_queue_wakeup_first chan SendQ;;
        pure (RetInt 0 [])
      else wakeup_queue_suspend_this chan SendQ self (KSend channel chan d)
  end.

(** [coro_bus_send] from the resumption inside [wakeup_queue_suspend_this]:
    the entry is unlinked, the slot is compared with [chan], and the loop
    takes its next turn. *)
Definition coro_bus_send_resume (self : coro) (channel : Z) (chan : addr) (d : Z)
  : M ret :=
  wakeup_queue_resume_this self;;
  do s <- slot channel;
  if decide (s = Some chan) then coro_bus_send self BUS channel d
  else coro_bus_errno_set CORO_BUS_ERR_NO_CHANNEL;; pure RetFail.

(** [coro_bus_try_send]. *)
Definition coro_bus_try_send (b : bus_ptr) (channel : Z) (d : Z) : M ret :=
  do w <- get;
  match check_channel b channel w with
  | None => coro_bus_errno_set CORO_BUS_ERR_NO_CHANNEL;; pure RetFail
  | Some chan =>
      do c <- deref chan;
      if data_size (chan_data c) >=? size_limit c then
        coro_bus_errno_set CORO_BUS_ERR_WOULD_BLOCK;; pure RetFail
      else
        channel_append chan d;;
        wakeup_queue_wakeup_first chan RecvQ;;
        pure (RetInt 0 [])
  end.

(** The [while (chan->data.size == 0)] loop of [coro_bus_recv] and what
    follows it, from the test of the loop. *)
Definition coro_bus_recv_loop (self : coro) (channel : Z) (chan : addr) : M ret :=
  do c <- deref chan;
  if data_size (chan_data c) =? 0 then
    wakeup_queue_suspend_this chan RecvQ self (KRecv channel chan)
  else
    do d <- channel_pop_first chan;
    wakeup_queue_wakeup_first chan SendQ;;
    pure (RetInt 0 [d]).

(** [coro_bus_recv]. *)
Definition coro_bus_recv (self : coro) (b : bus_ptr) (channel : Z) : M ret :=
  do w <- get;
  match check_channel_recv b channel w with
  | None => undefined
  | Some None => coro_bus_errno_set CORO_BUS_ERR_NO_CHANNEL;; pure RetFail
  | Some (Some chan) => coro_bus_recv_loop self channel chan
  end.

(** [coro_bus_recv] from the resumption inside the loop. *)
Definition coro_bus_recv_resume (self : coro) (channel : Z) (chan : addr) : M ret :=
  wakeup_queue_resume_this self;;
  do s <- slot channel;
  if decide (s = Some chan) then coro_bus_recv_loop self channel chan
  else coro_bus_errno_set CORO_BUS_ERR_NO_CHANNEL;; pure RetFail.

(** [coro_bus_try_recv]. *)
Definition coro_bus_try_recv (b : bus_ptr) (channel : Z) : M ret :=
  do w <- get;
  match check_channel_recv b channel w with
  | None => undefined
  | Some None => coro_bus_errno_set CORO_BUS_ERR_NO_CHANNEL;; pure RetFail
  | Some (Some chan) =>
      do c <- deref chan;
      if data_size (chan_data c) =? 0 then
        coro_bus_errno_set CORO_BUS_ERR_WOULD_BLOCK;; pure RetFail
      else
        do d <- channel_pop_first chan;
        wakeup_queue_wakeup_first chan SendQ;;
        pure (RetInt 0 [d])
  end.

(** ** Broadcast *)

(** The loop that looks for any open channel. *)
Fixpoint any_channel_exists (arr : list (option addr)) : bool :=
  match arr with
  | [] => false
  | Some _ :: _ => true
  | None :: rest => any_channel_exists rest
  end.

(** [chan->data.size >= chan->size_limit && rlist_empty(&chan->recv_queue.coros)]. *)
Definition full_without_receiver (c : coro_bus_channel) : bool :=
  (data_size (chan_data c) >=? size_limit c)
  && match recv_queue c with [] => true | _ => false end.

(** [chan->data.size >= chan->size_limit]. *)
Definition full (c : coro_bus_channel) : bool :=
  data_size (chan_data c) >=? size_limit c.

(** The loops that stop at the first open channel on which [blocked]
    holds: the result says whether there is none. *)
Fixpoint none_blocked (blocked : coro_bus_channel -> bool) (arr : list (option addr))
  : M bool :=
  match arr with
  | [] => pure true
  | None :: rest => none_blocked blocked rest
  | Some chan :: rest =>
      do c <- deref chan;
      if blocked c then pure false else none_blocked blocked rest
  end.

(** The loop that appends the message to every open channel and wakes its
    oldest receiver. *)
Fixpoint broadcast_commit (arr : list (option addr)) (d : Z) : M unit :=
  match arr with
  | [] => pure tt
  | None :: rest => broadcast_commit rest d
  | Some chan :: rest =>
      channel_append chan d;;
      wakeup_queue_wakeup_first chan RecvQ;;
      broadcast_commit rest d
  end.

(** The last loop of [coro_bus_broadcast], over the slots [arr] that start
    at index [i]: it suspends on the first channel that is full with no
    receiver waiting, or runs to its end. *)
Fixpoint broadcast_park (self : coro) (d : Z) (arr : list (option addr)) (i : Z)
  : M unit :=
  match arr with
  | [] => pure tt
  | None :: rest => broadcast_park self d rest (i + 1)
  | Some chan :: rest =>
      do c <- deref chan;
      if full_without_receiver c
      then wakeup_queue_suspend_this chan SendQ self (KBroadcast i d)
      else broadcast_park self d rest (i + 1)
  end.

(** One turn of the [while (true)] of [coro_bus_broadcast] from its top,
    up to the return, the suspension or the yield. *)
Definition coro_bus_broadcast (self : coro) (b : bus_ptr) (d : Z) : M ret :=
  do w <- get;
  match b, channels (bus w) with
  | NULL, _ | BUS, None => coro_bus_errno_set CORO_BUS_ERR_NO_CHANNEL;; pure RetFail
  | BUS, Some arr =>
      if channel_count (bus w) =? 0 then
        coro_bus_errno_set CORO_BUS_ERR_NO_CHANNEL;; pure RetFail
      else if negb (any_channel_exists arr) then
        coro_bus_errno_set CORO_BUS_ERR_NO_CHANNEL;; pure RetFail
      else
        do all_ready <- none_blocked full_without_receiver arr;
        if all_ready then broadcast_commit arr d;; pure (RetInt 0 [])
        else
          (* suspended = false *)
          broadcast_park self d arr 0;;
          coro_yield self (KBroadcastYield d)
  end.

(** [coro_bus_broadcast] from the resumption inside its last loop at index
    [i]: the entry is unlinked, [suspended] becomes true, the loop goes on
    from [i + 1] over the array as it is now, and with [suspended] true the
    outer loop takes its next turn. *)
Definition coro_bus_broadcast_resume (self : coro) (i : Z) (d : Z) : M ret :=
  wakeup_queue_resume_this self;;
  do w <- get;
  broadcast_park self d (drop (Z.to_nat (i + 1)) (default [] (channels (bus w)))) (i + 1);;
  coro_bus_broadcast self BUS d.

(** [coro_bus_try_broadcast]. *)
Definition coro_bus_try_broadcast (b : bus_ptr) (d : Z) : M ret :=
  do w <- get;
  match b, channels (bus w) with
  | NULL, _ | BUS, None => coro_bus_errno_set CORO_BUS_ERR_NO_CHANNEL;; pure RetFail
  | BUS, Some arr =>
      if channel_count (bus w) =? 0 then
        coro_bus_errno_set CORO_BUS_ERR_NO_CHANNEL;; pure RetFail
      else if negb (any_channel_exists arr) then
        coro_bus_errno_set CORO_BUS_ERR_NO_CHANNEL;; pure RetFail
      else
        do none_full <- none_blocked full arr;
        if none_full then broadcast_commit arr d;; pure (RetInt 0 [])
        else coro_bus_errno_set CORO_BUS_ERR_WOULD_BLOCK;; pure RetFail
  end.

(** ** Batch send and receive *)

(** The [for] loop of the batch senders: [n] turns from index [i], each
    appending [data[sent + i]] and waking the oldest receiver.  Reading
    past the end of the caller's array is undefined. *)
Fixpoint send_v_copy (chan : addr) (src : list Z) (sent i : Z) (n : nat) : M unit :=
  match n with
  | O => pure tt
  | S n' =>
      match src !! Z.to_nat (to_unsigned (sent + i)) with
      | None => undefined
      | Some d =>
          channel_append chan d;;
          wakeup_queue_wakeup_first chan RecvQ;;
          send_v_copy chan src sent (i + 1) n'
      end
  end.

(** One turn of the [for (;;)] of [coro_bus_send_v]. *)
Definition coro_bus_send_v_turn (self : coro) (channel : Z) (chan : addr)
    (src : list Z) (count sent : Z) : M ret :=
  do s <- slot channel;
  if decide (s = Some chan) then
    do c <- deref chan;
    let space := to_unsigned (to_size_t (size_limit c - data_size (chan_data c))) in
    if space =? 0 then
      wakeup_queue_suspend_this chan SendQ self (KSendV channel chan src count sent)
    else
      let to_send :=
        if to_unsigned (count - sent) <? space then to_unsigned (count - sent) else space in
      send_v_copy chan src sent 0 (Z.to_nat to_send);;
      wakeup_queue_wakeup_first chan SendQ;;
      pure (RetInt (to_int (to_unsigned (sent + to_send))) [])
  else coro_bus_errno_set CORO_BUS_ERR_NO_CHANNEL;; pure RetFail.

(** [coro_bus_send_v]; [src] is [None] for a NULL [data]. *)
Definition coro_bus_send_v (self : coro) (b : bus_ptr) (channel : Z)
    (src : option (list Z)) (count : Z) : M ret :=
  do w <- get;
  match check_channel b channel w, src with
  | Some chan, Some src => coro_bus_send_v_turn self channel chan src count 0
  | _, _ => coro_bus_errno_set CORO_BUS_ERR_NO_CHANNEL;; pure RetFail
  end.

(** [coro_bus_send_v] from the resumption: unlink, compare the slot with
    [chan], [continue]. *)
Definition coro_bus_send_v_resume (self : coro) (channel : Z) (chan : addr)
    (src : list Z) (count sent : Z) : M ret :=
  wakeup_queue_resume_this self;;
  do s <- slot channel;
  if decide (s = Some chan) then coro_bus_send_v_turn self channel chan src count sent
  else coro_bus_errno_set CORO_BUS_ERR_NO_CHANNEL;; pure RetFail.

(** [coro_bus_try_send_v]. *)
Definition coro_bus_try_send_v (b : bus_ptr) (channel : Z)
    (src : option (list Z)) (count : Z) : M ret :=
  do w <- get;
  match check_channel b channel w, src with
  | Some chan, Some src =>
      do c <- deref chan;
      let space := to_unsigned (to_size_t (size_limit c - data_size (chan_data c))) in
      if space =? 0 then coro_bus_errno_set CORO_BUS_ERR_WOULD_BLOCK;; pure RetFail
      else
        let to_send := if count <? space then count else space in
        send_v_copy chan src 0 0 (Z.to_nat to_send);;
        wakeup_queue_wakeup_first chan SendQ;;
        pure (RetInt (to_int to_send) [])
  | _, _ => coro_bus_errno_set CORO_BUS_ERR_NO_CHANNEL;; pure RetFail
  end.

(** The [for] loop of [coro_bus_try_recv_v]: [n] values popped from the
    head, in the order they are stored to [data]. *)
Fixpoint recv_v_copy (chan : addr) (n : nat) : M (list Z) :=
  match n with
  | O => pure []
  | S n' =>
      do d <- channel_pop_first chan;
      do rest <- recv_v_copy chan n';
      pure (d :: rest)
  end.

(** [coro_bus_try_recv_v]; [data_nonnull] says whether [data] is not
    NULL. *)
Definition coro_bus_try_recv_v (b : bus_ptr) (channel : Z)
    (data_nonnull : bool) (capacity : Z) : M ret :=
  do w <- get;
  match check_channel b channel w, data_nonnull with
  | Some chan, true =>
      do c <- deref chan;
      if data_size (chan_data c) =? 0 then
        coro_bus_errno_set CORO_BUS_ERR_WOULD_BLOCK;; pure RetFail
      else
        let recv_count :=
          to_unsigned (if capacity <? data_size (chan_data c)
                       then capacity else data_size (chan_data c)) in
        do out <- recv_v_copy chan (Z.to_nat recv_count);
        wakeup_queue_wakeup_first chan SendQ;;
        pure (RetInt (to_int recv_count) out)
  | _, _ => coro_bus_errno_set CORO_BUS_ERR_NO_CHANNEL;; pure RetFail
  end.

(** One turn of the [while] of [coro_bus_recv_v] and, when the loop ends,
    the rest of the function. *)
Definition coro_bus_recv_v_turn (self : coro) (channel : Z)
    (data_nonnull : bool) (capacity : Z) : M ret :=
  do r <- coro_bus_try_recv_v BUS channel data_nonnull capacity;
  if ret_int r <? 0 then
    do e <- coro_bus_errno;
    if decide (e = CORO_BUS_ERR_WOULD_BLOCK) then
      coro_bus_errno_set CORO_BUS_ERR_NONE;;
      do s <- slot channel;
      match s with
      | None => undefined
      | Some chan => wakeup_queue_suspend_this chan RecvQ self (KRecvV channel capacity)
      end
    else pure RetFail
  else
    do s <- slot channel;
    match s with
    | None => undefined
    | Some chan =>
        do c <- deref chan;
        (if data_size (chan_data c) >? 0
         then wakeup_queue_wakeup_first chan RecvQ else pure tt);;
        pure r
    end.

(** [coro_bus_recv_v]. *)
Definition coro_bus_recv_v (self : coro) (b : bus_ptr) (channel : Z)
    (data_nonnull : bool) (capacity : Z) : M ret :=
  do w <- get;
  match check_channel b channel w, data_nonnull with
  | Some _, true => coro_bus_recv_v_turn self channel data_nonnull capacity
  | _, _ => coro_bus_errno_set CORO_BUS_ERR_NO_CHANNEL;; pure RetFail
  end.

(** [coro_bus_recv_v] from the resumption: unlink, [continue]. *)
Definition coro_bus_recv_v_resume (self : coro) (channel : Z) (capacity : Z) : M ret :=
  wakeup_queue_resume_this self;;
  coro_bus_recv_v_turn self channel true capacity.

(** ** The API as a whole *)

(** A call of one API function with its arguments. *)
Inductive call :=
| Open (b : bus_ptr) (limit : Z) (malloc_ok realloc_ok : bool)
| Close (b : bus_ptr) (channel : Z)
| Send (b : bus_ptr) (channel d : Z)
| TrySend (b : bus_ptr) (channel d : Z)
| Recv (b : bus_ptr) (channel : Z)
| TryRecv (b : bus_ptr) (channel : Z)
| Broadcast (b : bus_ptr) (d : Z)
| TryBroadcast (b : bus_ptr) (d : Z)
| SendV (b : bus_ptr) (channel : Z) (src : option (list Z)) (count : Z)
| TrySendV (b : bus_ptr) (channel : Z) (src : option (list Z)) (count : Z)
| RecvV (b : bus_ptr) (channel : Z) (data_nonnull : bool) (capacity : Z)
| TryRecvV (b : bus_ptr) (channel : Z) (data_nonnull : bool) (capacity : Z).

(** The first segment of a call made by coroutine [self]. *)
Definition run_call (self : coro) (c : call) : M ret :=
  match c with
  | Open b limit malloc_ok realloc_ok => coro_bus_channel_open b limit malloc_ok realloc_ok
  | Close b channel => coro_bus_channel_close b channel
  | Send b channel d => coro_bus_send self b channel d
  | TrySend b channel d => coro_bus_try_send b channel d
  | Recv b channel => coro_bus_recv self b channel
  | TryRecv b channel => coro_bus_try_recv b channel
  | Broadcast b d => coro_bus_broadcast self b d
  | TryBroadcast b d => coro_bus_try_broadcast b d
  | SendV b channel src count => coro_bus_send_v self b channel src count
  | TrySendV b channel src count => coro_bus_try_send_v b channel src count
  | RecvV b channel data_nonnull capacity =>
      coro_bus_recv_v self b channel data_nonnull capacity
  | TryRecvV b channel data_nonnull capacity =>
      coro_bus_try_recv_v b channel data_nonnull capacity
  end.

(** The segment that coroutine [self] runs when it is resumed at [k]. *)
Definition run_resume (self : coro) (k : kont) : M ret :=
  match k with
  | KSend channel chan d => coro_bus_send_resume self channel chan d
  | KRecv channel chan => coro_bus_recv_resume self channel chan
  | KBroadcast i d => coro_bus_broadcast_resume self i d
  | KBroadcastYield d => coro_bus_broadcast self BUS d
  | KSendV channel chan src count sent =>
      coro_bus_send_v_resume self channel chan src count sent
  | KRecvV channel capacity => coro_bus_recv_v_resume self channel capacity
  end.

(** The blocking functions and the non-blocking ones. *)
Definition blocking (c : call) : bool :=
  match c with
  | Send _ _ _ | Recv _ _ | Broadcast _ _ | SendV _ _ _ _ | RecvV _ _ _ _ => true
  | _ => false
  end.

Definition non_blocking (c : call) : bool :=
  match c with
  | TrySend _ _ _ | TryRecv _ _ | TryBroadcast _ _
  | TrySendV _ _ _ _ | TryRecvV _ _ _ _ => true
  | _ => false
  end.

Arguments check_channel : simpl never.
Arguments check_channel_recv : simpl never.
Arguments read_slot : simpl never.

(** ** Runs and example worlds *)

(** The world a segment leaves behind. *)
Definition exec {A} (m : M A) (w : world) : world := (m w).2.

(** A sequence of calls made by one coroutine, each completing before the
    next; the run stops at the first call that does not return. *)
Fixpoint run_calls (self : coro) (cs : list call) : M (list ret) :=
  match cs with
  | [] => pure []
  | c :: rest =>
      do r <- run_call self c;
      do rs <- run_calls self rest;
      pure (r :: rs)
  end.

(** The world after [coro_bus_errno_set err]. *)
Definition with_error (err : coro_bus_error_code) (w : world) : world :=
  exec (coro_bus_errno_set err) w.

(** A handle that names no channel: out of the slot array or an empty
    slot. *)
Definition bad_handle (channel : Z) (w : world) : Prop :=
  channel < 0 \/ channel >= channel_count (bus w) \/ read_slot channel w = Some None.

(** A bus with one open channel of the given limit, in slot 0. *)
Definition one_channel (limit : Z) : world :=
  exec (coro_bus_channel_open BUS limit true true) coro_bus_new.

(** Slot [i] is the first free slot of the array. *)
Definition first_free (arr : list (option addr)) (i : nat) : Prop :=
  arr !! i = Some None /\ forall j, (j < i)%nat -> arr !! j ≠ Some None.

(** The runnable set after [wakeup_queue_wakeup_first] on queue [q]. *)
Definition wake_first (q : wakeup_queue) (r : gset coro) : gset coro :=
  match q with
  | [] => r
  | first :: _ => {[first]} ∪ r
  end.

(** A segment: the start of a call, or the continuation of a suspended
    one. *)
Inductive segment :=
| Call (c : call)
| Resume (k : kont).

Definition run (self : coro) (s : segment) : M ret :=
  match s with
  | Call c => run_call self c
  | Resume k => run_resume self k
  end.

(** The segments of the blocking functions. *)
Definition blocking_segment (s : segment) : bool :=
  match s with
  | Call c => blocking c
  | Resume _ => true
  end.

(** The segments of [coro_bus_broadcast]. *)
Definition broadcast_segment (s : segment) : bool :=
  match s with
  | Call (Broadcast _ _) | Resume (KBroadcast _ _) | Resume (KBroadcastYield _) => true
  | _ => false
  end.

(** Channel A of limit 2, empty, in slot 0 and channel B of limit 1,
    holding one message, in slot 1. *)
Definition two_channels : world :=
  exec (coro_bus_try_send BUS 1 9)
    (exec (coro_bus_channel_open BUS 1 true true) (one_channel 2)).

(** A segment that never ends in a suspension or a yield. *)
Definition no_suspend {A} (m : M A) : Prop :=
  forall w, match (m w).1 with Parked _ | Yielded _ => False | _ => True end.

(** The segments of the non-blocking functions. *)
Definition non_blocking_segment (s : segment) : bool :=
  match s with
  | Call c => non_blocking c
  | Resume _ => false
  end.

(** The calls of a round trip: [vs] sent one by one, then as many values
    received; each with the blocking or the non-blocking function. *)
Definition send_call (blocking_send : bool) (channel d : Z) : call :=
  if blocking_send then Send BUS channel d else TrySend BUS channel d.

Definition recv_call (blocking_recv : bool) (channel : Z) : call :=
  if blocking_recv then Recv BUS channel else TryRecv BUS channel.

Definition round_trip (blocking_send blocking_recv : bool) (channel : Z) (vs : list Z)
  : list call :=
  map (send_call blocking_send channel) vs
  ++ replicate (length vs) (recv_call blocking_recv channel).

(** ** The system: a world and its suspended coroutines *)

(** The coroutines that are inside a blocking call, each with the place
    where it continues.  A coroutine that is not in [tasks] runs the code
    of its caller and may make any call. *)
Record system := System {
  sys_world : world;
  tasks : gmap coro kont
}.

(** The suspended coroutines after [self] ran a segment that ended as
    [o]. *)
Definition settle (self : coro) (o : outcome ret) (ts : gmap coro kont)
  : gmap coro kont :=
  match o with
  | Parked k | Yielded k => <[self := k]> ts
  | _ => delete self ts
  end.

(** Modelled from the spec: the scheduler of [libcoro] is not among the
    sources.  It runs one coroutine at a time: a coroutine outside any
    call may start one, and a suspended coroutine continues, with one
    segment [seg], only after [coro_wakeup] marked it runnable.  A segment
    that runs into undefined behaviour is no step.  The allocator is not
    among the sources either: the block [a] that a [malloc] of the call
    returns is any block that is not in use. *)
Inductive step (self : coro) : segment -> system -> system -> Prop :=
| step_call c w ts a o w' :
    ts !! self = None ->
    heap w !! a = None ->
    run self (Call c) (set_next_addr a w) = (o, w') ->
    o ≠ Undefined ->
    step self (Call c) (System w ts) (System w' (settle self o ts))
| step_resume k w ts o w' :
    ts !! self = Some k ->
    self ∈ runnable w ->
    run self (Resume k) (set_runnable (runnable w ∖ {[self]}) w) = (o, w') ->
    o ≠ Undefined ->
    step self (Resume k) (System w ts) (System w' (settle self o ts)).

(** Some coroutine runs some segment. *)
Definition any_step (s s' : system) : Prop :=
  exists self seg, step self seg s s'.

(** The system of a new bus: no channel, no coroutine inside a call. *)
Definition initial : system := System coro_bus_new ∅.

(** The states the system can be in between two segments. *)
Definition reachable (s : system) : Prop := rtc any_step initial s.

(** ** Invariants *)

(** The slot array, empty when it is NULL. *)
Definition slots (w : world) : list (option addr) := default [] (channels (bus w)).

(** The pointers in the slots are live, no two slots share a channel, and
    the block that the allocator hands out next is not in use. *)
Record world_wf (w : world) : Prop := WorldWf {
  wf_live : forall i chan, slots w !! i = Some (Some chan) -> chan ∈ dom (heap w);
  wf_alias : forall i j chan,
      slots w !! i = Some (Some chan) -> slots w !! j = Some (Some chan) -> i = j;
  wf_fresh : heap w !! next_addr w = None
}.

(** The capacity invariant: no channel holds more messages than its
    limit. *)
Definition cap_inv (w : world) : Prop :=
  map_Forall (fun _ c => data_size (chan_data c) <= size_limit c) (heap w).

(** Two worlds with the same bus, allocator and set of live channels. *)
Definition same_shape (w w' : world) : Prop :=
  bus w' = bus w /\ next_addr w' = next_addr w /\ dom (heap w') = dom (heap w).

(** Two worlds whose channels have the same wait queues. *)
Definition same_queues (w w' : world) : Prop :=
  forall chan,
    (send_queue <$> heap w' !! chan) = (send_queue <$> heap w !! chan) /\
    (recv_queue <$> heap w' !! chan) = (recv_queue <$> heap w !! chan).

(** A segment whose final world is always related to its initial one. *)
Definition respects {A} (R : world -> world -> Prop) (m : M A) : Prop :=
  forall w, R w (m w).2.

(** A segment that keeps the capacity invariant. *)
Definition keeps_cap (w w' : world) : Prop := cap_inv w -> cap_inv w'.

(** The arguments that have an unsigned C type hold a value of it. *)
Definition typed_segment (s : segment) : Prop :=
  match s with
  | Call (Open _ limit _ _) => 0 <= limit < SIZE_MOD
  | _ => True
  end.

(** No channel is full while a receiver waits on it. *)
Definition no_receiver_on_full (w : world) : Prop :=
  forall chan c, heap w !! chan = Some c -> full c = true -> recv_queue c = [].

(** A step of a function other than [coro_bus_broadcast], with typed
    arguments. *)
Definition step_without_broadcast (s s' : system) : Prop :=
  exists self seg,
    broadcast_segment seg = false /\ typed_segment seg /\ step self seg s s'.



(** Slot [channel] exists and does not hold [chan]: it is empty or holds
    a channel at another address. *)
Definition retired (channel : Z) (chan : addr) (w : world) : Prop :=
  exists s, read_slot channel w = Some s /\ s ≠ Some chan.

(** A coroutine suspended in [coro_bus_send], [coro_bus_recv] or
    [coro_bus_send_v] on handle [channel] while the slot held the channel
    at [chan].  ([coro_bus_recv_v] is not among them: when it continues it
    looks the handle up again and does not compare the channel.) *)
Definition parked_on (channel : Z) (chan : addr) (k : kont) : Prop :=
  (exists d, k = KSend channel chan d) \/
  k = KRecv channel chan \/
  (exists src count sent, k = KSendV channel chan src count sent).



(** The system after coroutine 0 opened a channel of limit 1 and
    coroutine 1 suspended in [coro_bus_recv] on it. *)
Definition parked_receiver : system :=
  System (exec (run 1%nat (Call (Recv BUS 0))) (one_channel 1))
         (settle 1%nat (Parked (KRecv 0 0%nat))
            (settle 0%nat (Done (RetInt 0 [])) ∅)).

(** Coroutine [t] stays runnable. *)
Definition keeps_runnable (t : coro) (w w' : world) : Prop :=
  t ∈ runnable w -> t ∈ runnable w'.

(** The batch sizes that fit an [int], so that the count a batch function
    returns is the number it moved. *)
Definition int_sized (s : segment) : Prop :=
  match s with
  | Call (SendV _ _ _ n) | Call (TrySendV _ _ _ n)
  | Call (RecvV _ _ _ n) | Call (TryRecvV _ _ _ n) => 0 <= n <= INT_MAX
  | Resume (KSendV _ _ _ n sent) => 0 <= n <= INT_MAX /\ sent = 0
  | Resume (KRecvV _ n) => 0 <= n <= INT_MAX
  | _ => True
  end.

(** ** Deleting the bus *)

(** The loop of [coro_bus_delete]: every channel that a slot holds is read
    ([bus->channels[i]->data.data]) and freed. *)
Fixpoint delete_channels (arr : list (option addr)) : M unit :=
  match arr with
  | [] => pure tt
  | None :: rest => delete_channels rest
  | Some chan :: rest =>
      deref chan;;
      free_channel chan;;
      delete_channels rest
  end.

(** [coro_bus_delete].  After [free(bus->channels)] and [free(bus)] there
    is no bus any more: the world is left with no slot array, and the
    pointer [BUS] must not be used again. *)
Definition coro_bus_delete (b : bus_ptr) : M ret :=
  match b with
  | NULL => pure RetVoid
  | BUS =>
      do w <- get;
      delete_channels (default [] (channels (bus w)));;
      modify (set_bus (Bus None));;
      pure RetVoid
  end.

(** ** More invariants and relations *)

(** Every live channel is held by a slot: no block that [malloc] handed
    out is lost. *)
Definition no_leak (w : world) : Prop :=
  forall chan, chan ∈ dom (heap w) -> exists i, slots w !! i = Some (Some chan).

(** The segments of the receiving functions. *)
Definition receiving_segment (s : segment) : bool :=
  match s with
  | Call (Recv _ _) | Call (TryRecv _ _) | Call (RecvV _ _ _ _) | Call (TryRecvV _ _ _ _)
  | Resume (KRecv _ _) | Resume (KRecvV _ _) => true
  | _ => false
  end.

(** A relation [P] between the old and the new state of every channel,
    where no channel is new. *)
Definition evolves (P : coro_bus_channel -> coro_bus_channel -> Prop) (w w' : world)
  : Prop :=
  forall chan c', heap w' !! chan = Some c' ->
    exists c, heap w !! chan = Some c /\ P c c'.

(** The limit is the same and the old messages are still at the head of
    the queue, in their order. *)
Definition appended (c c' : coro_bus_channel) : Prop :=
  size_limit c' = size_limit c /\
  data (chan_data c) `prefix_of` data (chan_data c').

(** The limit is the same and the messages that are left are the youngest
    of the old ones, in their order. *)
Definition taken (c c' : coro_bus_channel) : Prop :=
  size_limit c' = size_limit c /\
  data (chan_data c') `suffix_of` data (chan_data c).

(** Two worlds with the same bus and the same messages in every channel. *)
Definition same_messages (w w' : world) : Prop :=
  bus w' = bus w /\ chan_data <$> heap w' = chan_data <$> heap w.

(** Two worlds with the same error code. *)
Definition same_error (w w' : world) : Prop := global_error w' = global_error w.

(** The blocking function that goes with a non-blocking one. *)
Definition blocking_variant (c : call) : call :=
  match c with
  | TrySend b channel d => Send b channel d
  | TryRecv b channel => Recv b channel
  | TryBroadcast b d => Broadcast b d
  | TrySendV b channel src count => SendV b channel src count
  | TryRecvV b channel data_nonnull capacity => RecvV b channel data_nonnull capacity
  | _ => c
  end.

(** A channel with message [d] behind its queue. *)
Definition with_message (d : Z) (c : coro_bus_channel) : coro_bus_channel :=
  set_chan_data (data_vector_append (chan_data c) d) c.

(** The slots hold channel [chan]. *)
Definition in_slots (chan : addr) (w : world) : Prop := Some chan ∈ slots w.

#[global] Instance in_slots_dec chan w : Decision (in_slots chan w).
Proof. unfold in_slots. apply _. Defined.

(** The arguments that send, try_send and the batch functions reject
    before they look at the channel: a NULL bus, a handle that names no
    channel, a NULL data pointer. *)
Definition bad_arguments (c : call) (w : world) : Prop :=
  match c with
  | Send b channel _ | TrySend b channel _ => b = NULL \/ bad_handle channel w
  | SendV b channel src _ | TrySendV b channel src _ =>
      b = NULL \/ bad_handle channel w \/ src = None
  | RecvV b channel data_nonnull _ | TryRecvV b channel data_nonnull _ =>
      b = NULL \/ bad_handle channel w \/ data_nonnull = false
  | _ => False
  end.

(** The arguments with which a segment stays inside the memory it may
    use: [coro_bus_channel_open] gets a bus and the slot array can still
    grow; [coro_bus_recv] and [coro_bus_try_recv], which do not test the
    handle, get one inside the slot array; a batch sender gets an array of
    at least [count] values; the sizes are values of [unsigned]; a
    suspended coroutine continues with the arguments it was called with. *)
Definition in_bounds (s : segment) (w : world) : Prop :=
  match s with
  | Call (Open b _ malloc_ok _) =>
      malloc_ok = true -> b = BUS /\ channel_count (bus w) < INT_MAX
  | Call (Recv b channel) | Call (TryRecv b channel) =>
      b = BUS -> channel_count (bus w) ≠ 0 -> 0 <= channel < channel_count (bus w)
  | Call (SendV _ _ (Some src) count) | Call (TrySendV _ _ (Some src) count) =>
      0 <= count <= Z.of_nat (length src) /\ count < UINT_MOD
  | Call (RecvV _ _ _ capacity) | Call (TryRecvV _ _ _ capacity) =>
      0 <= capacity < UINT_MOD
  | Resume (KSend channel _ _) | Resume (KRecv channel _) =>
      0 <= channel < channel_count (bus w)
  | Resume (KSendV channel _ src count sent) =>
      0 <= channel < channel_count (bus w) /\ sent = 0 /\
      0 <= count <= Z.of_nat (length src) /\ count < UINT_MOD
  | Resume (KRecvV _ capacity) => 0 <= capacity < UINT_MOD
  | _ => True
  end.

(** The channels that the slots [arr] hold are live. *)
Definition live_slots (arr : list (option addr)) (w : world) : Prop :=
  forall i chan, arr !! i = Some (Some chan) -> is_Some (heap w !! chan).

(** The wait queues of a channel without the entries of [self]. *)
Definition others (self : coro) (c : coro_bus_channel) : wakeup_queue * wakeup_queue :=
  (rlist_del_entry self (send_queue c), rlist_del_entry self (recv_queue c)).

(** Two worlds whose wait queues hold the same entries of the coroutines
    other than [self], in the same order. *)
Definition others_queues (self : coro) (w w' : world) : Prop :=
  forall chan, (others self <$> heap w' !! chan) = (others self <$> heap w !! chan).

(** Every entry of a wait queue belongs to a coroutine that is suspended
    inside a call. *)
Definition queued_inv (s : system) : Prop :=
  forall chan c q t,
    heap (sys_world s) !! chan = Some c -> t ∈ queue_of q c -> is_Some (tasks s !! t).

(** Every entry of a wait queue in [w'] was in the same queue in [w]. *)
Definition no_new_entries (w w' : world) : Prop :=
  forall chan c' q t, heap w' !! chan = Some c' -> t ∈ queue_of q c' ->
    exists c, heap w !! chan = Some c /\ t ∈ queue_of q c.

(** No coroutine is waiting behind the [coro_yield] of the broadcast. *)
Definition no_yielded (s : system) : Prop :=
  forall t d, tasks s !! t ≠ Some (KBroadcastYield d).

(** A channel as a segment of [self] finds it: a call that continues
    after a suspension first takes the entry of [self] out of the wait
    queues. *)
Definition entered (self : coro) (s : segment) (c : coro_bus_channel)
  : coro_bus_channel :=
  match s with
  | Call _ => c
  | Resume _ => unlink_entry self c
  end.

(** A bus with one channel of limit 1 on which coroutine 2 has suspended
    in [coro_bus_broadcast], because the channel was full, and has been
    woken by a receive that emptied it. *)
Definition waited_broadcast : world :=
  exec (run 3%nat (Call (TryRecv BUS 0)))
    (exec (run 2%nat (Call (Broadcast BUS 7)))
       (exec (run 1%nat (Call (TrySend BUS 0 5))) (one_channel 1))).

(** * Proofs *)

(** ** The monad *)

Section respects.
Context (R : world -> world -> Prop) `{!PreOrder R}.

Lemma respects_pure {A} (a : A) : respects R (pure a).
Proof. intros w. reflexivity. Qed.

Lemma respects_undefined {A} : respects R (@undefined A).
Proof. intros w. reflexivity. Qed.

Lemma respects_get : respects R get.
Proof. intros w. reflexivity. Qed.

Lemma respects_bind {A B} (m : M A) (f : A -> M B) :
  respects R m -> (forall a, respects R (f a)) -> respects R (bind m f).
Proof.
  intros Hm Hf w. unfold bind. specialize (Hm w).
  destruct (m w) as [[a| | |] w1]; simpl in *; try done.
  etrans; [exact Hm | apply Hf].
Qed.

Lemma respects_apply {A} (m : M A) w : respects R m -> R w (m w).2.
Proof. intros H. apply H. Qed.

Lemma respects_bind_at {A B} (m : M A) (f : A -> M B) w :
  R w (m w).2 -> (forall a, respects R (f a)) -> R w (bind m f w).2.
Proof.
  intros Hm Hf. unfold bind.
  destruct (m w) as [[a| | |] w1]; simpl in *; try done.
  etrans; [exact Hm | apply Hf].
Qed.

Lemma respects_deref chan : respects R (deref chan).
Proof. intros w. unfold deref. by destruct (heap w !! chan). Qed.

Lemma respects_slot channel : respects R (slot channel).
Proof. intros w. unfold slot. by destruct (read_slot channel w). Qed.

Lemma respects_errno : respects R coro_bus_errno.
Proof. intros w. reflexivity. Qed.
End respects.

#[global] Instance same_shape_preorder : PreOrder same_shape.
Proof.
  split.
  - by intros w.
  - intros w1 w2 w3 (?&?&?) (?&?&?). unfold same_shape. split_and!; congruence.
Qed.

#[global] Instance same_queues_preorder : PreOrder same_queues.
Proof.
  split.
  - by intros w chan.
  - intros w1 w2 w3 H12 H23 chan.
    destruct (H12 chan), (H23 chan). split; congruence.
Qed.

Create HintDb respects.

(** Breaks a program of the monad into its primitive actions; what the
    actions that write do is looked up in the hint database. *)
Ltac respects_step :=
  first
    [ solve [auto 1 with respects]
    | by apply (respects_pure _) | by apply (respects_undefined _)
    | by apply (respects_get _) | by apply (respects_deref _)
    | by apply (respects_slot _) | by apply (respects_errno _)
    | assumption
    | apply (respects_bind _); [|intros ?]
    | match goal with
      | |- respects _ (match ?x with _ => _ end) => destruct x
      | |- respects _ (if ?b then _ else _) => destruct b
      end ].

Ltac respects_tac := repeat respects_step.

(** ** Relations that every segment respects *)

(** A preorder that the primitive actions respect is respected by every
    segment built from them. *)
Section segments.
Context (R : world -> world -> Prop) `{!PreOrder R} (self : coro).

Hypothesis R_errno_set : forall e, respects R (coro_bus_errno_set e).
Hypothesis R_wakeup : forall c, respects R (coro_wakeup c).
Hypothesis R_yield : forall A k, respects R (@coro_yield A self k).
Hypothesis R_append : forall chan d, respects R (channel_append chan d).
Hypothesis R_pop_first : forall chan, respects R (channel_pop_first chan).
Hypothesis R_suspend_this :
  forall A chan q k, respects R (@wakeup_queue_suspend_this A chan q self k).
Hypothesis R_resume_this : respects R (wakeup_queue_resume_this self).

#[local] Hint Resolve R_errno_set R_wakeup R_yield R_append R_pop_first
  R_suspend_this R_resume_this : respects.

Lemma R_wakeup_first chan q : respects R (wakeup_queue_wakeup_first chan q).
Proof. unfold wakeup_queue_wakeup_first. respects_tac. Qed.

#[local] Hint Resolve R_wakeup_first : respects.

Lemma R_send b channel d : respects R (coro_bus_send self b channel d).
Proof. unfold coro_bus_send. respects_tac. Qed.

Lemma R_try_send b channel d : respects R (coro_bus_try_send b channel d).
Proof. unfold coro_bus_try_send. respects_tac. Qed.

Lemma R_recv_loop channel chan : respects R (coro_bus_recv_loop self channel chan).
Proof. unfold coro_bus_recv_loop. respects_tac. Qed.

Lemma R_try_recv b channel : respects R (coro_bus_try_recv b channel).
Proof. unfold coro_bus_try_recv. respects_tac. Qed.

Lemma R_none_blocked blocked arr : respects R (none_blocked blocked arr).
Proof. induction arr as [|[chan|] arr IH]; simpl; respects_tac. Qed.

Lemma R_commit arr d : respects R (broadcast_commit arr d).
Proof. induction arr as [|[chan|] arr IH]; simpl; respects_tac. Qed.

Lemma R_park d arr i : respects R (broadcast_park self d arr i).
Proof. revert i. induction arr as [|[chan|] arr IH]; intros i; simpl; respects_tac. Qed.

Lemma R_send_v_copy chan src sent i n : respects R (send_v_copy chan src sent i n).
Proof. revert i. induction n as [|n IH]; intros i; simpl; respects_tac. Qed.

Lemma R_recv_v_copy chan n : respects R (recv_v_copy chan n).
Proof. induction n as [|n IH]; simpl; respects_tac. Qed.

#[local] Hint Resolve R_send R_try_send R_recv_loop R_try_recv R_none_blocked
  R_commit R_park R_send_v_copy R_recv_v_copy : respects.

Lemma R_broadcast b d : respects R (coro_bus_broadcast self b d).
Proof. unfold coro_bus_broadcast. respects_tac. Qed.

Lemma R_try_broadcast b d : respects R (coro_bus_try_broadcast b d).
Proof. unfold coro_bus_try_broadcast. respects_tac. Qed.

Lemma R_send_v_turn channel chan src count sent :
  respects R (coro_bus_send_v_turn self channel chan src count sent).
Proof. unfold coro_bus_send_v_turn. respects_tac. Qed.

Lemma R_try_send_v b channel src count :
  respects R (coro_bus_try_send_v b channel src count).
Proof. unfold coro_bus_try_send_v. respects_tac. Qed.

Lemma R_try_recv_v b channel data_nonnull capacity :
  respects R (coro_bus_try_recv_v b channel data_nonnull capacity).
Proof. unfold coro_bus_try_recv_v. respects_tac. Qed.

#[local] Hint Resolve R_broadcast R_try_broadcast R_send_v_turn R_try_send_v
  R_try_recv_v : respects.

Lemma R_recv_v_turn channel data_nonnull capacity :
  respects R (coro_bus_recv_v_turn self channel data_nonnull capacity).
Proof. unfold coro_bus_recv_v_turn. respects_tac. Qed.

#[local] Hint Resolve R_recv_v_turn : respects.

(** Every continuation of a suspended call. *)
Lemma R_run_resume k : respects R (run_resume self k).
Proof.
  destruct k; simpl;
    unfold coro_bus_send_resume, coro_bus_recv_resume, coro_bus_broadcast_resume,
      coro_bus_send_v_resume, coro_bus_recv_v_resume; respects_tac.
Qed.

(** Every call but open and close. *)
Lemma R_run_call c :
  match c with Open _ _ _ _ | Close _ _ => True | _ => respects R (run_call self c) end.
Proof.
  destruct c; simpl; try done;
    unfold coro_bus_recv, coro_bus_send_v, coro_bus_recv_v; respects_tac.
Qed.

(** Open and close, for a relation that the allocator and the slot
    array respect as well. *)
Hypothesis R_malloc : forall c, respects R (malloc_channel c).
Hypothesis R_free : forall chan, respects R (free_channel chan).
Hypothesis R_set_channels : forall arr, respects R (set_channels arr).

#[local] Hint Resolve R_malloc R_free R_set_channels : respects.

Lemma R_close_drain q : respects R (close_drain q).
Proof. induction q as [|c q IH]; simpl; respects_tac. Qed.

#[local] Hint Resolve R_close_drain : respects.


Lemma R_close b channel : respects R (coro_bus_channel_close b channel).
Proof.
  intros w. unfold coro_bus_channel_close.
  destruct (check_channel b channel w) as [chan|]; [|reflexivity].
  generalize (<[Z.to_nat channel := None]> (default [] (channels (bus w)))).
  intros arr. apply (respects_apply _). respects_tac.
Qed.

End segments.

(** ** Shape: the bus, the allocator and the set of live channels *)

Lemma shape_errno_set e : respects same_shape (coro_bus_errno_set e).
Proof. by intros w. Qed.

Lemma shape_wakeup c : respects same_shape (coro_wakeup c).
Proof. by intros w. Qed.

Lemma shape_yield {A} self k : respects same_shape (@coro_yield A self k).
Proof. by intros w. Qed.

Lemma dom_store (h : gmap addr coro_bus_channel) chan c c' :
  h !! chan = Some c -> dom (<[chan := c']> h) = dom h.
Proof. intros H. apply dom_insert_lookup_L. by rewrite H. Qed.

Lemma shape_append chan d : respects same_shape (channel_append chan d).
Proof.
  intros w. unfold channel_append, bind, deref, store, modify.
  destruct (heap w !! chan) eqn:E; simpl; [|done].
  split_and!; [done..|]. by eapply dom_store.
Qed.

Lemma shape_pop_first chan : respects same_shape (channel_pop_first chan).
Proof.
  intros w. unfold channel_pop_first, bind, deref, store, modify, pure, undefined.
  destruct (heap w !! chan) eqn:E; simpl; [|done].
  destruct (data_vector_pop_first _) as [[d v]|]; simpl; [|done].
  split_and!; [done..|]. by eapply dom_store.
Qed.

Lemma shape_suspend_this {A} chan q self k :
  respects same_shape (@wakeup_queue_suspend_this A chan q self k).
Proof.
  intros w. unfold wakeup_queue_suspend_this, bind, deref, store, modify, coro_suspend.
  destruct (heap w !! chan) eqn:E; simpl; [|done].
  split_and!; [done..|]. by eapply dom_store.
Qed.

Lemma shape_resume_this self : respects same_shape (wakeup_queue_resume_this self).
Proof. intros w. split_and!; [done..|]. simpl. apply dom_fmap_L. Qed.

Lemma shape_run_resume self k : respects same_shape (run_resume self k).
Proof.
  apply (R_run_resume _ self);
    auto using shape_errno_set, shape_wakeup, shape_yield, shape_append,
      shape_pop_first, shape_suspend_this, shape_resume_this.
Qed.

Lemma shape_run_call self c :
  match c with
  | Open _ _ _ _ | Close _ _ => True
  | _ => respects same_shape (run_call self c)
  end.
Proof.
  apply (R_run_call _ self);
    auto using shape_errno_set, shape_wakeup, shape_yield, shape_append,
      shape_pop_first, shape_suspend_this, shape_resume_this.
Qed.

Lemma shape_close_drain q : respects same_shape (close_drain q).
Proof. induction q as [|c q IH]; simpl; respects_tac; by intros ?. Qed.

(** ** Well-formed worlds *)

Lemma world_wf_shape w w' : same_shape w w' -> world_wf w -> world_wf w'.
Proof.
  intros (Hb & Hn & Hd) [H1 H2 H3]. unfold slots in *.
  split; unfold slots; rewrite ?Hb, ?Hd; eauto.
  apply not_elem_of_dom. rewrite Hd, Hn. by apply not_elem_of_dom.
Qed.

Lemma world_wf_new : world_wf coro_bus_new.
Proof. split; simpl; intros *; done. Qed.

Lemma slot_not_next w i chan :
  world_wf w -> slots w !! i = Some (Some chan) -> chan ≠ next_addr w.
Proof.
  intros [H1 _ H3] H ->. apply H1, elem_of_dom in H as [c Hc]. congruence.
Qed.

(** [coro_bus_channel_open] leaves the heap as it was or with the new
    channel in the block that [malloc] handed out. *)
Lemma open_heap b limit malloc_ok realloc_ok w :
  world_wf w ->
  heap (coro_bus_channel_open b limit malloc_ok realloc_ok w).2 = heap w \/
  heap (coro_bus_channel_open b limit malloc_ok realloc_ok w).2
    = <[next_addr w := new_channel limit]> (heap w).
Proof.
  intros [_ _ Hfresh]. unfold coro_bus_channel_open.
  destruct malloc_ok; simpl; [|by left].
  unfold bind at 1. simpl. destruct b; [by right|].
  unfold bind, get, set_channels, modify, pure, undefined, free_channel,
    coro_bus_errno_set; simpl.
  destruct (match channels (bus w) with
            | Some arr => first_free_slot arr 0
            | None => None
            end); simpl; [by right|].
  destruct (_ =? INT_MAX); simpl; [by right|].
  destruct realloc_ok; simpl; [by right|]. left.
  by rewrite delete_insert_id.
Qed.

Lemma open_keeps_live b limit malloc_ok realloc_ok w chan c :
  world_wf w -> heap w !! chan = Some c ->
  heap (coro_bus_channel_open b limit malloc_ok realloc_ok w).2 !! chan = Some c.
Proof.
  intros Hwf Hc.
  destruct (open_heap b limit malloc_ok realloc_ok w Hwf) as [-> | ->]; [done|].
  rewrite lookup_insert_ne; [done|]. intros <-. destruct Hwf as [_ _ H]. congruence.
Qed.

Lemma first_free_slot_Some arr k i :
  first_free_slot arr k = Some i ->
  k <= i /\ arr !! Z.to_nat (i - k) = Some None /\
  forall j, (j < Z.to_nat (i - k))%nat -> exists chan, arr !! j = Some (Some chan).
Proof.
  revert k. induction arr as [|[chan|] arr IH]; intros k H; simpl in H; [done| |].
  - apply IH in H as (Hk & Hi & Hj).
    replace (Z.to_nat (i - k)) with (S (Z.to_nat (i - (k + 1)))) by lia.
    split_and!; [lia|done|]. intros [|j] Hlt; simpl; [eauto|]. apply Hj. lia.
  - simplify_eq. rewrite Z.sub_diag. split_and!; [lia|done|]. intros j Hj. simpl in Hj. lia.
Qed.

Lemma first_free_slot_None arr k :
  first_free_slot arr k = None -> forall j, arr !! j ≠ Some None.
Proof.
  revert k. induction arr as [|[chan|] arr IH]; intros k H j; simpl in H; [done| |done].
  destruct j as [|j]; simpl; [done|]. by eapply IH.
Qed.

Lemma world_wf_open b limit malloc_ok realloc_ok w :
  world_wf w -> world_wf (coro_bus_channel_open b limit malloc_ok realloc_ok w).2.
Proof.
  intros Hwf. unfold coro_bus_channel_open.
  destruct malloc_ok; simpl; [|done].
  set (c := new_channel limit).
  assert (Hmalloc : world_wf (malloc_channel c w).2).
  { destruct Hwf as [H1 H2 H3]. split; simpl.
    - intros i chan Hi. rewrite dom_insert_L. apply H1 in Hi. set_solver.
    - done.
    - apply not_elem_of_dom, is_fresh. }
  unfold bind at 1. simpl. destruct b; [done|].
  unfold bind, get, set_channels, modify, pure, undefined; simpl.
  destruct (channels (bus w)) as [arr|] eqn:Harr; simpl.
  - destruct (first_free_slot arr 0) as [i|] eqn:Hfree; simpl.
    + apply first_free_slot_Some in Hfree as (Hi0 & Hi & _).
      rewrite Z.sub_0_r in Hi.
      destruct Hmalloc as [H1 H2 H3]. unfold slots in *. simpl in *.
      rewrite Harr in *. simpl in *.
      split; unfold slots; simpl.
      * intros j chan Hj. destruct (decide (j = Z.to_nat i)) as [->|Hne].
        -- rewrite list_lookup_insert_eq in Hj by (by eapply lookup_lt_Some).
           simplify_eq. rewrite dom_insert_L. set_solver.
        -- rewrite list_lookup_insert_ne in Hj by done. eauto.
      * assert (Hnot : forall j, arr !! j ≠ Some (Some (next_addr w))).
        { intros j Hj. pose proof (slot_not_next w j (next_addr w) Hwf) as Hlt.
          unfold slots in Hlt. rewrite Harr in Hlt. by specialize (Hlt Hj). }
        intros j1 j2 chan Hj1 Hj2.
        destruct (decide (j1 = Z.to_nat i)) as [->|Hne1];
          destruct (decide (j2 = Z.to_nat i)) as [->|Hne2]; [done| | |].
        -- rewrite list_lookup_insert_eq in Hj1 by (by eapply lookup_lt_Some).
           rewrite list_lookup_insert_ne in Hj2 by done. simplify_eq. by apply Hnot in Hj2.
        -- rewrite list_lookup_insert_eq in Hj2 by (by eapply lookup_lt_Some).
           rewrite list_lookup_insert_ne in Hj1 by done. simplify_eq. by apply Hnot in Hj1.
        -- rewrite list_lookup_insert_ne in Hj1, Hj2 by done. eauto.
      * done.
    + unfold channel_count. simpl. rewrite Harr.
      destruct (_ =? INT_MAX); simpl; [done|].
      destruct realloc_ok; simpl.
      * destruct Hmalloc as [H1 H2 H3]. unfold slots in *. simpl in *.
        rewrite Harr in *. simpl in *.
        assert (Hnot : forall j, arr !! j ≠ Some (Some (next_addr w))).
        { intros j Hj. pose proof (slot_not_next w j (next_addr w) Hwf) as Hlt.
          unfold slots in Hlt. rewrite Harr in Hlt. by specialize (Hlt Hj). }
        split; unfold slots; simpl; [| |done].
        -- intros j chan Hj. apply lookup_app_Some in Hj as [Hj|[_ Hj]]; [eauto|].
           apply list_lookup_singleton_Some in Hj as [_ Hj]. simplify_eq.
           rewrite dom_insert_L. set_solver.
        -- intros j1 j2 chan Hj1 Hj2.
           apply lookup_app_Some in Hj1 as [Hj1|[Hl1 Hj1]];
             apply lookup_app_Some in Hj2 as [Hj2|[Hl2 Hj2]]; [eauto| | |].
           ++ apply list_lookup_singleton_Some in Hj2 as [_ Hj2]. simplify_eq.
              by apply Hnot in Hj1.
           ++ apply list_lookup_singleton_Some in Hj1 as [_ Hj1]. simplify_eq.
              by apply Hnot in Hj2.
           ++ apply list_lookup_singleton_Some in Hj1 as [Hj1 _].
              apply list_lookup_singleton_Some in Hj2 as [Hj2 _]. lia.
      * destruct Hmalloc as [H1 H2 H3]. unfold slots in *. simpl in *.
        split; unfold slots; simpl.
        -- intros j chan Hj. rewrite dom_delete_L, dom_insert_L.
           pose proof (slot_not_next w j chan Hwf Hj) as Hlt.
           destruct Hwf as [G1 _ _]. apply G1 in Hj.
           apply elem_of_difference. split; [apply elem_of_union; by right|].
           by intros Heq%elem_of_singleton.
        -- done.
        -- apply lookup_delete_eq.
  - unfold channel_count. simpl. rewrite Harr. simpl.
    destruct realloc_ok; simpl.
    + destruct Hmalloc as [H1 H2 H3]. unfold slots in *. simpl in *.
      rewrite Harr in *. simpl in *.
      split; unfold slots; simpl; [| |done].
      * intros [|j] chan Hj; simpl in Hj; [|done]. simplify_eq.
        rewrite dom_insert_L. set_solver.
      * intros [|j1] [|j2] chan Hj1 Hj2; simpl in *; done.
    + destruct Hmalloc as [H1 H2 H3]. unfold slots in *. simpl in *.
      rewrite Harr in *. simpl in *.
      split; unfold slots; simpl; rewrite ?Harr; simpl; [done..|].
      apply lookup_delete_eq.
Qed.

Lemma check_channel_Some b channel w chan :
  check_channel b channel w = Some chan ->
  b = BUS /\ exists arr,
    channels (bus w) = Some arr /\ 0 <= channel < Z.of_nat (length arr) /\
    arr !! Z.to_nat channel = Some (Some chan).
Proof.
  unfold check_channel, channel_count. destruct b; [done|].
  destruct (channels (bus w)) as [arr|]; [|done].
  destruct (channel <? 0) eqn:E1; [done|].
  destruct (channel >=? _) eqn:E2; [done|]. simpl.
  destruct (arr !! Z.to_nat channel) as [[c|]|] eqn:E3; intros; simplify_eq.
  split; [done|]. exists arr. split_and!; [done|lia|lia|done].
Qed.

Lemma check_channel_read_slot b channel w chan :
  check_channel b channel w = Some chan -> read_slot channel w = Some (Some chan).
Proof.
  intros (_ & arr & Harr & Hr & Hl)%check_channel_Some.
  unfold read_slot. rewrite Harr.
  destruct (channel <? 0) eqn:E; [lia|done].
Qed.

Lemma close_drain_Done q w : exists w', close_drain q w = (Done tt, w').
Proof.
  revert w. induction q as [|c q IH]; intros w; simpl; [by eexists|].
  unfold bind at 1 2. simpl. apply IH.
Qed.

Lemma world_wf_close b channel w :
  world_wf w -> world_wf (coro_bus_channel_close b channel w).2.
Proof.
  intros Hwf. unfold coro_bus_channel_close.
  destruct (check_channel b channel w) as [chan|] eqn:Hcheck; [|done].
  apply check_channel_Some in Hcheck as (-> & arr & Harr & Hr & Hl).
  unfold bind at 1. unfold deref.
  destruct (heap w !! chan) as [c|] eqn:Hc; [|done].
  unfold bind at 1.
  pose proof (shape_close_drain (recv_queue c) w) as S1.
  destruct (close_drain_Done (recv_queue c) w) as [w1 E1]. rewrite E1 in *.
  unfold bind at 1.
  pose proof (shape_close_drain (send_queue c) w1) as S2.
  destruct (close_drain_Done (send_queue c) w1) as [w2 E2]. rewrite E2 in *.
  simpl in S1, S2. destruct S1 as (B1 & N1 & D1), S2 as (B2 & N2 & D2).
  rewrite Harr. simpl.
  destruct Hwf as [H1 H2 H3]. unfold slots in *. rewrite Harr in *. simpl in *.
  split; unfold slots; simpl.
  - intros j chan' Hj.
    destruct (decide (j = Z.to_nat channel)) as [->|Hne].
    + rewrite list_lookup_insert_eq in Hj; [done|]. by eapply lookup_lt_Some.
    + rewrite list_lookup_insert_ne in Hj by done.
      rewrite dom_delete_L, D2, D1. apply elem_of_difference. split; [eauto|].
      intros ->%elem_of_singleton. apply Hne. eauto.
  - intros j1 j2 chan' Hj1 Hj2.
    destruct (decide (j1 = Z.to_nat channel)) as [->|Hne1].
    { rewrite list_lookup_insert_eq in Hj1; [done|]. by eapply lookup_lt_Some. }
    destruct (decide (j2 = Z.to_nat channel)) as [->|Hne2].
    { rewrite list_lookup_insert_eq in Hj2; [done|]. by eapply lookup_lt_Some. }
    rewrite list_lookup_insert_ne in Hj1, Hj2 by done. eauto.
  - apply lookup_delete_eq.
Qed.

(** The allocator may hand out any block that is not in use. *)
Lemma world_wf_alloc a w :
  world_wf w -> heap w !! a = None -> world_wf (set_next_addr a w).
Proof. intros [H1 H2 H3] Ha. by split. Qed.

Lemma world_wf_run_call self c w : world_wf w -> world_wf (run_call self c w).2.
Proof.
  intros Hwf. pose proof (shape_run_call self c) as Hs.
  destruct c; try (eapply world_wf_shape; [apply Hs|done]).
  - by apply world_wf_open.
  - by apply world_wf_close.
Qed.

Lemma world_wf_run_resume self k w : world_wf w -> world_wf (run_resume self k w).2.
Proof. intros Hwf. eapply world_wf_shape; [apply shape_run_resume|done]. Qed.

Lemma world_wf_run self seg w : world_wf w -> world_wf (run self seg w).2.
Proof.
  destruct seg; simpl; auto using world_wf_run_call, world_wf_run_resume.
Qed.

Lemma world_wf_step s s' : any_step s s' -> world_wf (sys_world s) -> world_wf (sys_world s').
Proof.
  intros (self & seg & [c w ts a o w' _ Ha Hrun _|k w ts o w' _ _ Hrun _]) Hwf;
    simpl in *.
  - pose proof (world_wf_run_call self c (set_next_addr a w)) as H.
    rewrite Hrun in H. apply H. by apply world_wf_alloc.
  - pose proof (world_wf_run_resume self k (set_runnable (runnable w ∖ {[self]}) w)) as H.
    rewrite Hrun in H. apply H. by eapply world_wf_shape; [|exact Hwf].
Qed.

Lemma world_wf_steps s s' :
  rtc any_step s s' -> world_wf (sys_world s) -> world_wf (sys_world s').
Proof. induction 1; eauto using world_wf_step. Qed.

Lemma reachable_wf s : reachable s -> world_wf (sys_world s).
Proof. intros H. apply world_wf_steps in H; [done|]. apply world_wf_new. Qed.

(** ** What the primitive actions compute *)

Lemma bind_Done {A B} (m : M A) (f : A -> M B) w a w1 :
  m w = (Done a, w1) -> bind m f w = f a w1.
Proof. intros H. unfold bind. by rewrite H. Qed.

Lemma bind_get {B} (f : world -> M B) w : bind get f w = f w w.
Proof. done. Qed.

Lemma data_size_append vector d :
  data_size (data_vector_append vector d) = data_size vector + 1.
Proof.
  unfold data_size, data_vector_append, data_vector_append_many. simpl.
  rewrite length_app. simpl. lia.
Qed.

Lemma data_append vector d : data (data_vector_append vector d) = data vector ++ [d].
Proof. done. Qed.

Lemma data_append_all vector vals :
  data (foldl data_vector_append vector vals) = data vector ++ vals.
Proof.
  revert vector. induction vals as [|d vals IH]; intros vector; simpl.
  - by rewrite app_nil_r.
  - rewrite IH, data_append, <- app_assoc. done.
Qed.

Lemma data_size_nonneg vector : 0 <= data_size vector.
Proof. unfold data_size. lia. Qed.

Lemma data_vector_pop_first_Some vector d vector' :
  data_vector_pop_first vector = Some (d, vector') ->
  data vector = d :: data vector' /\ capacity vector' = capacity vector.
Proof.
  unfold data_vector_pop_first, data_vector_pop_first_many, data_size.
  destruct (1 <=? _) eqn:E; [|done]. intros [= <- <-].
  change (Z.to_nat 1) with 1%nat.
  destruct (data vector) as [|x l]; simpl in *; [done|]. by rewrite drop_0.
Qed.

Lemma data_vector_pop_first_cons vector d l :
  data vector = d :: l ->
  data_vector_pop_first vector = Some (d, DataVector l (capacity vector)).
Proof.
  intros H. unfold data_vector_pop_first, data_vector_pop_first_many, data_size.
  rewrite H. change (Z.to_nat 1) with 1%nat.
  destruct (1 <=? _) eqn:E; [simpl; by rewrite ?drop_0|].
  apply Z.leb_gt in E. simpl in E. lia.
Qed.

Lemma deref_eq chan c w : heap w !! chan = Some c -> deref chan w = (Done c, w).
Proof. intros H. unfold deref. by rewrite H. Qed.

Lemma channel_append_eq chan c d w :
  heap w !! chan = Some c ->
  channel_append chan d w =
    (Done tt,
     set_heap (<[chan := set_chan_data (data_vector_append (chan_data c) d) c]> (heap w)) w).
Proof. intros H. unfold channel_append, bind. by rewrite (deref_eq _ c). Qed.

Lemma wakeup_first_eq chan c q w :
  heap w !! chan = Some c ->
  wakeup_queue_wakeup_first chan q w =
    (Done tt, set_runnable (wake_first (queue_of q c) (runnable w)) w).
Proof.
  intros H. unfold wakeup_queue_wakeup_first, bind. rewrite (deref_eq _ c) by done.
  unfold wake_first. destruct (queue_of q c); [|done].
  unfold pure, set_runnable. by destruct w.
Qed.

Lemma channel_pop_first_eq chan c d l w :
  heap w !! chan = Some c ->
  data (chan_data c) = d :: l ->
  channel_pop_first chan w =
    (Done d,
     set_heap (<[chan := set_chan_data (DataVector l (capacity (chan_data c))) c]> (heap w)) w).
Proof.
  intros H Hd. unfold channel_pop_first, bind. rewrite (deref_eq _ c) by done.
  by rewrite (data_vector_pop_first_cons _ d l).
Qed.

Lemma suspend_this_eq {A} chan c q self k w :
  heap w !! chan = Some c ->
  @wakeup_queue_suspend_this A chan q self k w =
    (Parked k,
     set_runnable (runnable w ∖ {[self]})
       (set_heap
          (<[chan := set_queue q (rlist_add_tail_entry (queue_of q c) self) c]> (heap w))
          w)).
Proof. intros H. unfold wakeup_queue_suspend_this, bind. by rewrite (deref_eq _ c). Qed.

Lemma wake_first_idemp q r : wake_first q (wake_first q r) = wake_first q r.
Proof. destruct q; simpl; [done|]. by rewrite (assoc_L (∪)), union_idemp_L. Qed.

(** The [for] loop of the batch senders, started at [sent = 0] on a live
    channel with enough values in the caller's array: the values go behind
    the queue in order and the oldest receiver is woken. *)
Lemma send_v_copy_eq n : forall chan src i c w,
  heap w !! chan = Some c ->
  0 <= i -> i + Z.of_nat n <= Z.of_nat (length src) -> i + Z.of_nat n <= UINT_MOD ->
  send_v_copy chan src 0 i n w =
    (Done tt,
     World (bus w)
       (<[chan := set_chan_data
                    (foldl data_vector_append (chan_data c)
                       (take n (drop (Z.to_nat i) src))) c]> (heap w))
       (next_addr w) (global_error w)
       (match n with O => runnable w | S _ => wake_first (recv_queue c) (runnable w) end)).
Proof.
  induction n as [|n IH]; intros chan src i c w Hc Hi Hlen Hmod.
  - simpl. unfold pure, set_chan_data. f_equal. destruct w, c as [? ? ? []]; simpl in *.
    f_equal. by rewrite insert_id.
  - simpl. unfold to_unsigned. rewrite Z.add_0_l, Z.mod_small by lia.
    destruct (src !! Z.to_nat i) as [d|] eqn:Hd.
    2:{ apply lookup_ge_None in Hd. lia. }
    unfold bind at 1. rewrite (channel_append_eq _ c) by done.
    unfold bind at 1.
    rewrite (wakeup_first_eq _ (set_chan_data (data_vector_append (chan_data c) d) c))
      by (simpl; apply lookup_insert_eq).
    rewrite (IH _ _ _ (set_chan_data (data_vector_append (chan_data c) d) c));
      [|simpl; apply lookup_insert_eq|lia..].
    simpl. f_equal. f_equal.
    + rewrite insert_insert_eq. f_equal. unfold set_chan_data. simpl. f_equal.
      rewrite (drop_S _ d _ Hd). simpl. f_equal.
      f_equal. f_equal. lia.
    + destruct n; [done|]. apply wake_first_idemp.
Qed.

(** ** Scenarios *)

(** A channel of limit 2: two sends return at once, a third would block;
    a receive returns the first value and makes room for the third; the
    values then come out in the order they went in, and the empty channel
    would block. *)
Example scenario_limit_two :
  let calls :=
    [Open BUS 2 true true; Send BUS 0 10; Send BUS 0 20; TrySend BUS 0 30;
     Recv BUS 0; TrySend BUS 0 30; TryRecv BUS 0; TryRecv BUS 0; TryRecv BUS 0] in
  let r := run_calls 1%nat calls coro_bus_new in
  r.1 = Done [RetInt 0 []; RetInt 0 []; RetInt 0 []; RetFail;
              RetInt 0 [10]; RetInt 0 []; RetInt 0 [20]; RetInt 0 [30]; RetFail] /\
  global_error r.2 = CORO_BUS_ERR_WOULD_BLOCK.
Proof. vm_compute. split; reflexivity. Qed.

(** Coroutines 1 and 2 suspend, in this order, in a receive on an empty
    channel; coroutine 3 sends one value.  Only coroutine 1 is woken; when
    it continues it receives the value, and coroutine 2 is still in the
    wait queue. *)
Example scenario_oldest_receiver_first :
  let w1 := exec (coro_bus_recv 1%nat BUS 0) (one_channel 1) in
  let w2 := exec (coro_bus_recv 2%nat BUS 0) w1 in
  let w3 := exec (coro_bus_send 3%nat BUS 0 42) w2 in
  let r := run 1%nat (Resume (KRecv 0 0%nat)) w3 in
  (coro_bus_recv 1%nat BUS 0 (one_channel 1)).1 = Parked (KRecv 0 0%nat) /\
  (coro_bus_recv 2%nat BUS 0 w1).1 = Parked (KRecv 0 0%nat) /\
  (recv_queue <$> heap w2 !! 0%nat) = Some [1%nat; 2%nat] /\
  elements (runnable w3) = [1%nat] /\
  r.1 = Done (RetInt 0 [42]) /\
  (recv_queue <$> heap r.2 !! 0%nat) = Some [2%nat].
Proof. vm_compute. split_and!; reflexivity. Qed.

(** ** Handles that name no channel *)

Lemma check_channel_bad b channel w :
  bad_handle channel w -> check_channel b channel w = None.
Proof.
  unfold bad_handle, check_channel, read_slot, channel_count. intros H.
  destruct b; [done|]. destruct (channels (bus w)) as [arr|]; [|done].
  destruct (channel <? 0) eqn:E1; [done|].
  destruct (channel >=? _) eqn:E2; [done|]. simpl.
  destruct H as [H|[H|H]]; [lia|lia|]. by rewrite H.
Qed.

(** C10: [coro_bus_channel_close] with a NULL bus, a negative index, an
    index past the slot array or an empty slot returns at once: the world,
    [global_error] included, is what it was. *)
Theorem close_invalid_handle_noop b channel w :
  b = NULL \/ bad_handle channel w ->
  coro_bus_channel_close b channel w = (Done RetVoid, w).
Proof.
  intros H. unfold coro_bus_channel_close.
  assert (check_channel b channel w = None) as ->; [|done].
  destruct H as [->|H]; [done|]. by apply check_channel_bad.
Qed.

Lemma close_invalid_handle_noop_witness :
  coro_bus_channel_close BUS 1 (one_channel 2) = (Done RetVoid, one_channel 2).
Proof.
  apply close_invalid_handle_noop. right. right. left. vm_compute. discriminate.
Defined.

(** The functions that compare the handle with the bounds of the slot
    array fail with [CORO_BUS_ERR_NO_CHANNEL] on a handle that names no
    channel, and change nothing else. *)
Lemma bad_handle_checked self c channel w :
  match c with
  | Send BUS ch _ | TrySend BUS ch _ | SendV BUS ch _ _ | TrySendV BUS ch _ _
  | RecvV BUS ch _ _ | TryRecvV BUS ch _ _ => ch = channel
  | _ => False
  end ->
  bad_handle channel w ->
  run_call self c w = (Done RetFail, with_error CORO_BUS_ERR_NO_CHANNEL w).
Proof.
  intros Hc Hbad. apply (check_channel_bad BUS) in Hbad.
  destruct c as [| |[] ? ?|[] ? ?| | | | |[] ? ? ?|[] ? ? ?|[] ? ? ?|[] ? ? ?];
    try done; subst; simpl;
    unfold coro_bus_send, coro_bus_try_send, coro_bus_send_v, coro_bus_try_send_v,
      coro_bus_recv_v, coro_bus_try_recv_v, bind, get; simpl; by rewrite Hbad.
Qed.

(** [coro_bus_recv] and [coro_bus_try_recv] fail the same way on an empty
    slot inside the array. *)
Lemma empty_slot_recv self channel w :
  read_slot channel w = Some None ->
  coro_bus_recv self BUS channel w = (Done RetFail, with_error CORO_BUS_ERR_NO_CHANNEL w) /\
  coro_bus_try_recv BUS channel w = (Done RetFail, with_error CORO_BUS_ERR_NO_CHANNEL w).
Proof.
  intros H. unfold coro_bus_recv, coro_bus_try_recv, bind, get, check_channel_recv. simpl.
  assert (Hr := H). unfold read_slot in H.
  destruct (channels (bus w)); [|done]. rewrite Hr.
  by destruct (channel_count (bus w) =? 0).
Qed.

(** C5: on a bus with one channel, [coro_bus_recv] and [coro_bus_try_recv]
    with a handle past the array or below zero read [bus->channels[channel]]
    outside the array: the behaviour is undefined, where the other
    functions fail with [CORO_BUS_ERR_NO_CHANNEL]. *)
Theorem recv_out_of_range_undefined :
  bad_handle 1 (one_channel 2) /\ bad_handle (-1) (one_channel 2) /\
  coro_bus_recv 7%nat BUS 1 (one_channel 2) = (Undefined, one_channel 2) /\
  coro_bus_try_recv BUS 1 (one_channel 2) = (Undefined, one_channel 2) /\
  coro_bus_recv 7%nat BUS (-1) (one_channel 2) = (Undefined, one_channel 2) /\
  coro_bus_try_recv BUS (-1) (one_channel 2) = (Undefined, one_channel 2) /\
  coro_bus_try_send BUS 1 0 (one_channel 2)
    = (Done RetFail, with_error CORO_BUS_ERR_NO_CHANNEL (one_channel 2)).
Proof.
  split_and!; try (vm_compute; reflexivity).
  - right. left. vm_compute. discriminate.
  - left. lia.
Qed.

(** ** Opening a channel *)

Lemma first_free_slot_first arr k i :
  first_free arr i -> first_free_slot arr k = Some (k + Z.of_nat i).
Proof.
  revert k i. induction arr as [|[chan|] arr IH]; intros k i [Hi Hj]; simpl.
  - done.
  - destruct i as [|i]; [done|]. simpl in Hi.
    rewrite (IH (k + 1) i); [f_equal; lia|].
    split; [done|]. intros j Hlt. apply (Hj (S j)). lia.
  - destruct i as [|i]; [f_equal; lia|]. exfalso. apply (Hj 0%nat); [lia|done].
Qed.

Lemma first_free_slot_full arr k :
  (forall j, arr !! j ≠ Some None) -> first_free_slot arr k = None.
Proof.
  revert k. induction arr as [|[chan|] arr IH]; intros k H; simpl; [done| |].
  - apply IH. intros j. apply (H (S j)).
  - by destruct (H 0%nat).
Qed.

(** C6, the failure of the claim: when the slot array cannot grow,
    [coro_bus_channel_open] returns -1 with [CORO_BUS_ERR_NO_CHANNEL], not
    with an allocation error. *)
Lemma open_realloc_failure_is_no_channel :
  let r := coro_bus_channel_open BUS 3 true false coro_bus_new in
  r.1 = Done RetFail /\
  global_error r.2 = CORO_BUS_ERR_NO_CHANNEL /\
  global_error r.2 ≠ CORO_BUS_ERR_ALLOCATION.
Proof. vm_compute. split_and!; [reflexivity|reflexivity|discriminate]. Qed.

(** C6, amended: [coro_bus_channel_open] puts the new channel in the first
    free slot if there is one and returns its index; otherwise (with fewer
    than [INT_MAX] slots) it grows the array by one slot and returns the
    index of that slot; when growing the array fails it returns -1 with
    [CORO_BUS_ERR_NO_CHANNEL] and leaves the bus as it was. *)
Theorem open_channel_slots limit realloc_ok w :
  let r := coro_bus_channel_open BUS limit true realloc_ok w in
  let channel := next_addr w in
  (forall i, first_free (slots w) i ->
     r.1 = Done (RetInt (Z.of_nat i) []) /\
     slots r.2 = <[i := Some channel]> (slots w) /\
     heap r.2 !! channel = Some (new_channel limit)) /\
  ((forall j, slots w !! j ≠ Some None) ->
   channel_count (bus w) < INT_MAX ->
   if realloc_ok then
     r.1 = Done (RetInt (channel_count (bus w)) []) /\
     slots r.2 = slots w ++ [Some channel] /\
     heap r.2 !! channel = Some (new_channel limit)
   else
     r.1 = Done RetFail /\
     global_error r.2 = CORO_BUS_ERR_NO_CHANNEL /\
     bus r.2 = bus w).
Proof.
  unfold coro_bus_channel_open, slots, channel_count. simpl.
  unfold bind, malloc_channel, get, set_channels, modify, pure, undefined,
    free_channel, coro_bus_errno_set. simpl.
  split.
  - intros i Hfree. destruct (channels (bus w)) as [arr|] eqn:Harr; simpl in *.
    + rewrite (first_free_slot_first arr 0 i Hfree). simpl.
      rewrite Z.add_0_l, Nat2Z.id. split_and!; [done..|]. apply lookup_insert_eq.
    + by destruct Hfree.
  - intros Hfull Hcount. destruct (channels (bus w)) as [arr|] eqn:Harr; simpl in *.
    + rewrite (first_free_slot_full arr 0 Hfull).
      destruct (Z.of_nat (length arr) =? INT_MAX) eqn:E; [lia|].
      destruct realloc_ok; simpl; split_and!;
        first [done | apply lookup_insert_eq | by destruct (bus w); simplify_eq/=].
    + destruct realloc_ok; simpl; split_and!;
        first [done | apply lookup_insert_eq | by destruct (bus w); simplify_eq/=].
Qed.

Lemma open_channel_slots_witness :
  let r := coro_bus_channel_open BUS 5 true true
             (exec (coro_bus_channel_close BUS 0) (one_channel 2)) in
  r.1 = Done (RetInt 0 []) /\ slots r.2 = [Some 0%nat].
Proof.
  destruct (open_channel_slots 5 true
              (exec (coro_bus_channel_close BUS 0) (one_channel 2))) as [H _].
  destruct (H 0%nat) as (H1 & H2 & _).
  - split; [reflexivity|]. intros j Hj. lia.
  - split; [exact H1|exact H2].
Defined.

(** ** Batch send *)

Lemma room_in_range z : 0 <= z < UINT_MOD -> to_unsigned (to_size_t z) = z.
Proof.
  intros H. unfold to_unsigned, to_size_t, UINT_MOD, SIZE_MOD in *.
  rewrite (Z.mod_small z (2 ^ 64)) by lia. apply Z.mod_small. lia.
Qed.

Lemma to_unsigned_small z : 0 <= z < UINT_MOD -> to_unsigned z = z.
Proof. intros H. unfold to_unsigned. by apply Z.mod_small. Qed.

Lemma to_int_in_range z : 0 <= z <= INT_MAX -> to_int z = z.
Proof. intros H. unfold to_int. destruct (z <=? INT_MAX) eqn:E; [done|lia]. Qed.

(** [coro_bus_try_send_v] on a channel whose free room fits an [unsigned]:
    no room is [CORO_BUS_ERR_WOULD_BLOCK] with nothing else changed;
    otherwise the first [min count room] values are appended and their
    number is returned. *)
Lemma try_send_v_in_range w channel chan c src count :
  let room := size_limit c - data_size (chan_data c) in
  check_channel BUS channel w = Some chan ->
  heap w !! chan = Some c ->
  0 <= room < UINT_MOD ->
  0 <= count <= INT_MAX ->
  count <= Z.of_nat (length src) ->
  if room =? 0 then
    coro_bus_try_send_v BUS channel (Some src) count w
      = (Done RetFail, with_error CORO_BUS_ERR_WOULD_BLOCK w)
  else
    exists w' c',
      coro_bus_try_send_v BUS channel (Some src) count w
        = (Done (RetInt (Z.min count room) []), w') /\
      heap w' !! chan = Some c' /\
      size_limit c' = size_limit c /\
      data (chan_data c') = data (chan_data c) ++ take (Z.to_nat (Z.min count room)) src.
Proof.
  intros room Hcheck Hc Hroom Hcount Hsrc.
  unfold coro_bus_try_send_v. rewrite bind_get, Hcheck.
  rewrite (bind_Done _ _ _ c w) by by apply deref_eq.
  fold room. rewrite room_in_range by done.
  destruct (room =? 0) eqn:E; [done|].
  assert (Hmin : (if count <? room then count else room) = Z.min count room).
  { destruct (count <? room) eqn:E'; lia. }
  rewrite Hmin. unfold INT_MAX, UINT_MOD in *.
  erewrite bind_Done by (apply (send_v_copy_eq _ _ _ _ c); unfold UINT_MOD; lia || done).
  erewrite bind_Done by (eapply wakeup_first_eq; simpl; apply lookup_insert_eq).
  rewrite to_int_in_range by (unfold INT_MAX; lia).
  eexists _, _. split; [reflexivity|]. simpl.
  rewrite lookup_insert_eq. split_and!; [done..|].
  simpl. by rewrite data_append_all, drop_0.
Qed.

(** C7: a channel of limit 2^32 is empty, so it has room for 2^32
    messages, yet [coro_bus_try_send_v] with one value fails with
    [CORO_BUS_ERR_WOULD_BLOCK]: the room, a [size_t], is stored in an
    [unsigned] and becomes 0.  [coro_bus_try_send], which compares in
    [size_t], sends to the same channel. *)
Theorem try_send_v_truncates_room :
  let w := one_channel (2 ^ 32) in
  check_channel BUS 0 w = Some 0%nat /\
  heap w !! 0%nat = Some (new_channel (2 ^ 32)) /\
  size_limit (new_channel (2 ^ 32)) - data_size (chan_data (new_channel (2 ^ 32))) = 2 ^ 32 /\
  coro_bus_try_send_v BUS 0 (Some [1]) 1 w
    = (Done RetFail, with_error CORO_BUS_ERR_WOULD_BLOCK w) /\
  (coro_bus_try_send BUS 0 1 w).1 = Done (RetInt 0 []).
Proof. split_and!; vm_compute; reflexivity. Qed.

(** C8, the failure of the claim: one call of [coro_bus_send_v] with five
    values on an empty channel of limit 3 returns 3 with the first three
    values queued; it does not go on to the other two. *)
Lemma send_v_returns_after_first_pass :
  let r := coro_bus_send_v 1%nat BUS 0 (Some [1; 2; 3; 4; 5]) 5 (one_channel 3) in
  r.1 = Done (RetInt 3 []) /\
  (data ∘ chan_data <$> heap r.2 !! 0%nat) = Some [1; 2; 3].
Proof. vm_compute. split; reflexivity. Qed.

(** C8, amended: one call of [coro_bus_send_v] with five values on an
    empty channel of limit 3 appends the first three in one pass, returns
    3 and does not suspend; it does not go on to the other two.  This is
    proved for every count up to [INT_MAX] and every room from 1 to
    2^32 - 1: the call appends the first [min count room] values and
    returns their number. *)
Theorem send_v_one_pass self w channel chan c src count :
  let room := size_limit c - data_size (chan_data c) in
  check_channel BUS channel w = Some chan ->
  heap w !! chan = Some c ->
  0 < room < UINT_MOD ->
  0 <= count <= INT_MAX ->
  count <= Z.of_nat (length src) ->
  exists w' c',
    coro_bus_send_v self BUS channel (Some src) count w
      = (Done (RetInt (Z.min count room) []), w') /\
    heap w' !! chan = Some c' /\
    size_limit c' = size_limit c /\
    data (chan_data c') = data (chan_data c) ++ take (Z.to_nat (Z.min count room)) src.
Proof.
  intros room Hcheck Hc Hroom Hcount Hsrc.
  unfold coro_bus_send_v. rewrite bind_get, Hcheck.
  unfold coro_bus_send_v_turn.
  erewrite bind_Done
    by (unfold slot; by rewrite (check_channel_read_slot _ _ _ _ Hcheck)).
  rewrite decide_True by done.
  rewrite (bind_Done _ _ _ c w) by by apply deref_eq.
  fold room. rewrite room_in_range by lia.
  destruct (room =? 0) eqn:E; [lia|].
  rewrite Z.sub_0_r, Z.add_0_l.
  unfold INT_MAX, UINT_MOD in *.
  rewrite !(to_unsigned_small count) by (unfold UINT_MOD; lia).
  assert (Hmin : (if count <? room then count else room) = Z.min count room).
  { destruct (count <? room) eqn:E'; lia. }
  rewrite !Hmin.
  rewrite to_unsigned_small by (unfold UINT_MOD; lia).
  erewrite bind_Done by (apply (send_v_copy_eq _ _ _ _ c); unfold UINT_MOD; lia || done).
  erewrite bind_Done by (eapply wakeup_first_eq; simpl; apply lookup_insert_eq).
  rewrite to_int_in_range by (unfold INT_MAX; lia).
  eexists _, _. split; [reflexivity|]. simpl.
  rewrite lookup_insert_eq. split_and!; [done..|].
  simpl. by rewrite data_append_all, drop_0.
Qed.

Lemma send_v_one_pass_witness :
  exists w' c',
    coro_bus_send_v 1%nat BUS 0 (Some [1; 2; 3; 4; 5]) 5 (one_channel 3)
      = (Done (RetInt 3 []), w') /\
    heap w' !! 0%nat = Some c' /\
    size_limit c' = 3 /\
    data (chan_data c') = [1; 2; 3].
Proof.
  apply (send_v_one_pass 1%nat (one_channel 3) 0 0%nat (new_channel 3) [1; 2; 3; 4; 5] 5).
  - reflexivity.
  - reflexivity.
  - vm_compute. split; reflexivity.
  - vm_compute. split; discriminate.
  - vm_compute. discriminate.
Defined.

(** ** Failures of the non-blocking functions *)

Lemma bind_Done_inv {A B} (m : M A) (f : A -> M B) w b w' :
  bind m f w = (Done b, w') ->
  exists a w1, m w = (Done a, w1) /\ f a w1 = (Done b, w').
Proof.
  unfold bind. destruct (m w) as [[a| | |] w1]; intros H; simplify_eq. eauto.
Qed.

#[global] Instance eq_world_preorder : PreOrder (@eq world).
Proof. split; [by intros ?|by intros ??? -> ->]. Qed.

Lemma none_blocked_pure blocked arr : respects eq (none_blocked blocked arr).
Proof. induction arr as [|[chan|] arr IH]; simpl; respects_tac. Qed.

Lemma none_blocked_world blocked arr w o w' :
  none_blocked blocked arr w = (o, w') -> w' = w.
Proof. intros H. pose proof (none_blocked_pure blocked arr w) as E. by rewrite H in E. Qed.

(** Unfolds a loop-free segment down to matches on the world. *)
Ltac munfold :=
  unfold channel_append, channel_pop_first, wakeup_queue_wakeup_first,
    wakeup_queue_suspend_this, wakeup_queue_resume_this, coro_suspend, coro_yield,
    coro_wakeup, coro_bus_errno_set, coro_bus_errno, store, deref, slot,
    bind, pure, get, modify, undefined in *.

Ltac mcases := repeat (case_match; simplify_eq/=).

(** C3: when a non-blocking function fails with
    [CORO_BUS_ERR_WOULD_BLOCK], the world is the one before the call with
    only [global_error] set: no message queue, wait queue or slot has
    changed.  ([coro_bus_try_broadcast] fails so when some channel is full:
    no channel has received the message.) *)
Theorem would_block_changes_nothing self c w w' :
  non_blocking c = true ->
  run_call self c w = (Done RetFail, w') ->
  global_error w' = CORO_BUS_ERR_WOULD_BLOCK ->
  w' = with_error CORO_BUS_ERR_WOULD_BLOCK w /\ heap w' = heap w /\ bus w' = bus w.
Proof.
  intros Hnb Hrun Herr.
  enough (w' = with_error CORO_BUS_ERR_WOULD_BLOCK w) as -> by done.
  destruct c; try done; simpl in Hrun.
  - unfold coro_bus_try_send in Hrun. munfold. mcases; done.
  - unfold coro_bus_try_recv in Hrun. munfold. mcases; done.
  - unfold coro_bus_try_broadcast in Hrun. munfold. mcases; try done.
    match goal with H : none_blocked _ _ _ = _ |- _ => apply none_blocked_world in H end.
    by subst.
  - unfold coro_bus_try_send_v in Hrun. munfold. mcases; done.
  - unfold coro_bus_try_recv_v in Hrun. munfold. mcases; done.
Qed.

Lemma would_block_changes_nothing_witness :
  let r := coro_bus_try_broadcast BUS 7 two_channels in
  r.1 = Done RetFail /\ global_error r.2 = CORO_BUS_ERR_WOULD_BLOCK /\
  heap r.2 = heap two_channels.
Proof.
  destruct (would_block_changes_nothing 1%nat (TryBroadcast BUS 7) two_channels
              (exec (coro_bus_try_broadcast BUS 7) two_channels)) as (_ & H & _).
  - reflexivity.
  - vm_compute. reflexivity.
  - vm_compute. reflexivity.
  - split_and!; [vm_compute; reflexivity|vm_compute; reflexivity|exact H].
Defined.

(** ** Blocking and non-blocking *)

Lemma no_suspend_pure {A} (a : A) : no_suspend (pure a).
Proof. by intros w. Qed.

Lemma no_suspend_undefined {A} : no_suspend (@undefined A).
Proof. by intros w. Qed.

Lemma no_suspend_get : no_suspend get.
Proof. by intros w. Qed.

Lemma no_suspend_modify f : no_suspend (modify f).
Proof. by intros w. Qed.

Lemma no_suspend_deref chan : no_suspend (deref chan).
Proof. intros w. unfold deref. by destruct (heap w !! chan). Qed.

Lemma no_suspend_slot channel : no_suspend (slot channel).
Proof. intros w. unfold slot. by destruct (read_slot channel w). Qed.

Lemma no_suspend_bind {A B} (m : M A) (f : A -> M B) :
  no_suspend m -> (forall a, no_suspend (f a)) -> no_suspend (bind m f).
Proof.
  intros Hm Hf w. unfold bind. specialize (Hm w).
  destruct (m w) as [[a| | |] w1]; simpl in *; try done. apply Hf.
Qed.

Create HintDb no_suspend.

Ltac no_suspend_step :=
  first
    [ solve [auto 1 with no_suspend]
    | apply no_suspend_pure | apply no_suspend_undefined | apply no_suspend_get
    | apply no_suspend_modify | apply no_suspend_deref | apply no_suspend_slot
    | assumption
    | apply no_suspend_bind; [|intros ?]
    | match goal with
      | |- no_suspend (match ?x with _ => _ end) => destruct x
      | |- no_suspend (if ?b then _ else _) => destruct b
      end ].

Ltac no_suspend_tac := repeat no_suspend_step.

Lemma no_suspend_errno_set e : no_suspend (coro_bus_errno_set e).
Proof. apply no_suspend_modify. Qed.

Lemma no_suspend_wakeup c : no_suspend (coro_wakeup c).
Proof. apply no_suspend_modify. Qed.

Lemma no_suspend_store chan c : no_suspend (store chan c).
Proof. apply no_suspend_modify. Qed.

#[global] Hint Resolve no_suspend_errno_set no_suspend_wakeup no_suspend_store
  : no_suspend.

Lemma no_suspend_append chan d : no_suspend (channel_append chan d).
Proof. unfold channel_append. no_suspend_tac. Qed.

Lemma no_suspend_pop_first chan : no_suspend (channel_pop_first chan).
Proof. unfold channel_pop_first. no_suspend_tac. Qed.

Lemma no_suspend_wakeup_first chan q : no_suspend (wakeup_queue_wakeup_first chan q).
Proof. unfold wakeup_queue_wakeup_first. no_suspend_tac. Qed.

#[global] Hint Resolve no_suspend_append no_suspend_pop_first no_suspend_wakeup_first
  : no_suspend.

Lemma no_suspend_none_blocked blocked arr : no_suspend (none_blocked blocked arr).
Proof. induction arr as [|[chan|] arr IH]; simpl; no_suspend_tac. Qed.

Lemma no_suspend_commit arr d : no_suspend (broadcast_commit arr d).
Proof. induction arr as [|[chan|] arr IH]; simpl; no_suspend_tac. Qed.

Lemma no_suspend_send_v_copy chan src sent i n : no_suspend (send_v_copy chan src sent i n).
Proof. revert i. induction n as [|n IH]; intros i; simpl; no_suspend_tac. Qed.

Lemma no_suspend_recv_v_copy chan n : no_suspend (recv_v_copy chan n).
Proof. induction n as [|n IH]; simpl; no_suspend_tac. Qed.

#[global] Hint Resolve no_suspend_none_blocked no_suspend_commit
  no_suspend_send_v_copy no_suspend_recv_v_copy : no_suspend.

Lemma no_suspend_non_blocking self c : non_blocking c = true -> no_suspend (run_call self c).
Proof.
  destruct c; try done; intros _; simpl.
  - unfold coro_bus_try_send. no_suspend_tac.
  - unfold coro_bus_try_recv. no_suspend_tac.
  - unfold coro_bus_try_broadcast. no_suspend_tac.
  - unfold coro_bus_try_send_v. no_suspend_tac.
  - unfold coro_bus_try_recv_v. no_suspend_tac.
Qed.

(** The wait queues under the actions of the non-blocking functions. *)

Lemma queues_errno_set e : respects same_queues (coro_bus_errno_set e).
Proof. by intros w chan. Qed.

Lemma queues_wakeup c : respects same_queues (coro_wakeup c).
Proof. by intros w chan. Qed.

Lemma queues_set_data chan c v (h : gmap addr coro_bus_channel) :
  h !! chan = Some c ->
  forall chan',
    (send_queue <$> <[chan := set_chan_data v c]> h !! chan') = (send_queue <$> h !! chan') /\
    (recv_queue <$> <[chan := set_chan_data v c]> h !! chan') = (recv_queue <$> h !! chan').
Proof.
  intros H chan'. destruct (decide (chan = chan')) as [<-|Hne].
  - by rewrite lookup_insert_eq, H.
  - by rewrite lookup_insert_ne.
Qed.

Lemma queues_append chan d : respects same_queues (channel_append chan d).
Proof.
  intros w. unfold channel_append, bind, deref, store, modify.
  destruct (heap w !! chan) as [c|] eqn:E; simpl; [|done].
  intros chan'. by apply queues_set_data.
Qed.

Lemma queues_pop_first chan : respects same_queues (channel_pop_first chan).
Proof.
  intros w. unfold channel_pop_first, bind, deref, store, modify, pure, undefined.
  destruct (heap w !! chan) as [c|] eqn:E; simpl; [|done].
  destruct (data_vector_pop_first _) as [[d v]|]; simpl; [|done].
  intros chan'. by apply queues_set_data.
Qed.

Lemma queues_wakeup_first chan q : respects same_queues (wakeup_queue_wakeup_first chan q).
Proof.
  intros w. unfold wakeup_queue_wakeup_first, bind, deref, pure, coro_wakeup, modify.
  destruct (heap w !! chan) eqn:E; simpl; [|done].
  by destruct (queue_of q _).
Qed.

#[global] Hint Resolve queues_errno_set queues_wakeup queues_append queues_pop_first
  queues_wakeup_first : respects.

Lemma queues_none_blocked blocked arr : respects same_queues (none_blocked blocked arr).
Proof. induction arr as [|[chan|] arr IH]; simpl; respects_tac. Qed.

Lemma queues_commit arr d : respects same_queues (broadcast_commit arr d).
Proof. induction arr as [|[chan|] arr IH]; simpl; respects_tac. Qed.

Lemma queues_send_v_copy chan src sent i n :
  respects same_queues (send_v_copy chan src sent i n).
Proof. revert i. induction n as [|n IH]; intros i; simpl; respects_tac. Qed.

Lemma queues_recv_v_copy chan n : respects same_queues (recv_v_copy chan n).
Proof. induction n as [|n IH]; simpl; respects_tac. Qed.

#[global] Hint Resolve queues_none_blocked queues_commit queues_send_v_copy
  queues_recv_v_copy : respects.

Lemma queues_non_blocking self c :
  non_blocking c = true -> respects same_queues (run_call self c).
Proof.
  destruct c; try done; intros _; simpl.
  - unfold coro_bus_try_send. respects_tac.
  - unfold coro_bus_try_recv. respects_tac.
  - unfold coro_bus_try_broadcast. respects_tac.
  - unfold coro_bus_try_send_v. respects_tac.
  - unfold coro_bus_try_recv_v. respects_tac.
Qed.

Lemma any_channel_exists_lookup arr i chan :
  arr !! i = Some (Some chan) -> any_channel_exists arr = true.
Proof.
  revert i. induction arr as [|[c|] arr IH]; intros i H; simpl; [done|done|].
  destruct i as [|i]; [done|]. by eapply IH.
Qed.

Lemma none_blocked_false blocked arr w :
  (forall i chan, arr !! i = Some (Some chan) -> is_Some (heap w !! chan)) ->
  (exists i chan c, arr !! i = Some (Some chan) /\ heap w !! chan = Some c /\
                    blocked c = true) ->
  none_blocked blocked arr w = (Done false, w).
Proof.
  induction arr as [|[chan0|] arr IH]; intros Hlive (i & chan & c & Hi & Hc & Hb); simpl.
  - done.
  - destruct (Hlive 0%nat chan0 eq_refl) as [c0 Hc0].
    rewrite (bind_Done _ _ _ c0 w) by by apply deref_eq.
    destruct (blocked c0) eqn:Hb0; [done|].
    destruct i as [|i]; simpl in Hi; [simplify_eq; congruence|].
    apply IH; [|eauto 6]. intros j chan' Hj. by apply (Hlive (S j)).
  - destruct i as [|i]; simpl in Hi; [done|].
    apply IH; [|eauto 6]. intros j chan' Hj. by apply (Hlive (S j)).
Qed.

(** [coro_bus_try_broadcast] on a bus where some open channel is full
    fails with [CORO_BUS_ERR_WOULD_BLOCK] and changes nothing else. *)
Lemma try_broadcast_full d w i chan c :
  world_wf w ->
  slots w !! i = Some (Some chan) ->
  heap w !! chan = Some c ->
  full c = true ->
  coro_bus_try_broadcast BUS d w = (Done RetFail, with_error CORO_BUS_ERR_WOULD_BLOCK w).
Proof.
  intros Hwf Hi Hc Hfull. unfold coro_bus_try_broadcast. rewrite bind_get.
  unfold slots in Hi. destruct (channels (bus w)) as [arr|] eqn:Harr; [|done].
  simpl in Hi. unfold channel_count. rewrite Harr.
  destruct (Z.of_nat (length arr) =? 0) eqn:E.
  { apply lookup_lt_Some in Hi. lia. }
  rewrite (any_channel_exists_lookup arr i chan Hi). simpl.
  rewrite (bind_Done _ _ _ false w); [done|].
  apply none_blocked_false; [|eauto 6].
  intros j chan' Hj. apply elem_of_dom, (wf_live _ Hwf j).
  unfold slots. by rewrite Harr.
Qed.

Lemma blocking_failure self s w w' :
  blocking_segment s = true ->
  run self s w = (Done RetFail, w') ->
  global_error w' ≠ CORO_BUS_ERR_WOULD_BLOCK.
Proof.
  intros Hb Hrun. destruct s as [c|k]; simpl in Hrun.
  - destruct c; try done; simpl in Hrun.
    + unfold coro_bus_send in Hrun. munfold. mcases; done.
    + unfold coro_bus_recv, coro_bus_recv_loop in Hrun. munfold. mcases; done.
    + unfold coro_bus_broadcast in Hrun. munfold. mcases; done.
    + unfold coro_bus_send_v, coro_bus_send_v_turn in Hrun. munfold. mcases; done.
    + unfold coro_bus_recv_v, coro_bus_recv_v_turn, coro_bus_try_recv_v in Hrun.
      munfold. mcases; done.
  - destruct k; simpl in Hrun.
    + unfold coro_bus_send_resume, coro_bus_send in Hrun. munfold. mcases; done.
    + unfold coro_bus_recv_resume, coro_bus_recv_loop in Hrun. munfold. mcases; done.
    + unfold coro_bus_broadcast_resume, coro_bus_broadcast in Hrun. munfold. mcases; done.
    + unfold coro_bus_broadcast in Hrun. munfold. mcases; done.
    + unfold coro_bus_send_v_resume, coro_bus_send_v_turn in Hrun. munfold. mcases; done.
    + unfold coro_bus_recv_v_resume, coro_bus_recv_v_turn, coro_bus_try_recv_v in Hrun.
      munfold. mcases; done.
Qed.

(** Where a non-blocking function fails with [CORO_BUS_ERR_WOULD_BLOCK],
    the blocking one suspends: a send to a full channel and a receive from
    an empty one leave the entry of the caller in the wait queue and end
    the segment. *)
Lemma blocking_parks self w channel chan c :
  check_channel BUS channel w = Some chan ->
  heap w !! chan = Some c ->
  (size_limit c <= data_size (chan_data c) ->
   forall d,
     (coro_bus_send self BUS channel d w).1 = Parked (KSend channel chan d) /\
     (coro_bus_try_send BUS channel d w)
       = (Done RetFail, with_error CORO_BUS_ERR_WOULD_BLOCK w)) /\
  (data (chan_data c) = [] ->
   (coro_bus_recv self BUS channel w).1 = Parked (KRecv channel chan) /\
   (coro_bus_try_recv BUS channel w)
     = (Done RetFail, with_error CORO_BUS_ERR_WOULD_BLOCK w) /\
   forall capacity,
     (coro_bus_recv_v self BUS channel true capacity w).1
       = Parked (KRecvV channel capacity) /\
     (coro_bus_try_recv_v BUS channel true capacity w)
       = (Done RetFail, with_error CORO_BUS_ERR_WOULD_BLOCK w)).
Proof.
  intros Hcheck Hc.
  pose proof (check_channel_read_slot _ _ _ _ Hcheck) as Hslot.
  assert (Hrecv : check_channel_recv BUS channel w = Some (Some chan)).
  { pose proof (check_channel_Some _ _ _ _ Hcheck) as (_ & arr & Harr & Hrange & _).
    unfold check_channel_recv, channel_count. rewrite Harr.
    destruct (Z.of_nat (length arr) =? 0) eqn:E; [lia|done]. }
  split.
  - intros Hfull d. split.
    + unfold coro_bus_send. rewrite bind_get, Hcheck.
      rewrite (bind_Done _ _ _ c w) by by apply deref_eq.
      destruct (_ <? _) eqn:E; [lia|].
      by rewrite (suspend_this_eq _ c).
    + unfold coro_bus_try_send. rewrite bind_get, Hcheck.
      rewrite (bind_Done _ _ _ c w) by by apply deref_eq.
      destruct (_ >=? _) eqn:E; [done|lia].
  - intros Hempty.
    assert (Hsize : (data_size (chan_data c) =? 0) = true).
    { unfold data_size. by rewrite Hempty. }
    split_and!.
    + unfold coro_bus_recv. rewrite bind_get, Hrecv. unfold coro_bus_recv_loop.
      rewrite (bind_Done _ _ _ c w) by by apply deref_eq.
      rewrite Hsize. by rewrite (suspend_this_eq _ c).
    + unfold coro_bus_try_recv. rewrite bind_get, Hrecv.
      rewrite (bind_Done _ _ _ c w) by by apply deref_eq.
      by rewrite Hsize.
    + intros capacity.
      assert (Htry : coro_bus_try_recv_v BUS channel true capacity w
                     = (Done RetFail, with_error CORO_BUS_ERR_WOULD_BLOCK w)).
      { unfold coro_bus_try_recv_v. rewrite bind_get, Hcheck.
        rewrite (bind_Done _ _ _ c w) by by apply deref_eq.
        by rewrite Hsize. }
      split; [|done].
      unfold coro_bus_recv_v. rewrite bind_get, Hcheck.
      unfold coro_bus_recv_v_turn. rewrite (bind_Done _ _ _ _ _ Htry).
      simpl. unfold coro_bus_errno, with_error, exec. simpl.
      erewrite bind_Done by reflexivity. simpl.
      erewrite bind_Done by reflexivity.
      erewrite bind_Done by (unfold slot, read_slot in *; simpl; by rewrite Hslot).
      cbv beta iota. by rewrite (suspend_this_eq _ c).
Qed.

(** When the second loop of [coro_bus_broadcast] found a channel that is
    full with no receiver waiting, the last loop finds it again and
    suspends there. *)
Lemma blocked_parks self d arr : forall i w w1,
  none_blocked full_without_receiver arr w = (Done false, w1) ->
  exists j w', broadcast_park self d arr i w = (Parked (KBroadcast j d), w').
Proof.
  induction arr as [|[chan|] arr IH]; intros i w w1 Hnone; simpl in *.
  - by unfold pure in Hnone.
  - unfold bind, deref in *. destruct (heap w !! chan) as [c|] eqn:Hc; [|done].
    destruct (full_without_receiver c); [|by eapply IH].
    rewrite (suspend_this_eq _ c) by done. eauto.
  - by eapply IH.
Qed.

Lemma none_blocked_same arr : forall w w1 r,
  no_receiver_on_full w ->
  none_blocked full arr w = (Done r, w1) ->
  none_blocked full_without_receiver arr w = (Done r, w).
Proof.
  induction arr as [|[chan|] arr IH]; intros w w1 r Hnr Hnone; simpl in *.
  - unfold pure in *. by simplify_eq.
  - unfold bind, deref in *. destruct (heap w !! chan) as [c|] eqn:Hc; [|done].
    unfold full_without_receiver. fold (full c).
    destruct (full c) eqn:Hfull; simpl.
    + rewrite (Hnr chan c Hc Hfull). unfold pure in *. by simplify_eq.
    + by eapply IH.
  - by eapply IH.
Qed.

Lemma would_block_parks self c w w' :
  non_blocking c = true ->
  run_call self c w = (Done RetFail, w') ->
  global_error w' = CORO_BUS_ERR_WOULD_BLOCK ->
  (forall b d, c = TryBroadcast b d -> no_receiver_on_full w) ->
  exists k w'', run_call self (blocking_variant c) w = (Parked k, w'').
Proof.
  intros Hnb Hrun Herr Hnr.
  destruct c as
    [b limit malloc_ok realloc_ok|b channel|b channel d|b channel d|b channel
     |b channel|b d|b d|b channel src count|b channel src count
     |b channel data_nonnull cap|b channel data_nonnull cap];
    try done; simpl in *.
  - (* try_send *)
    unfold coro_bus_try_send in Hrun. unfold coro_bus_send. rewrite bind_get in *.
    destruct (check_channel b channel w) as [chan|] eqn:Hcheck;
      [|munfold; by simplify_eq].
    apply bind_Done_inv in Hrun as (c & w1 & Hderef & Hrun).
    rewrite (bind_Done _ _ _ _ _ Hderef).
    unfold deref in Hderef. destruct (heap w !! chan) as [c0|] eqn:Hc; [|done].
    simplify_eq.
    destruct (_ >=? _) eqn:E; [|exfalso; munfold; mcases; done].
    destruct (_ <? _) eqn:E'; [lia|].
    rewrite (suspend_this_eq _ c) by done. eauto.
  - (* try_recv *)
    unfold coro_bus_try_recv in Hrun. unfold coro_bus_recv. rewrite bind_get in *.
    destruct (check_channel_recv b channel w) as [[chan|]|] eqn:Hcr;
      [|munfold; by simplify_eq|done].
    unfold coro_bus_recv_loop.
    apply bind_Done_inv in Hrun as (c & w1 & Hderef & Hrun).
    rewrite (bind_Done _ _ _ _ _ Hderef).
    unfold deref in Hderef. destruct (heap w !! chan) as [c0|] eqn:Hc; [|done].
    simplify_eq.
    destruct (_ =? 0) eqn:E; [|exfalso; munfold; mcases; done].
    rewrite (suspend_this_eq _ c) by done. eauto.
  - (* try_broadcast *)
    specialize (Hnr b d eq_refl).
    unfold coro_bus_try_broadcast in Hrun. unfold coro_bus_broadcast.
    rewrite bind_get in *.
    destruct b; [munfold; by simplify_eq|].
    destruct (channels (bus w)) as [arr|]; [|munfold; by simplify_eq].
    destruct (channel_count (bus w) =? 0); [munfold; by simplify_eq|].
    destruct (negb (any_channel_exists arr)); [munfold; by simplify_eq|].
    apply bind_Done_inv in Hrun as (none_full & w1 & Hnone & Hrun).
    destruct none_full.
    { apply bind_Done_inv in Hrun as (? & ? & _ & Hrun). unfold pure in Hrun. done. }
    pose proof (none_blocked_same _ _ _ _ Hnr Hnone) as Hsame.
    rewrite (bind_Done _ _ _ _ _ Hsame).
    destruct (blocked_parks self d arr 0 _ _ Hsame) as (j & w2 & Hpark).
    unfold bind at 1. rewrite Hpark. eauto.
  - (* try_send_v *)
    unfold coro_bus_try_send_v in Hrun. unfold coro_bus_send_v. rewrite bind_get in *.
    destruct (check_channel b channel w) as [chan|] eqn:Hcheck;
      [|munfold; by simplify_eq].
    destruct src as [src|]; [|munfold; by simplify_eq].
    pose proof (check_channel_Some _ _ _ _ Hcheck) as [-> _].
    unfold coro_bus_send_v_turn.
    erewrite bind_Done;
      [|unfold slot; by rewrite (check_channel_read_slot _ _ _ _ Hcheck)].
    rewrite decide_True by done.
    apply bind_Done_inv in Hrun as (c & w1 & Hderef & Hrun).
    rewrite (bind_Done _ _ _ _ _ Hderef).
    unfold deref in Hderef. destruct (heap w !! chan) as [c0|] eqn:Hc; [|done].
    simplify_eq.
    destruct (_ =? 0) eqn:Espace.
    + rewrite (suspend_this_eq _ c) by done. eauto.
    + exfalso. apply bind_Done_inv in Hrun as (? & ? & _ & Hrun).
      apply bind_Done_inv in Hrun as (? & ? & _ & Hrun). unfold pure in Hrun. done.
  - (* try_recv_v *)
    unfold coro_bus_recv_v. rewrite bind_get.
    destruct (check_channel b channel w) as [chan|] eqn:Hcheck;
      [|unfold coro_bus_try_recv_v in Hrun; rewrite bind_get, Hcheck in Hrun;
        munfold; by simplify_eq].
    destruct data_nonnull;
      [|unfold coro_bus_try_recv_v in Hrun; rewrite bind_get, Hcheck in Hrun;
        munfold; by simplify_eq].
    pose proof (check_channel_Some _ _ _ _ Hcheck) as [-> _].
    unfold coro_bus_recv_v_turn. rewrite (bind_Done _ _ _ _ _ Hrun).
    simpl. unfold coro_bus_errno. erewrite bind_Done by reflexivity.
    rewrite decide_True by done.
    assert (w' = with_error CORO_BUS_ERR_WOULD_BLOCK w) as ->.
    { unfold coro_bus_try_recv_v in Hrun. munfold. mcases; done. }
    assert (is_Some (heap w !! chan)) as [c Hc].
    { unfold coro_bus_try_recv_v in Hrun. rewrite bind_get, Hcheck in Hrun.
      unfold bind, deref in Hrun. by destruct (heap w !! chan). }
    erewrite bind_Done by reflexivity.
    pose proof (check_channel_read_slot _ _ _ _ Hcheck) as Hslot.
    erewrite bind_Done by (unfold slot, read_slot in *; simpl; by rewrite Hslot).
    cbv beta iota. rewrite (suspend_this_eq _ c) by done. eauto.
Qed.

(** C9: a segment of a blocking function that returns -1 does not leave
    [CORO_BUS_ERR_WOULD_BLOCK] in [global_error]; a non-blocking function
    never ends in a suspension or a yield, and leaves every wait queue as
    it was; and where a non-blocking function fails with
    [CORO_BUS_ERR_WOULD_BLOCK], the blocking function of the same name,
    called in the same state with the same arguments, suspends the caller
    instead.  For the broadcast this is so when no full channel has a
    receiver waiting: [coro_bus_broadcast] takes a full channel with a
    waiting receiver as ready and goes through, where
    [coro_bus_try_broadcast] reports [CORO_BUS_ERR_WOULD_BLOCK]. *)
Theorem blocking_and_non_blocking self s w o w' :
  run self s w = (o, w') ->
  (blocking_segment s = true -> o = Done RetFail ->
   global_error w' ≠ CORO_BUS_ERR_WOULD_BLOCK) /\
  (non_blocking_segment s = true ->
   (forall k, o ≠ Parked k /\ o ≠ Yielded k) /\ same_queues w w') /\
  (forall c, s = Call c -> non_blocking c = true ->
   o = Done RetFail -> global_error w' = CORO_BUS_ERR_WOULD_BLOCK ->
   (forall b d, c = TryBroadcast b d -> no_receiver_on_full w) ->
   exists k w'', run self (Call (blocking_variant c)) w = (Parked k, w'')).
Proof.
  intros Hrun. split_and!.
  - intros Hb ->. by eapply blocking_failure.
  - destruct s as [c|k]; [|done]. simpl. intros Hnb. split.
    + pose proof (no_suspend_non_blocking self c Hnb w) as H.
      simpl in Hrun. rewrite Hrun in H. simpl in H.
      intros k. split; intros ->; done.
    + pose proof (queues_non_blocking self c Hnb w) as H.
      simpl in Hrun. by rewrite Hrun in H.
  - intros c -> Hnb -> Herr Hnr. by eapply would_block_parks.
Qed.

Lemma blocking_and_non_blocking_witness :
  let closed := exec (run 0%nat (Call (Close BUS 0))) (sys_world parked_receiver) in
  global_error (exec (run 1%nat (Resume (KRecv 0 0%nat))) closed)
    ≠ CORO_BUS_ERR_WOULD_BLOCK /\
  (forall k, (coro_bus_try_send_v BUS 0 (Some [1]) 1 (one_channel 0)).1 ≠ Parked k) /\
  (exists k w'',
     coro_bus_send_v 1%nat BUS 0 (Some [1]) 1 (one_channel 0) = (Parked k, w'')) /\
  (exists k w'', coro_bus_broadcast 1%nat BUS 1 (one_channel 0) = (Parked k, w'')).
Proof.
  split_and!.
  - eapply (blocking_and_non_blocking 1%nat (Resume (KRecv 0 0%nat))
              (exec (run 0%nat (Call (Close BUS 0))) (sys_world parked_receiver)));
      [reflexivity..].
  - intros k.
    destruct (coro_bus_try_send_v BUS 0 (Some [1]) 1 (one_channel 0)) as [o1 w1] eqn:E.
    eapply (blocking_and_non_blocking 1%nat (Call (TrySendV BUS 0 (Some [1]) 1))
              (one_channel 0) o1 w1); [exact E|reflexivity].
  - destruct (blocking_and_non_blocking 1%nat (Call (TrySendV BUS 0 (Some [1]) 1))
                (one_channel 0) (Done RetFail)
                (with_error CORO_BUS_ERR_WOULD_BLOCK (one_channel 0)))
      as (_ & _ & H); [reflexivity|].
    apply (H (TrySendV BUS 0 (Some [1]) 1)); [reflexivity..|done].
  - destruct (blocking_and_non_blocking 1%nat (Call (TryBroadcast BUS 1))
                (one_channel 0) (Done RetFail)
                (with_error CORO_BUS_ERR_WOULD_BLOCK (one_channel 0)))
      as (_ & _ & H); [reflexivity|].
    apply (H (TryBroadcast BUS 1)); [reflexivity..|].
    intros _ _ _ chan c Hc _.
    assert (heap (one_channel 0) = <[0%nat := new_channel 0]> ∅) as Hheap
      by (vm_compute; reflexivity).
    rewrite Hheap in Hc.
    apply lookup_insert_Some in Hc as [[_ <-]|[_ Hc]]; [done|].
    by rewrite lookup_empty in Hc.
Defined.

(** ** FIFO *)

Lemma check_channel_bus b channel w w' :
  bus w' = bus w -> check_channel b channel w' = check_channel b channel w.
Proof. intros H. unfold check_channel, channel_count. by rewrite H. Qed.

Lemma check_channel_recv_Some b channel w chan :
  check_channel b channel w = Some chan ->
  check_channel_recv b channel w = Some (Some chan).
Proof.
  intros H. pose proof (check_channel_read_slot _ _ _ _ H) as Hr.
  apply check_channel_Some in H as (-> & arr & Harr & Hrange & _).
  unfold check_channel_recv, channel_count. rewrite Harr.
  destruct (Z.of_nat (length arr) =? 0) eqn:E; [lia|done].
Qed.

(** A send to a channel with room returns 0 at once and puts the value
    behind the queue. *)
Lemma send_with_room self blocking_send w channel chan c d :
  check_channel BUS channel w = Some chan ->
  heap w !! chan = Some c ->
  data_size (chan_data c) < size_limit c ->
  exists w',
    run_call self (send_call blocking_send channel d) w = (Done (RetInt 0 []), w') /\
    bus w' = bus w /\
    heap w' = <[chan := set_chan_data (data_vector_append (chan_data c) d) c]> (heap w).
Proof.
  intros Hcheck Hc Hroom.
  destruct blocking_send; simpl.
  - unfold coro_bus_send. rewrite bind_get, Hcheck.
    rewrite (bind_Done _ _ _ c w) by by apply deref_eq.
    destruct (_ <? _) eqn:E; [|lia].
    erewrite bind_Done by by apply channel_append_eq.
    erewrite bind_Done by (eapply wakeup_first_eq; simpl; apply lookup_insert_eq).
    erewrite bind_Done by (eapply wakeup_first_eq; simpl; apply lookup_insert_eq).
    eexists. split; [reflexivity|]. done.
  - unfold coro_bus_try_send. rewrite bind_get, Hcheck.
    rewrite (bind_Done _ _ _ c w) by by apply deref_eq.
    destruct (_ >=? _) eqn:E; [lia|].
    erewrite bind_Done by by apply channel_append_eq.
    erewrite bind_Done by (eapply wakeup_first_eq; simpl; apply lookup_insert_eq).
    eexists. split; [reflexivity|]. done.
Qed.

(** A receive from a channel that holds messages returns the oldest at
    once. *)
Lemma recv_with_data self blocking_recv w channel chan c d l :
  check_channel BUS channel w = Some chan ->
  heap w !! chan = Some c ->
  data (chan_data c) = d :: l ->
  exists w',
    run_call self (recv_call blocking_recv channel) w = (Done (RetInt 0 [d]), w') /\
    bus w' = bus w /\
    heap w' = <[chan := set_chan_data (DataVector l (capacity (chan_data c))) c]> (heap w).
Proof.
  intros Hcheck Hc Hd.
  assert (Hsize : (data_size (chan_data c) =? 0) = false).
  { unfold data_size. rewrite Hd. simpl. lia. }
  destruct blocking_recv; simpl.
  - unfold coro_bus_recv. rewrite bind_get, (check_channel_recv_Some _ _ _ _ Hcheck).
    unfold coro_bus_recv_loop.
    rewrite (bind_Done _ _ _ c w) by by apply deref_eq.
    rewrite Hsize.
    erewrite bind_Done by by eapply channel_pop_first_eq.
    erewrite bind_Done by (eapply wakeup_first_eq; simpl; apply lookup_insert_eq).
    eexists. split; [reflexivity|]. done.
  - unfold coro_bus_try_recv. rewrite bind_get, (check_channel_recv_Some _ _ _ _ Hcheck).
    rewrite (bind_Done _ _ _ c w) by by apply deref_eq.
    rewrite Hsize.
    erewrite bind_Done by by eapply channel_pop_first_eq.
    erewrite bind_Done by (eapply wakeup_first_eq; simpl; apply lookup_insert_eq).
    eexists. split; [reflexivity|]. done.
Qed.

Lemma run_calls_app self cs1 cs2 : forall w rs1 w1 rs2 w2,
  run_calls self cs1 w = (Done rs1, w1) ->
  run_calls self cs2 w1 = (Done rs2, w2) ->
  run_calls self (cs1 ++ cs2) w = (Done (rs1 ++ rs2), w2).
Proof.
  induction cs1 as [|c cs1 IH]; intros w rs1 w1 rs2 w2 H1 H2; simpl in *.
  - unfold pure in H1. by simplify_eq.
  - apply bind_Done_inv in H1 as (r & wa & Hr & H1).
    apply bind_Done_inv in H1 as (rs & wb & Hrs & H1).
    unfold pure in H1. simplify_eq.
    erewrite bind_Done by done.
    erewrite bind_Done by (eapply IH; eassumption). done.
Qed.

Lemma send_all self blocking_send channel chan vs : forall w c,
  check_channel BUS channel w = Some chan ->
  heap w !! chan = Some c ->
  data_size (chan_data c) + Z.of_nat (length vs) <= size_limit c ->
  exists w' c',
    run_calls self (map (send_call blocking_send channel) vs) w
      = (Done (replicate (length vs) (RetInt 0 [])), w') /\
    check_channel BUS channel w' = Some chan /\
    heap w' !! chan = Some c' /\
    data (chan_data c') = data (chan_data c) ++ vs.
Proof.
  induction vs as [|v vs IH]; intros w c Hcheck Hc Hroom; simpl in *.
  - exists w, c. by rewrite app_nil_r.
  - destruct (send_with_room self blocking_send w channel chan c v)
      as (w1 & Hrun & Hbus & Hheap); [done|done|lia|].
    destruct (IH w1 (set_chan_data (data_vector_append (chan_data c) v) c))
      as (w' & c' & Hruns & Hcheck' & Hc' & Hdata).
    { by rewrite (check_channel_bus _ _ w). }
    { rewrite Hheap. apply lookup_insert_eq. }
    { simpl. rewrite data_size_append. lia. }
    exists w', c'. split_and!; [|done|done|].
    + erewrite bind_Done by done. erewrite bind_Done by done. done.
    + rewrite Hdata. simpl. by rewrite <- app_assoc.
Qed.

Lemma recv_all self blocking_recv channel chan vs : forall w c rest,
  check_channel BUS channel w = Some chan ->
  heap w !! chan = Some c ->
  data (chan_data c) = vs ++ rest ->
  exists w' c',
    run_calls self (replicate (length vs) (recv_call blocking_recv channel)) w
      = (Done (map (fun v => RetInt 0 [v]) vs), w') /\
    heap w' !! chan = Some c' /\
    data (chan_data c') = rest.
Proof.
  induction vs as [|v vs IH]; intros w c rest Hcheck Hc Hdata; simpl in *.
  - by exists w, c.
  - destruct (recv_with_data self blocking_recv w channel chan c v (vs ++ rest))
      as (w1 & Hrun & Hbus & Hheap); [done..|].
    destruct (IH w1 (set_chan_data (DataVector (vs ++ rest) (capacity (chan_data c))) c) rest)
      as (w' & c' & Hruns & Hc' & Hdata').
    { by rewrite (check_channel_bus _ _ w). }
    { rewrite Hheap. apply lookup_insert_eq. }
    { done. }
    exists w', c'. split_and!; [|done..].
    erewrite bind_Done by done. erewrite bind_Done by done. done.
Qed.

(** C4: on a channel with an empty queue and a limit of at least N,
    sending [v1..vN] and then receiving N values returns 0 for every send
    and [v1..vN], in that order, for the receives, and the queue is empty
    again.  It holds for the blocking and the non-blocking functions alike,
    and whatever the wait queues hold. *)
Theorem fifo_round_trip self blocking_send blocking_recv w channel chan c vs :
  check_channel BUS channel w = Some chan ->
  heap w !! chan = Some c ->
  data (chan_data c) = [] ->
  Z.of_nat (length vs) <= size_limit c ->
  exists w' c',
    run_calls self (round_trip blocking_send blocking_recv channel vs) w
      = (Done (replicate (length vs) (RetInt 0 []) ++ map (fun v => RetInt 0 [v]) vs), w') /\
    heap w' !! chan = Some c' /\
    data (chan_data c') = [].
Proof.
  intros Hcheck Hc Hempty Hlimit.
  destruct (send_all self blocking_send channel chan vs w c)
    as (w1 & c1 & Hsend & Hcheck1 & Hc1 & Hdata1); [done..| |].
  { unfold data_size. rewrite Hempty. simpl. lia. }
  rewrite Hempty in Hdata1. simpl in Hdata1.
  destruct (recv_all self blocking_recv channel chan vs w1 c1 [])
    as (w2 & c2 & Hrecv & Hc2 & Hdata2); [done..|by rewrite app_nil_r|].
  exists w2, c2. split_and!; [|done..].
  by eapply run_calls_app.
Qed.

Lemma fifo_round_trip_witness :
  exists w' c',
    run_calls 1%nat (round_trip true true 0 [10; 20; 30]) (one_channel 3)
      = (Done [RetInt 0 []; RetInt 0 []; RetInt 0 [];
               RetInt 0 [10]; RetInt 0 [20]; RetInt 0 [30]], w') /\
    heap w' !! 0%nat = Some c' /\
    data (chan_data c') = [].
Proof.
  apply (fifo_round_trip 1%nat true true (one_channel 3) 0 0%nat (new_channel 3)
           [10; 20; 30]).
  - reflexivity.
  - reflexivity.
  - reflexivity.
  - vm_compute. discriminate.
Defined.

(** ** The capacity invariant *)

#[global] Instance keeps_cap_preorder : PreOrder keeps_cap.
Proof.
  split; [intros w H; exact H|].
  intros w1 w2 w3 H12 H23 H. apply H23, H12, H.
Qed.

Lemma cap_inv_heap w w' : heap w' = heap w -> keeps_cap w w'.
Proof. intros H. unfold keeps_cap, cap_inv. by rewrite H. Qed.

Lemma cap_inv_insert w chan c :
  cap_inv w ->
  data_size (chan_data c) <= size_limit c ->
  map_Forall (fun _ c => data_size (chan_data c) <= size_limit c) (<[chan := c]> (heap w)).
Proof. intros Hinv Hc. by apply map_Forall_insert_2. Qed.

Lemma cap_errno_set e : respects keeps_cap (coro_bus_errno_set e).
Proof. intros w. by apply cap_inv_heap. Qed.

Lemma cap_wakeup c : respects keeps_cap (coro_wakeup c).
Proof. intros w. by apply cap_inv_heap. Qed.

Lemma cap_suspend {A} self k : respects keeps_cap (@coro_suspend A self k).
Proof. intros w. by apply cap_inv_heap. Qed.

Lemma cap_yield {A} self k : respects keeps_cap (@coro_yield A self k).
Proof. intros w. by apply cap_inv_heap. Qed.

Lemma cap_set_channels arr : respects keeps_cap (set_channels arr).
Proof. intros w. by apply cap_inv_heap. Qed.

Lemma cap_free chan : respects keeps_cap (free_channel chan).
Proof. intros w Hinv. unfold cap_inv in *. simpl. by apply map_Forall_delete. Qed.

Lemma cap_pop_first chan : respects keeps_cap (channel_pop_first chan).
Proof.
  intros w Hinv. unfold channel_pop_first, bind, deref, store, modify, pure, undefined.
  destruct (heap w !! chan) as [c|] eqn:E; simpl; [|done].
  destruct (data_vector_pop_first _) as [[d v]|] eqn:Hpop; simpl; [|done].
  apply cap_inv_insert; [done|]. simpl.
  apply data_vector_pop_first_Some in Hpop as [Hd _].
  specialize (Hinv chan c E). simpl in Hinv.
  unfold data_size in *. rewrite Hd in Hinv. simpl in Hinv. lia.
Qed.

Lemma cap_suspend_this {A} chan q self k :
  respects keeps_cap (@wakeup_queue_suspend_this A chan q self k).
Proof.
  intros w Hinv. unfold wakeup_queue_suspend_this, bind, deref, store, modify, coro_suspend.
  destruct (heap w !! chan) as [c|] eqn:E; simpl; [|done].
  apply cap_inv_insert; [done|]. specialize (Hinv chan c E). by destruct q.
Qed.

Lemma cap_resume_this self : respects keeps_cap (wakeup_queue_resume_this self).
Proof. intros w Hinv. unfold cap_inv in *. simpl. by apply map_Forall_fmap. Qed.

Lemma cap_wakeup_first chan q : respects keeps_cap (wakeup_queue_wakeup_first chan q).
Proof.
  intros w Hinv. unfold wakeup_queue_wakeup_first, bind, deref, pure, coro_wakeup, modify.
  destruct (heap w !! chan) eqn:E; simpl; [|done].
  by destruct (queue_of q _).
Qed.

#[global] Hint Resolve cap_errno_set cap_wakeup cap_suspend cap_yield cap_set_channels
  cap_free cap_pop_first cap_suspend_this cap_resume_this cap_wakeup_first : respects.

Lemma cap_none_blocked blocked arr : respects keeps_cap (none_blocked blocked arr).
Proof. induction arr as [|[chan|] arr IH]; simpl; respects_tac. Qed.

Lemma cap_park self d arr i : respects keeps_cap (broadcast_park self d arr i).
Proof. revert i. induction arr as [|[chan|] arr IH]; intros i; simpl; respects_tac. Qed.

Lemma cap_recv_v_copy chan n : respects keeps_cap (recv_v_copy chan n).
Proof. induction n as [|n IH]; simpl; respects_tac. Qed.

Lemma cap_close_drain q : respects keeps_cap (close_drain q).
Proof. induction q as [|c q IH]; simpl; respects_tac. Qed.

#[global] Hint Resolve cap_none_blocked cap_park cap_recv_v_copy cap_close_drain
  : respects.

Lemma cap_close b channel : respects keeps_cap (coro_bus_channel_close b channel).
Proof.
  intros w. unfold coro_bus_channel_close.
  destruct (check_channel b channel w) as [chan|]; [|done].
  generalize (<[Z.to_nat channel := None]> (default [] (channels (bus w)))).
  intros arr. revert w.
  change (respects keeps_cap
    (do c <- deref chan;
     close_drain (recv_queue c);; close_drain (send_queue c);;
     free_channel chan;; set_channels arr;; pure RetVoid)).
  respects_tac.
Qed.

Lemma cap_recv_loop self channel chan :
  respects keeps_cap (coro_bus_recv_loop self channel chan).
Proof. unfold coro_bus_recv_loop. respects_tac. Qed.

Lemma cap_recv self b channel : respects keeps_cap (coro_bus_recv self b channel).
Proof. pose proof cap_recv_loop. unfold coro_bus_recv. respects_tac. Qed.

Lemma cap_recv_resume self channel chan :
  respects keeps_cap (coro_bus_recv_resume self channel chan).
Proof. pose proof cap_recv_loop. unfold coro_bus_recv_resume. respects_tac. Qed.

Lemma cap_try_recv b channel : respects keeps_cap (coro_bus_try_recv b channel).
Proof. unfold coro_bus_try_recv. respects_tac. Qed.

Lemma cap_try_recv_v b channel data_nonnull capacity :
  respects keeps_cap (coro_bus_try_recv_v b channel data_nonnull capacity).
Proof. unfold coro_bus_try_recv_v. respects_tac. Qed.

Lemma cap_recv_v_turn self channel data_nonnull capacity :
  respects keeps_cap (coro_bus_recv_v_turn self channel data_nonnull capacity).
Proof. pose proof cap_try_recv_v. unfold coro_bus_recv_v_turn. respects_tac. Qed.

Lemma cap_recv_v self b channel data_nonnull capacity :
  respects keeps_cap (coro_bus_recv_v self b channel data_nonnull capacity).
Proof. pose proof cap_recv_v_turn. unfold coro_bus_recv_v. respects_tac. Qed.

Lemma cap_recv_v_resume self channel capacity :
  respects keeps_cap (coro_bus_recv_v_resume self channel capacity).
Proof. pose proof cap_recv_v_turn. unfold coro_bus_recv_v_resume. respects_tac. Qed.

(** An append that the test [size < size_limit] guards. *)
Lemma cap_append_guarded chan c d w :
  heap w !! chan = Some c ->
  data_size (chan_data c) < size_limit c ->
  keeps_cap w (channel_append chan d w).2.
Proof.
  intros Hc Hroom Hinv. rewrite (channel_append_eq _ c) by done.
  apply cap_inv_insert; [done|]. simpl. rewrite data_size_append. lia.
Qed.

Lemma cap_send self b channel d : respects keeps_cap (coro_bus_send self b channel d).
Proof.
  intros w. unfold coro_bus_send. rewrite bind_get.
  destruct (check_channel b channel w) as [chan|]; [|by apply cap_inv_heap].
  unfold bind at 1, deref. destruct (heap w !! chan) as [c|] eqn:Hc; [|done].
  destruct (_ <? _) eqn:E; [|by apply cap_suspend_this].
  pose proof (cap_append_guarded chan c d w Hc) as Happ.
  rewrite (channel_append_eq _ c) in Happ by done.
  erewrite bind_Done by by apply channel_append_eq.
  etrans; [apply Happ; lia|].
  apply (respects_apply _). respects_tac.
Qed.

Lemma cap_send_resume self channel chan d :
  respects keeps_cap (coro_bus_send_resume self channel chan d).
Proof. pose proof cap_send. unfold coro_bus_send_resume. respects_tac. Qed.

Lemma cap_try_send b channel d : respects keeps_cap (coro_bus_try_send b channel d).
Proof.
  intros w. unfold coro_bus_try_send. rewrite bind_get.
  destruct (check_channel b channel w) as [chan|]; [|by apply cap_inv_heap].
  unfold bind at 1, deref. destruct (heap w !! chan) as [c|] eqn:Hc; [|done].
  destruct (_ >=? _) eqn:E; [by apply cap_inv_heap|].
  pose proof (cap_append_guarded chan c d w Hc) as Happ.
  rewrite (channel_append_eq _ c) in Happ by done.
  erewrite bind_Done by by apply channel_append_eq.
  etrans; [apply Happ; lia|].
  apply (respects_apply _). respects_tac.
Qed.

Lemma space_le z : 0 <= z -> 0 <= to_unsigned (to_size_t z) <= z.
Proof.
  intros H. unfold to_unsigned, to_size_t, UINT_MOD, SIZE_MOD.
  pose proof (Z.mod_pos_bound z (2 ^ 64) ltac:(lia)).
  pose proof (Z.mod_le z (2 ^ 64) H ltac:(lia)).
  pose proof (Z.mod_pos_bound (z mod 2 ^ 64) (2 ^ 32) ltac:(lia)).
  pose proof (Z.mod_le (z mod 2 ^ 64) (2 ^ 32) ltac:(lia) ltac:(lia)).
  lia.
Qed.

Lemma cap_send_v_copy n : forall chan src sent i w c,
  heap w !! chan = Some c ->
  data_size (chan_data c) + Z.of_nat n <= size_limit c ->
  keeps_cap w (send_v_copy chan src sent i n w).2.
Proof.
  induction n as [|n IH]; intros chan src sent i w c Hc Hroom; simpl; [by intros ?|].
  destruct (src !! _) as [d|]; [|by intros ?].
  pose proof (cap_append_guarded chan c d w Hc ltac:(lia)) as Happ.
  rewrite (channel_append_eq _ c) in Happ by done.
  erewrite bind_Done by by apply channel_append_eq.
  erewrite bind_Done by (eapply wakeup_first_eq; simpl; apply lookup_insert_eq).
  etrans; [exact Happ|]. etrans; [|eapply IH].
  - by apply cap_inv_heap.
  - simpl. apply lookup_insert_eq.
  - simpl. rewrite data_size_append. lia.
Qed.

Lemma cap_send_v_turn self channel chan src count sent :
  respects keeps_cap (coro_bus_send_v_turn self channel chan src count sent).
Proof.
  intros w. unfold coro_bus_send_v_turn.
  unfold bind at 1, slot. destruct (read_slot channel w) as [s|]; [|reflexivity].
  destruct (decide (s = Some chan)) as [->|]; [|by apply cap_inv_heap].
  unfold bind at 1, deref. destruct (heap w !! chan) as [c|] eqn:Hc; [|reflexivity].
  destruct (_ =? 0) eqn:E; [by apply cap_suspend_this|].
  apply (respects_bind_at _); [|intros ?; respects_tac].
  intros Hinv. eapply cap_send_v_copy; [done| |done].
  specialize (Hinv chan c Hc). simpl in Hinv.
  pose proof (space_le (size_limit c - data_size (chan_data c)) ltac:(lia)) as Hspace.
  pose proof (data_size_nonneg (chan_data c)).
  assert (0 <= to_unsigned (count - sent)) as Ha.
  { unfold to_unsigned. apply Z.mod_pos_bound. done. }
  revert Hspace Ha.
  generalize (to_unsigned (to_size_t (size_limit c - data_size (chan_data c)))).
  generalize (to_unsigned (count - sent)). intros a space Hspace Ha.
  destruct (a <? space) eqn:E'; lia.
Qed.

Lemma cap_send_v self b channel src count :
  respects keeps_cap (coro_bus_send_v self b channel src count).
Proof. pose proof cap_send_v_turn. unfold coro_bus_send_v. respects_tac. Qed.

Lemma cap_send_v_resume self channel chan src count sent :
  respects keeps_cap (coro_bus_send_v_resume self channel chan src count sent).
Proof. pose proof cap_send_v_turn. unfold coro_bus_send_v_resume. respects_tac. Qed.

Lemma cap_try_send_v b channel src count :
  respects keeps_cap (coro_bus_try_send_v b channel src count).
Proof.
  intros w. unfold coro_bus_try_send_v. rewrite bind_get.
  destruct (check_channel b channel w) as [chan|]; [|by apply cap_inv_heap].
  destruct src as [src|]; [|by apply cap_inv_heap].
  unfold bind at 1, deref. destruct (heap w !! chan) as [c|] eqn:Hc; [|reflexivity].
  destruct (_ =? 0) eqn:E; [by apply cap_inv_heap|].
  apply (respects_bind_at _); [|intros ?; respects_tac].
  intros Hinv. eapply cap_send_v_copy; [done| |done].
  specialize (Hinv chan c Hc). simpl in Hinv.
  pose proof (space_le (size_limit c - data_size (chan_data c)) ltac:(lia)) as Hspace.
  pose proof (data_size_nonneg (chan_data c)).
  revert Hspace.
  generalize (to_unsigned (to_size_t (size_limit c - data_size (chan_data c)))).
  intros space Hspace.
  destruct (count <? space) eqn:E'; lia.
Qed.

(** The commit loop of the two broadcasts keeps the invariant when every
    open channel has room and no two slots share a channel. *)
Lemma cap_commit d arr : forall w,
  (forall i j chan, arr !! i = Some (Some chan) -> arr !! j = Some (Some chan) -> i = j) ->
  (forall i chan, arr !! i = Some (Some chan) ->
     exists c, heap w !! chan = Some c /\ data_size (chan_data c) < size_limit c) ->
  keeps_cap w (broadcast_commit arr d w).2.
Proof.
  induction arr as [|[chan|] arr IH]; intros w Halias Hroom; simpl.
  - reflexivity.
  - destruct (Hroom 0%nat chan eq_refl) as (c & Hc & Hlt).
    pose proof (cap_append_guarded chan c d w Hc Hlt) as Happ.
    rewrite (channel_append_eq _ c) in Happ by done.
    erewrite bind_Done by by apply channel_append_eq.
    erewrite bind_Done by (eapply wakeup_first_eq; simpl; apply lookup_insert_eq).
    etrans; [exact Happ|]. etrans; [|eapply IH].
    + by apply cap_inv_heap.
    + intros i j chan' Hi Hj. specialize (Halias (S i) (S j) chan' Hi Hj). lia.
    + intros i chan' Hi. simpl.
      assert (chan' ≠ chan) as Hne.
      { intros ->. specialize (Halias (S i) 0%nat chan Hi eq_refl). lia. }
      rewrite lookup_insert_ne by done. apply (Hroom (S i) chan' Hi).
  - apply IH.
    + intros i j chan' Hi Hj. specialize (Halias (S i) (S j) chan' Hi Hj). lia.
    + intros i chan' Hi. apply (Hroom (S i) chan' Hi).
Qed.

Lemma none_blocked_true blocked arr w w' :
  none_blocked blocked arr w = (Done true, w') ->
  forall i chan, arr !! i = Some (Some chan) ->
    exists c, heap w !! chan = Some c /\ blocked c = false.
Proof.
  induction arr as [|[chan|] arr IH]; simpl; intros H i chan' Hi; [done| |].
  - unfold bind, deref in H. destruct (heap w !! chan) as [c|] eqn:Hc; [|done].
    destruct (blocked c) eqn:Hb; [done|].
    destruct i as [|i]; simpl in Hi; [simplify_eq; eauto|]. eauto.
  - destruct i as [|i]; simpl in Hi; [done|]. eauto.
Qed.

Lemma cap_try_broadcast b d w :
  world_wf w -> keeps_cap w (coro_bus_try_broadcast b d w).2.
Proof.
  intros Hwf. unfold coro_bus_try_broadcast. rewrite bind_get.
  destruct b; [by apply cap_inv_heap|].
  destruct (channels (bus w)) as [arr|] eqn:Harr; [|by apply cap_inv_heap].
  destruct (_ =? 0); [by apply cap_inv_heap|].
  destruct (negb _); [by apply cap_inv_heap|].
  unfold bind at 1.
  destruct (none_blocked full arr w) as [[[]| | |] w1] eqn:Hnb;
    pose proof (none_blocked_world _ _ _ _ _ Hnb) as ->; try reflexivity.
  - apply (respects_bind_at _); [|intros ?; respects_tac].
    apply cap_commit.
    + destruct Hwf as [_ Halias _]. unfold slots in Halias. rewrite Harr in Halias.
      exact Halias.
    + intros i chan Hi.
      destruct (none_blocked_true _ _ _ _ Hnb i chan Hi) as (c & Hc & Hfull).
      exists c. split; [done|]. unfold full in Hfull. lia.
  - by apply cap_inv_heap.
Qed.

Lemma park_Done self d arr : forall i w w',
  broadcast_park self d arr i w = (Done tt, w') -> w' = w.
Proof.
  induction arr as [|[chan|] arr IH]; intros i w w' H; simpl in H.
  - unfold pure in H. by simplify_eq.
  - unfold bind, deref in H. destruct (heap w !! chan) as [c|] eqn:Hc; [|done].
    destruct (full_without_receiver c); [|eauto].
    unfold wakeup_queue_suspend_this, bind, deref in H. by rewrite Hc in H.
  - eauto.
Qed.

Lemma cap_broadcast self b d w :
  world_wf w -> no_receiver_on_full w ->
  keeps_cap w (coro_bus_broadcast self b d w).2.
Proof.
  intros Hwf Hnr. unfold coro_bus_broadcast. rewrite bind_get.
  destruct b; [by apply cap_inv_heap|].
  destruct (channels (bus w)) as [arr|] eqn:Harr; [|by apply cap_inv_heap].
  destruct (_ =? 0); [by apply cap_inv_heap|].
  destruct (negb _); [by apply cap_inv_heap|].
  unfold bind at 1.
  destruct (none_blocked full_without_receiver arr w) as [[[]| | |] w1] eqn:Hnb;
    pose proof (none_blocked_world _ _ _ _ _ Hnb) as ->; try reflexivity.
  - apply (respects_bind_at _); [|intros ?; respects_tac].
    apply cap_commit.
    + destruct Hwf as [_ Halias _]. unfold slots in Halias. rewrite Harr in Halias.
      exact Halias.
    + intros i chan Hi.
      destruct (none_blocked_true _ _ _ _ Hnb i chan Hi) as (c & Hc & Hfull).
      exists c. split; [done|].
      destruct (full c) eqn:Hf; [|unfold full in Hf; lia].
      specialize (Hnr chan c Hc Hf). unfold full_without_receiver, full in *.
      rewrite Hf, Hnr in Hfull. done.
  - apply (respects_apply _). respects_tac.
Qed.

Lemma no_receiver_resume_this self w :
  no_receiver_on_full w -> no_receiver_on_full (wakeup_queue_resume_this self w).2.
Proof.
  intros Hnr chan c'. simpl. rewrite lookup_fmap.
  destruct (heap w !! chan) as [c|] eqn:Hc; simpl; [|done].
  intros [= <-] Hfull. simpl. unfold full in *. simpl in Hfull.
  by rewrite (Hnr chan c Hc Hfull).
Qed.

Lemma cap_broadcast_resume self i d w :
  world_wf w -> no_receiver_on_full w ->
  keeps_cap w (coro_bus_broadcast_resume self i d w).2.
Proof.
  intros Hwf Hnr. unfold coro_bus_broadcast_resume.
  unfold bind at 1.
  pose proof (cap_resume_this self w) as Hcap.
  pose proof (shape_resume_this self w) as Hshape.
  pose proof (no_receiver_resume_this self w Hnr) as Hnr1.
  destruct (wakeup_queue_resume_this self w) as [o w1] eqn:E.
  unfold wakeup_queue_resume_this, modify in E. simplify_eq. simpl in *.
  set (w1 := set_heap (unlink_entry self <$> heap w) w) in *.
  etrans; [exact Hcap|]. rewrite bind_get. unfold bind.
  destruct (broadcast_park _ _ _ _ w1) as [[[]| | |] w2] eqn:Hpark.
  - apply park_Done in Hpark as ->.
    apply cap_broadcast; [|done]. by eapply world_wf_shape.
  - pose proof (cap_park self d (drop (Z.to_nat (i + 1)) (default [] (channels (bus w1))))
                  (i + 1) w1) as H. by rewrite Hpark in H.
  - pose proof (cap_park self d (drop (Z.to_nat (i + 1)) (default [] (channels (bus w1))))
                  (i + 1) w1) as H. by rewrite Hpark in H.
  - pose proof (cap_park self d (drop (Z.to_nat (i + 1)) (default [] (channels (bus w1))))
                  (i + 1) w1) as H. by rewrite Hpark in H.
Qed.

Lemma cap_open b limit malloc_ok realloc_ok w :
  0 <= limit ->
  keeps_cap w (coro_bus_channel_open b limit malloc_ok realloc_ok w).2.
Proof.
  intros Hlimit. unfold coro_bus_channel_open.
  destruct malloc_ok; simpl; [|reflexivity].
  apply (respects_bind_at _); [|intros ?; respects_tac].
  intros Hinv. unfold cap_inv. simpl. by apply cap_inv_insert.
Qed.

(** C1, the failure of the claim: a channel of limit 1 on which a receiver
    is suspended gets one message from [coro_bus_try_send] (the receiver is
    woken but has not run yet) and a second one from [coro_bus_broadcast]:
    two messages in a channel of limit 1. *)
Lemma broadcast_exceeds_capacity :
  let w0 := one_channel 1 in
  let w1 := exec (coro_bus_recv 1%nat BUS 0) w0 in
  let w2 := exec (coro_bus_try_send BUS 0 5) w1 in
  let r := coro_bus_broadcast 2%nat BUS 7 w2 in
  (coro_bus_recv 1%nat BUS 0 w0).1 = Parked (KRecv 0 0%nat) /\
  (coro_bus_try_send BUS 0 5 w1).1 = Done (RetInt 0 []) /\
  heap w2 !! 0%nat = Some (Channel 1 [] [1%nat] (DataVector [5] 4)) /\
  cap_inv w2 /\
  r.1 = Done (RetInt 0 []) /\
  heap r.2 !! 0%nat = Some (Channel 1 [] [1%nat] (DataVector [5; 7] 4)) /\
  ~ cap_inv r.2.
Proof.
  split_and!; try (vm_compute; reflexivity).
  - unfold cap_inv.
    assert (heap (exec (coro_bus_try_send BUS 0 5)
                    (exec (coro_bus_recv 1%nat BUS 0) (one_channel 1)))
            = <[0%nat := Channel 1 [] [1%nat] (DataVector [5] 4)]> ∅) as ->
      by (vm_compute; reflexivity).
    apply map_Forall_insert_2; [vm_compute; discriminate|apply map_Forall_empty].
  - intros H. specialize (H 0%nat _ eq_refl). vm_compute in H. by apply H.
Qed.

Lemma cap_run self s w :
  world_wf w -> typed_segment s ->
  (broadcast_segment s = true -> no_receiver_on_full w) ->
  keeps_cap w (run self s w).2.
Proof.
  intros Hwf Htyped Hnr. destruct s as [c|k]; simpl.
  - destruct c; simpl in *.
    + apply cap_open. lia.
    + apply cap_close.
    + apply cap_send.
    + apply cap_try_send.
    + apply cap_recv.
    + apply cap_try_recv.
    + by apply cap_broadcast; [|apply Hnr].
    + by apply cap_try_broadcast.
    + apply cap_send_v.
    + apply cap_try_send_v.
    + apply cap_recv_v.
    + apply cap_try_recv_v.
  - destruct k; simpl in *.
    + apply cap_send_resume.
    + apply cap_recv_resume.
    + by apply cap_broadcast_resume; [|apply Hnr].
    + by apply cap_broadcast; [|apply Hnr].
    + apply cap_send_v_resume.
    + apply cap_recv_v_resume.
Qed.

(** C1, amended: every segment of every function other than
    [coro_bus_broadcast] (send, try_send, try_broadcast, send_v,
    try_send_v, and the functions that do not append) keeps every channel
    at or below its limit; [coro_bus_broadcast] keeps it when no full
    channel has a receiver in its wait queue. *)
Theorem capacity_invariant self s w :
  world_wf w ->
  typed_segment s ->
  cap_inv w ->
  (broadcast_segment s = true -> no_receiver_on_full w) ->
  cap_inv (exec (run self s) w).
Proof. intros Hwf Htyped Hinv Hnr. by apply cap_run. Qed.

Lemma capacity_invariant_witness :
  cap_inv (exec (run 1%nat (Call (Broadcast BUS 7))) (one_channel 2)).
Proof.
  assert (heap (one_channel 2) = <[0%nat := new_channel 2]> ∅) as Hheap
    by (vm_compute; reflexivity).
  apply capacity_invariant.
  - apply (world_wf_run 1%nat (Call (Open BUS 2 true true))), world_wf_new.
  - exact I.
  - unfold cap_inv. rewrite Hheap.
    apply map_Forall_insert_2; [vm_compute; discriminate|apply map_Forall_empty].
  - intros _ chan c Hc Hfull. rewrite Hheap in Hc.
    apply lookup_insert_Some in Hc as [[_ <-]|[_ Hc]]; [done|].
    by rewrite lookup_empty in Hc.
Defined.

Lemma cap_step_without_broadcast s s' :
  step_without_broadcast s s' ->
  world_wf (sys_world s) /\ cap_inv (sys_world s) ->
  world_wf (sys_world s') /\ cap_inv (sys_world s').
Proof.
  intros (self & seg & Hnb & Htyped & Hstep) [Hwf Hinv].
  split; [apply (world_wf_step s); [by exists self, seg|done]|].
  destruct Hstep as [c w ts a o w' _ Ha Hrun _|k w ts o w' _ _ Hrun _]; simpl in *.
  - pose proof (cap_run self (Call c) (set_next_addr a w)) as H. simpl in H.
    rewrite Hrun in H. apply H; [by apply world_wf_alloc|done| |done].
    intros E. by rewrite Hnb in E.
  - pose proof (cap_run self (Resume k) (set_runnable (runnable w ∖ {[self]}) w)) as H.
    simpl in H. rewrite Hrun in H. apply H; [|done| |done].
    + by eapply world_wf_shape; [|exact Hwf].
    + intros E. by rewrite Hnb in E.
Qed.

(** As long as no coroutine calls [coro_bus_broadcast], no state between
    two segments has a channel above its limit. *)
Lemma capacity_without_broadcast s :
  rtc step_without_broadcast initial s -> cap_inv (sys_world s).
Proof.
  intros H. cut (world_wf (sys_world s) /\ cap_inv (sys_world s)); [by intros [_ ?]|].
  revert s H. apply rtc_ind_r.
  - split; [apply world_wf_new|]. intros chan c Hc. simpl in Hc.
    by rewrite lookup_empty in Hc.
  - intros s1 s2 _ Hstep IH. by eapply cap_step_without_broadcast.
Qed.

(** ** Entries of suspended coroutines *)

Lemma no_suspend_malloc c : no_suspend (malloc_channel c).
Proof. by intros w. Qed.

Lemma no_suspend_free chan : no_suspend (free_channel chan).
Proof. apply no_suspend_modify. Qed.

Lemma no_suspend_set_channels arr : no_suspend (set_channels arr).
Proof. apply no_suspend_modify. Qed.

Lemma no_suspend_errno : no_suspend coro_bus_errno.
Proof. by intros w. Qed.

#[global] Hint Resolve no_suspend_malloc no_suspend_free no_suspend_set_channels
  no_suspend_errno : no_suspend.

Lemma no_suspend_close_drain q : no_suspend (close_drain q).
Proof. induction q as [|c q IH]; simpl; no_suspend_tac. Qed.

#[global] Hint Resolve no_suspend_close_drain : no_suspend.

Section suspends_linked.
Context (self : coro).




End suspends_linked.











Lemma settle_self self o ts k :
  settle self o ts !! self = Some k -> o = Parked k \/ o = Yielded k.
Proof.
  destruct o; simpl; rewrite ?lookup_insert_eq, ?lookup_delete_eq; intros; simplify_eq; auto.
Qed.

Lemma settle_other self o ts t : t ≠ self -> settle self o ts !! t = ts !! t.
Proof.
  intros Hne. destruct o; simpl; by rewrite ?lookup_insert_ne, ?lookup_delete_ne.
Qed.

(** ** Closed channels *)

Lemma read_slot_Some channel w s :
  read_slot channel w = Some s <->
  exists arr, channels (bus w) = Some arr /\ 0 <= channel /\ arr !! Z.to_nat channel = Some s.
Proof.
  unfold read_slot. destruct (channels (bus w)) as [arr|].
  - destruct (channel <? 0) eqn:E.
    + split; [done|]. intros (? & ? & ? & ?). lia.
    + split; [intros H; exists arr; split_and!; [done|lia|done]|].
      by intros (? & [= <-] & _ & ?).
  - split; [done|]. by intros (? & ? & _).
Qed.

Lemma close_drain_eq q w :
  close_drain q w =
    (Done tt,
     World (bus w) (heap w) (next_addr w)
       (match q with [] => global_error w | _ => CORO_BUS_ERR_NO_CHANNEL end)
       (list_to_set q ∪ runnable w)).
Proof.
  revert w. induction q as [|c q IH]; intros w; simpl.
  - unfold pure. destruct w. simpl. f_equal. f_equal. by rewrite union_empty_l_L.
  - unfold bind at 1 2. simpl. rewrite IH. simpl. f_equal. f_equal.
    + by destruct q.
    + apply set_eq. intros x. rewrite !elem_of_union. tauto.
Qed.

(** What [coro_bus_channel_close] does to an open channel: every entry of
    both wait queues is woken, the channel is freed, the slot is empty. *)
Lemma close_eq channel chan c arr w :
  check_channel BUS channel w = Some chan ->
  heap w !! chan = Some c ->
  channels (bus w) = Some arr ->
  coro_bus_channel_close BUS channel w =
    (Done RetVoid,
     World (Bus (Some (<[Z.to_nat channel := None]> arr)))
       (delete chan (heap w)) chan
       (match recv_queue c, send_queue c with
        | [], [] => global_error w
        | _, _ => CORO_BUS_ERR_NO_CHANNEL
        end)
       (list_to_set (send_queue c) ∪ (list_to_set (recv_queue c) ∪ runnable w))).
Proof.
  intros Hcheck Hc Harr. unfold coro_bus_channel_close. rewrite Hcheck.
  rewrite (bind_Done _ _ _ c w) by by apply deref_eq.
  erewrite bind_Done by apply close_drain_eq.
  erewrite bind_Done by apply close_drain_eq.
  unfold bind, free_channel, set_channels, modify, pure. simpl. rewrite Harr. simpl.
  f_equal. unfold set_bus, set_heap. simpl. f_equal.
  by destruct (recv_queue c), (send_queue c).
Qed.

(** A coroutine that was suspended in send or receive continues when its
    slot holds no channel, or one at another address: it returns -1 with
    [CORO_BUS_ERR_NO_CHANNEL]. *)
Lemma resume_retired self channel chan k w :
  retired channel chan w ->
  parked_on channel chan k ->
  exists w',
    run self (Resume k) w = (Done RetFail, w') /\
    global_error w' = CORO_BUS_ERR_NO_CHANNEL.
Proof.
  intros (s & Hs & Hne) Hk.
  assert (forall w1, bus w1 = bus w -> slot channel w1 = (Done s, w1)) as Hslot.
  { intros w1 Hb. unfold slot, read_slot in *. by rewrite Hb, Hs. }
  destruct Hk as [[d ->]|[->|(src & count & sent & ->)]]; simpl.
  - unfold coro_bus_send_resume, wakeup_queue_resume_this.
    erewrite bind_Done by reflexivity.
    erewrite bind_Done by by apply Hslot.
    rewrite decide_False by done. eexists. split; reflexivity.
  - unfold coro_bus_recv_resume, wakeup_queue_resume_this.
    erewrite bind_Done by reflexivity.
    erewrite bind_Done by by apply Hslot.
    rewrite decide_False by done. eexists. split; reflexivity.
  - unfold coro_bus_send_v_resume, wakeup_queue_resume_this.
    erewrite bind_Done by reflexivity.
    erewrite bind_Done by by apply Hslot.
    rewrite decide_False by done. eexists. split; reflexivity.
Qed.

(** A coroutine that was suspended in [coro_bus_recv_v] continues when
    its handle names no channel: it returns -1 with
    [CORO_BUS_ERR_NO_CHANNEL]. *)
Lemma resume_closed_recv_v self channel cap w :
  check_channel BUS channel w = None ->
  exists w',
    run self (Resume (KRecvV channel cap)) w = (Done RetFail, w') /\
    global_error w' = CORO_BUS_ERR_NO_CHANNEL.
Proof.
  intros Hcheck. simpl. unfold coro_bus_recv_v_resume, wakeup_queue_resume_this.
  erewrite bind_Done by reflexivity.
  set (w1 := set_heap (unlink_entry self <$> heap w) w).
  assert (Htry : coro_bus_try_recv_v BUS channel true cap w1
                 = (Done RetFail, with_error CORO_BUS_ERR_NO_CHANNEL w1)).
  { unfold coro_bus_try_recv_v. rewrite bind_get.
    by rewrite (check_channel_bus _ _ w w1), Hcheck. }
  unfold coro_bus_recv_v_turn. rewrite (bind_Done _ _ _ _ _ Htry). simpl.
  unfold coro_bus_errno. erewrite bind_Done by reflexivity.
  rewrite decide_False by done. eexists. split; reflexivity.
Qed.

Lemma parked_receiver_reachable : reachable parked_receiver.
Proof.
  unfold reachable, initial, parked_receiver.
  eapply rtc_l.
  { exists 0%nat, (Call (Open BUS 1 true true)).
    apply (step_call 0%nat (Open BUS 1 true true) coro_bus_new ∅ 0%nat
             (Done (RetInt 0 [])) (one_channel 1)); [done|done|done|done]. }
  eapply rtc_l; [|apply rtc_refl].
  exists 1%nat, (Call (Recv BUS 0)).
  apply (step_call 1%nat (Recv BUS 0) (one_channel 1) _ 1%nat
           (Parked (KRecv 0 0%nat))); [done|done|vm_compute; reflexivity|done].
Qed.

#[global] Instance keeps_runnable_preorder t : PreOrder (keeps_runnable t).
Proof.
  split; [intros w H; exact H|]. intros w1 w2 w3 H12 H23 H. apply H23, H12, H.
Qed.



(** C2, the failing input.  Coroutine 1 is suspended in [coro_bus_recv] on
    handle 0.  Coroutine 0 closes the channel, which wakes coroutine 1,
    and opens a channel again: the handle is 0 again, and [malloc] may
    hand out the block that the close has just freed.  When coroutine 1
    continues, the test [bus->channels[channel] != chan] finds the same
    address in the slot and does not notice that the channel it waited on
    was closed: with no message in the new channel it suspends again, and
    after a [coro_bus_try_send] of 42 to the new channel it returns 0 with
    that message, where it should return -1 with
    [CORO_BUS_ERR_NO_CHANNEL]. *)
Theorem reopened_channel_goes_unnoticed :
  reachable parked_receiver /\
  exists s1 s2 s3 w' w'',
    step 0%nat (Call (Close BUS 0)) parked_receiver s1 /\
    heap (sys_world s1) = ∅ /\
    tasks s1 !! 1%nat = Some (KRecv 0 0%nat) /\
    1%nat ∈ runnable (sys_world s1) /\
    step 0%nat (Call (Open BUS 1 true true)) s1 s2 /\
    run 1%nat (Resume (KRecv 0 0%nat))
        (set_runnable (runnable (sys_world s2) ∖ {[1%nat]}) (sys_world s2))
      = (Parked (KRecv 0 0%nat), w') /\
    step 0%nat (Call (TrySend BUS 0 42)) s2 s3 /\
    tasks s3 !! 1%nat = Some (KRecv 0 0%nat) /\
    1%nat ∈ runnable (sys_world s3) /\
    run 1%nat (Resume (KRecv 0 0%nat))
        (set_runnable (runnable (sys_world s3) ∖ {[1%nat]}) (sys_world s3))
      = (Done (RetInt 0 [42]), w'').
Proof.
  split; [exact parked_receiver_reachable|].
  set (w1 := exec (run 0%nat (Call (Close BUS 0))) (sys_world parked_receiver)).
  set (ts := tasks parked_receiver).
  set (w2 := exec (run 0%nat (Call (Open BUS 1 true true))) w1).
  set (w3 := exec (run 0%nat (Call (TrySend BUS 0 42))) w2).
  exists (System w1 (settle 0%nat (Done RetVoid) ts)),
    (System w2 (settle 0%nat (Done (RetInt 0 [])) (settle 0%nat (Done RetVoid) ts))),
    (System w3 (settle 0%nat (Done (RetInt 0 []))
                  (settle 0%nat (Done (RetInt 0 [])) (settle 0%nat (Done RetVoid) ts)))).
  eexists _, _. split_and!.
  - apply (step_call 0%nat (Close BUS 0) _ _ 1%nat); [done|done|by vm_compute|done].
  - by vm_compute.
  - by vm_compute.
  - by vm_compute.
  - apply (step_call 0%nat (Open BUS 1 true true) _ _ 0%nat);
      [done|by vm_compute|by vm_compute|done].
  - vm_compute. reflexivity.
  - apply (step_call 0%nat (TrySend BUS 0 42) _ _ 1%nat);
      [done|by vm_compute|by vm_compute|done].
  - by vm_compute.
  - by vm_compute.
  - vm_compute. reflexivity.
Qed.

(** ** The return value seen by the caller *)

Lemma first_free_slot_nonneg arr k i : first_free_slot arr k = Some i -> k <= i.
Proof. intros H. by apply first_free_slot_Some in H as [? _]. Qed.

Lemma to_int_nonneg z : 0 <= z <= INT_MAX -> 0 <= to_int z.
Proof. intros H. rewrite to_int_in_range; lia. Qed.

Lemma min_space_nonneg count space :
  0 <= count <= INT_MAX -> 0 <= space ->
  0 <= (if count <? space then count else space) <= INT_MAX.
Proof. intros. destruct (count <? space) eqn:E; lia. Qed.

Lemma to_unsigned_nonneg z : 0 <= to_unsigned z.
Proof. unfold to_unsigned. apply Z.mod_pos_bound. done. Qed.

Lemma min_count_int count space :
  0 <= count <= INT_MAX -> 0 <= space ->
  to_int (if count <? space then count else space) ≠ -1.
Proof.
  intros Hc Hs. rewrite to_int_in_range; destruct (count <? space) eqn:E; lia.
Qed.

Lemma try_send_v_ret b channel src count w r w' :
  0 <= count <= INT_MAX ->
  coro_bus_try_send_v b channel src count w = (Done r, w') ->
  ret_int r = -1 -> r = RetFail.
Proof.
  intros Hcount Hrun Hret. unfold coro_bus_try_send_v in Hrun.
  rewrite bind_get in Hrun.
  destruct (check_channel b channel w) as [chan|]; [destruct src as [src|]|];
    try (munfold; by simplify_eq).
  apply bind_Done_inv in Hrun as (c & w0 & _ & Hrun).
  destruct (_ =? 0); [munfold; by simplify_eq|].
  apply bind_Done_inv in Hrun as (? & w1 & _ & Hrun).
  apply bind_Done_inv in Hrun as (? & w2 & _ & Hrun).
  unfold pure in Hrun. simplify_eq. simpl in Hret.
  by apply min_count_int in Hret; [|done|apply to_unsigned_nonneg].
Qed.

Lemma try_recv_v_ret b channel data_nonnull capacity w r w' :
  0 <= capacity <= INT_MAX ->
  coro_bus_try_recv_v b channel data_nonnull capacity w = (Done r, w') ->
  ret_int r = -1 -> r = RetFail.
Proof.
  intros Hcap Hrun Hret. unfold coro_bus_try_recv_v in Hrun.
  rewrite bind_get in Hrun.
  destruct (check_channel b channel w) as [chan|]; [destruct data_nonnull|];
    try (munfold; by simplify_eq).
  apply bind_Done_inv in Hrun as (c & w0 & _ & Hrun).
  destruct (_ =? 0); [munfold; by simplify_eq|].
  apply bind_Done_inv in Hrun as (out & w1 & _ & Hrun).
  apply bind_Done_inv in Hrun as (? & w2 & _ & Hrun).
  unfold pure in Hrun. simplify_eq. simpl in Hret.
  pose proof (data_size_nonneg (chan_data c)) as Hsize.
  rewrite to_unsigned_small in Hret
    by (unfold UINT_MOD, INT_MAX in *; destruct (capacity <? _) eqn:E; lia).
  by apply min_count_int in Hret.
Qed.

Lemma send_v_turn_ret self channel chan src count w r w' :
  0 <= count <= INT_MAX ->
  coro_bus_send_v_turn self channel chan src count 0 w = (Done r, w') ->
  ret_int r = -1 -> r = RetFail.
Proof.
  intros Hcount Hrun Hret. unfold coro_bus_send_v_turn in Hrun.
  rewrite Z.sub_0_r in Hrun.
  rewrite !(to_unsigned_small count) in Hrun by (unfold UINT_MOD, INT_MAX in *; lia).
  apply bind_Done_inv in Hrun as (s & w0 & _ & Hrun).
  destruct (decide _); [|munfold; by simplify_eq].
  apply bind_Done_inv in Hrun as (c & w1 & _ & Hrun).
  destruct (_ =? 0).
  { unfold wakeup_queue_suspend_this in Hrun.
    apply bind_Done_inv in Hrun as (? & ? & _ & Hrun).
    apply bind_Done_inv in Hrun as (? & ? & _ & Hrun). done. }
  apply bind_Done_inv in Hrun as (? & w2 & _ & Hrun).
  apply bind_Done_inv in Hrun as (? & w3 & _ & Hrun).
  unfold pure in Hrun. simplify_eq. simpl in Hret. rewrite Z.add_0_l in Hret.
  pose proof (to_unsigned_nonneg (to_size_t (size_limit c - data_size (chan_data c)))).
  rewrite to_unsigned_small in Hret
    by (unfold UINT_MOD, INT_MAX in *; destruct (count <? _) eqn:E; lia).
  by apply min_count_int in Hret.
Qed.

Lemma recv_v_turn_ret self channel data_nonnull capacity w r w' :
  0 <= capacity <= INT_MAX ->
  coro_bus_recv_v_turn self channel data_nonnull capacity w = (Done r, w') ->
  ret_int r = -1 -> r = RetFail.
Proof.
  intros Hcap Hrun Hret. unfold coro_bus_recv_v_turn in Hrun.
  apply bind_Done_inv in Hrun as (r0 & w0 & Htry & Hrun).
  destruct (ret_int r0 <? 0) eqn:E.
  - munfold. mcases; done.
  - munfold. mcases; try done; lia.
Qed.

(** With batch sizes that fit an [int], the caller sees -1 exactly when
    the function left through [return -1]. *)
Lemma minus_one_is_failure self s w r w' :
  int_sized s ->
  run self s w = (Done r, w') ->
  ret_int r = -1 -> r = RetFail.
Proof.
  intros Hsized Hrun Hret. destruct s as [c|k]; simpl in *.
  - destruct c; simpl in Hrun.
    + unfold coro_bus_channel_open, malloc_channel, set_channels, free_channel in Hrun.
      munfold. mcases; try done;
        try (match goal with H : first_free_slot _ _ = _ |- _ =>
               apply first_free_slot_nonneg in H end; lia);
        unfold channel_count in *; simpl in *; mcases; lia.
    + unfold coro_bus_channel_close in Hrun.
      destruct (check_channel _ _ _); [|by simplify_eq].
      unfold bind, deref in Hrun. destruct (heap w !! _); [|done].
      destruct (close_drain_Done (recv_queue c) w) as [w1 E1]. rewrite E1 in Hrun.
      destruct (close_drain_Done (send_queue c) w1) as [w2 E2]. rewrite E2 in Hrun.
      unfold free_channel, set_channels, modify, pure in Hrun. by simplify_eq.
    + unfold coro_bus_send in Hrun. munfold. mcases; done.
    + unfold coro_bus_try_send in Hrun. munfold. mcases; done.
    + unfold coro_bus_recv, coro_bus_recv_loop in Hrun. munfold. mcases; done.
    + unfold coro_bus_try_recv in Hrun. munfold. mcases; done.
    + unfold coro_bus_broadcast in Hrun. munfold. mcases; done.
    + unfold coro_bus_try_broadcast in Hrun. munfold. mcases; done.
    + unfold coro_bus_send_v in Hrun. rewrite bind_get in Hrun.
      destruct (check_channel _ _ _); [destruct src|];
        try (munfold; by simplify_eq).
      by eapply send_v_turn_ret.
    + by eapply try_send_v_ret.
    + unfold coro_bus_recv_v in Hrun. rewrite bind_get in Hrun.
      destruct (check_channel _ _ _); [destruct data_nonnull|];
        try (munfold; by simplify_eq).
      by eapply recv_v_turn_ret.
    + by eapply try_recv_v_ret.
  - destruct k; simpl in Hrun.
    + unfold coro_bus_send_resume, coro_bus_send in Hrun. munfold. mcases; done.
    + unfold coro_bus_recv_resume, coro_bus_recv_loop in Hrun. munfold. mcases; done.
    + unfold coro_bus_broadcast_resume, coro_bus_broadcast in Hrun. munfold. mcases; done.
    + unfold coro_bus_broadcast in Hrun. munfold. mcases; done.
    + destruct Hsized as [Hcount ->].
      unfold coro_bus_send_v_resume in Hrun.
      apply bind_Done_inv in Hrun as (? & w0 & _ & Hrun).
      apply bind_Done_inv in Hrun as (s0 & w1 & _ & Hrun).
      destruct (decide _); [by eapply send_v_turn_ret|]. munfold. by simplify_eq.
    + unfold coro_bus_recv_v_resume in Hrun.
      apply bind_Done_inv in Hrun as (? & w0 & _ & Hrun).
      by eapply recv_v_turn_ret.
Qed.

(** * Further properties *)

(** ** The message vector *)

(** X1: [data_vector_append_many] keeps the vector inside its storage.
    When the new size does not wrap around in [size_t], the vector grows by
    [count], the capacity never shrinks and holds the new size (so the
    [memcpy] stays inside the array), and a capacity that changes becomes
    at least 4 when there was no storage and at least twice the old one
    where that does not wrap. *)
Theorem append_many_fits vector src count :
  data_size vector <= capacity vector ->
  0 <= count <= Z.of_nat (length src) ->
  data_size vector + count < SIZE_MOD ->
  let vector' := data_vector_append_many vector src count in
  data_size vector' = data_size vector + count /\
  data_size vector' <= capacity vector' /\
  capacity vector <= capacity vector' /\
  (capacity vector' = capacity vector \/
   ((capacity vector = 0 -> 4 <= capacity vector') /\
    (capacity vector * 2 < SIZE_MOD -> capacity vector * 2 <= capacity vector'))).
Proof.
  intros Hcap Hcount Hmod. simpl.
  pose proof (data_size_nonneg vector) as Hsize.
  assert (Hnew : to_size_t (data_size vector + count) = data_size vector + count).
  { unfold to_size_t. apply Z.mod_small. lia. }
  assert (Hlen : data_size (data_vector_append_many vector src count)
                 = data_size vector + count).
  { unfold data_size, data_vector_append_many. simpl.
    rewrite length_app, length_take. unfold data_size in *. lia. }
  rewrite Hlen. split; [done|].
  unfold data_vector_append_many. simpl. rewrite Hnew.
  destruct (_ >? _) eqn:Egrow; [|lia].
  apply Z.gtb_lt in Egrow.
  destruct (capacity vector =? 0) eqn:Ezero.
  - apply Z.eqb_eq in Ezero. destruct (4 <? _) eqn:E; lia.
  - apply Z.eqb_neq in Ezero.
    destruct (_ <? _) eqn:E.
    + apply Z.ltb_lt in E. split_and!; try lia. right. split; [lia|].
      intros Hdouble. unfold to_size_t in E. rewrite Z.mod_small in E by lia. lia.
    + apply Z.ltb_ge in E. split_and!; try lia. right. split; [lia|].
      intros Hdouble. unfold to_size_t. rewrite Z.mod_small by lia. lia.
Qed.

Lemma append_many_fits_witness :
  let vector := DataVector [1; 2; 3; 4] 4 in
  let vector' := data_vector_append_many vector [5; 6] 2 in
  data_size vector' = data_size vector + 2 /\
  data_size vector' <= capacity vector' /\
  capacity vector <= capacity vector' /\
  (capacity vector' = capacity vector \/
   ((capacity vector = 0 -> 4 <= capacity vector') /\
    (capacity vector * 2 < SIZE_MOD -> capacity vector * 2 <= capacity vector'))).
Proof.
  apply (append_many_fits (DataVector [1; 2; 3; 4] 4) [5; 6] 2).
  - vm_compute. discriminate.
  - vm_compute. split; discriminate.
  - vm_compute. reflexivity.
Defined.

(** X2: what [data_vector_append_many] stores, [data_vector_pop_first_many]
    gives back oldest first: popping the whole vector after an append
    returns the old messages followed by the appended ones and leaves the
    vector empty with its capacity; popping more than it holds fails the
    [assert]. *)
Theorem pop_after_append vector src count :
  0 <= count <= Z.of_nat (length src) ->
  let vector' := data_vector_append_many vector src count in
  data_vector_pop_first_many vector' (data_size vector + count)
    = Some (data vector ++ take (Z.to_nat count) src, DataVector [] (capacity vector')) /\
  forall more : nat,
    data_vector_pop_first_many vector' (data_size vector + count + 1 + Z.of_nat more) = None.
Proof.
  intros Hcount. simpl.
  assert (Hlen : data_size (data_vector_append_many vector src count)
                 = data_size vector + count).
  { unfold data_size, data_vector_append_many. simpl.
    rewrite length_app, length_take. unfold data_size in *. lia. }
  unfold data_vector_pop_first_many. rewrite Hlen. split.
  - rewrite Z.leb_refl.
    rewrite take_ge, drop_ge; [done| |];
      unfold data_vector_append_many; simpl;
      rewrite length_app, length_take; unfold data_size; lia.
  - intros more. destruct (_ <=? _) eqn:E; [|done]. apply Z.leb_le in E. lia.
Qed.

Lemma pop_after_append_witness :
  let vector' := data_vector_append_many (DataVector [1; 2] 4) [3; 4; 5] 3 in
  data_vector_pop_first_many vector' (data_size (DataVector [1; 2] 4) + 3)
    = Some (data (DataVector [1; 2] 4) ++ take (Z.to_nat 3) [3; 4; 5],
            DataVector [] (capacity vector')) /\
  forall more : nat,
    data_vector_pop_first_many vector'
      (data_size (DataVector [1; 2] 4) + 3 + 1 + Z.of_nat more) = None.
Proof.
  apply (pop_after_append (DataVector [1; 2] 4) [3; 4; 5] 3).
  vm_compute. split; discriminate.
Defined.

(** ** Messages are appended at the tail and taken from the head *)

Section evolves.
Context (P : coro_bus_channel -> coro_bus_channel -> Prop) `{!PreOrder P}.

#[global] Instance evolves_preorder : PreOrder (evolves P).
Proof.
  split.
  - intros w chan c' Hc. by exists c'.
  - intros w1 w2 w3 H12 H23 chan c3 Hc3.
    destruct (H23 _ _ Hc3) as (c2 & Hc2 & HP23).
    destruct (H12 _ _ Hc2) as (c1 & Hc1 & HP12).
    exists c1. split; [done|]. by etrans.
Qed.

Lemma evolves_same_heap w w' : heap w' = heap w -> evolves P w w'.
Proof. intros Hh chan c' Hc. exists c'. by rewrite <- Hh. Qed.

Lemma evolves_insert w w' chan c c' :
  heap w !! chan = Some c -> P c c' ->
  heap w' = <[chan := c']> (heap w) ->
  evolves P w w'.
Proof.
  intros Hc HP Hh chan' c'' Hc'.
  rewrite Hh in Hc'. destruct (decide (chan' = chan)) as [->|Hne].
  - rewrite lookup_insert_eq in Hc'. simplify_eq. by exists c.
  - rewrite lookup_insert_ne in Hc' by done. by exists c''.
Qed.

Lemma evolves_errno_set e : respects (evolves P) (coro_bus_errno_set e).
Proof. intros w. by apply evolves_same_heap. Qed.

Lemma evolves_wakeup c : respects (evolves P) (coro_wakeup c).
Proof. intros w. by apply evolves_same_heap. Qed.

Lemma evolves_yield {A} self k : respects (evolves P) (@coro_yield A self k).
Proof. intros w. by apply evolves_same_heap. Qed.

Lemma evolves_set_channels arr : respects (evolves P) (set_channels arr).
Proof. intros w. by apply evolves_same_heap. Qed.

Lemma evolves_free chan : respects (evolves P) (free_channel chan).
Proof.
  intros w chan' c' Hc. exists c'. simpl in Hc.
  apply lookup_delete_Some in Hc as [_ Hc]. done.
Qed.

Hypothesis P_queues : forall c send recv,
  P c (Channel (size_limit c) send recv (chan_data c)).

Lemma evolves_suspend_this {A} chan q self k :
  respects (evolves P) (@wakeup_queue_suspend_this A chan q self k).
Proof.
  intros w. unfold wakeup_queue_suspend_this, bind, deref.
  destruct (heap w !! chan) as [c|] eqn:E; simpl; [|reflexivity].
  eapply evolves_insert; [exact E| |reflexivity].
  destruct q; apply P_queues.
Qed.

Lemma evolves_resume_this self : respects (evolves P) (wakeup_queue_resume_this self).
Proof.
  intros w chan c' Hc. simpl in Hc.
  rewrite lookup_fmap in Hc. destruct (heap w !! chan) as [c|]; simplify_eq/=.
  exists c. split; [done|]. apply P_queues.
Qed.
End evolves.

#[global] Instance appended_preorder : PreOrder appended.
Proof.
  split.
  - by intros c.
  - intros c1 c2 c3 [Hl12 Hd12] [Hl23 Hd23]. split; [congruence|by etrans].
Qed.

#[global] Instance taken_preorder : PreOrder taken.
Proof.
  split.
  - by intros c.
  - intros c1 c2 c3 [Hl12 Hd12] [Hl23 Hd23]. split; [congruence|by etrans].
Qed.

Lemma appended_queues c send recv :
  appended c (Channel (size_limit c) send recv (chan_data c)).
Proof. done. Qed.

Lemma taken_queues c send recv :
  taken c (Channel (size_limit c) send recv (chan_data c)).
Proof. done. Qed.

Lemma appended_append chan d : respects (evolves appended) (channel_append chan d).
Proof.
  intros w. unfold channel_append, bind, deref.
  destruct (heap w !! chan) as [c|] eqn:E; simpl; [|reflexivity].
  eapply (evolves_insert _); [exact E| |reflexivity].
  split; [done|]. simpl. by apply prefix_app_r.
Qed.

Lemma taken_pop_first chan : respects (evolves taken) (channel_pop_first chan).
Proof.
  intros w. unfold channel_pop_first, bind, deref.
  destruct (heap w !! chan) as [c|] eqn:E; simpl; [|reflexivity].
  destruct (data_vector_pop_first (chan_data c)) as [[d vector]|] eqn:Epop;
    simpl; [|reflexivity].
  apply data_vector_pop_first_Some in Epop as [Hd _].
  eapply (evolves_insert _); [exact E| |reflexivity].
  split; [done|]. simpl. rewrite Hd. by apply suffix_cons_r.
Qed.

(** The functions that send, and close, only append. *)
Lemma appended_run self s :
  receiving_segment s = false ->
  match s with
  | Call (Open _ _ _ _) => True
  | _ => respects (evolves appended) (run self s)
  end.
Proof.
  pose proof (evolves_errno_set appended).
  pose proof (evolves_wakeup appended).
  pose proof (fun A => @evolves_yield appended _ A self).
  pose proof (fun A chan q =>
    @evolves_suspend_this appended _ appended_queues A chan q self).
  pose proof (evolves_resume_this appended appended_queues self).
  pose proof (evolves_free appended).
  pose proof (evolves_set_channels appended).
  pose proof appended_append.
  assert (Hsend : forall b channel d,
             respects (evolves appended) (coro_bus_send self b channel d))
    by (intros; by apply (R_send _)).
  assert (Hbroadcast : forall b d,
             respects (evolves appended) (coro_bus_broadcast self b d))
    by (intros; by apply (R_broadcast _)).
  assert (Hpark : forall d arr i,
             respects (evolves appended) (broadcast_park self d arr i))
    by (intros; by apply (R_park _)).
  assert (Hturn : forall channel chan src count sent,
             respects (evolves appended)
               (coro_bus_send_v_turn self channel chan src count sent))
    by (intros; by apply (R_send_v_turn _)).
  intros Hs. destruct s as [[]|[]]; try done; simpl; try done.
  - by apply (R_close _).
  - by apply (R_try_send _).
  - by apply (R_try_broadcast _).
  - unfold coro_bus_send_v. respects_tac.
  - by apply (R_try_send_v _).
  - unfold coro_bus_send_resume. respects_tac.
  - unfold coro_bus_broadcast_resume. respects_tac.
  - unfold coro_bus_send_v_resume. respects_tac.
Qed.

(** The functions that receive only take from the head. *)
Lemma taken_run self s :
  receiving_segment s = true -> respects (evolves taken) (run self s).
Proof.
  pose proof (evolves_errno_set taken).
  pose proof (evolves_wakeup taken).
  pose proof (fun A chan q =>
    @evolves_suspend_this taken _ taken_queues A chan q self).
  pose proof (evolves_resume_this taken taken_queues self).
  pose proof taken_pop_first.
  assert (Hloop : forall channel chan,
             respects (evolves taken) (coro_bus_recv_loop self channel chan))
    by (intros; by apply (R_recv_loop _)).
  assert (Hturn : forall channel data_nonnull capacity,
             respects (evolves taken)
               (coro_bus_recv_v_turn self channel data_nonnull capacity))
    by (intros; by apply (R_recv_v_turn _)).
  intros Hs. destruct s as [[]|[]]; try done; simpl.
  - unfold coro_bus_recv. respects_tac.
  - by apply (R_try_recv _).
  - unfold coro_bus_recv_v. respects_tac.
  - by apply (R_try_recv_v _).
  - unfold coro_bus_recv_resume. respects_tac.
  - unfold coro_bus_recv_v_resume. respects_tac.
Qed.

(** X3: no segment changes the limit of a channel or touches the messages
    in the middle of its queue.  Whatever a sending function (or open or
    close) runs, the messages a channel held are still at the head of its
    queue in the same order; whatever a receiving function runs, the
    messages that are left are the youngest of the old ones, in the same
    order. *)
Theorem sends_append_receives_take self s w chan c c' :
  world_wf w ->
  heap w !! chan = Some c ->
  heap (exec (run self s) w) !! chan = Some c' ->
  size_limit c' = size_limit c /\
  if receiving_segment s
  then data (chan_data c') `suffix_of` data (chan_data c)
  else data (chan_data c) `prefix_of` data (chan_data c').
Proof.
  intros Hwf Hc Hc'.
  destruct (receiving_segment s) eqn:Hs.
  - destruct (taken_run self s Hs w _ _ Hc') as (c0 & Hc0 & Hl & Hd).
    pose proof (eq_trans (eq_sym Hc0) Hc) as [= ->]. by split.
  - pose proof (appended_run self s Hs) as Hrun.
    destruct s as [[b limit malloc_ok realloc_ok| | | | | | | | | | |]|k];
      try (destruct (Hrun w _ _ Hc') as (c0 & Hc0 & Hl & Hd);
           pose proof (eq_trans (eq_sym Hc0) Hc) as [= ->]; by split).
    pose proof (open_keeps_live b limit malloc_ok realloc_ok w chan c Hwf Hc) as Hopen.
    pose proof (eq_trans (eq_sym Hopen) Hc') as [= ->]. by split.
Qed.

Lemma sends_append_receives_take_witness :
  exists c c',
    heap two_channels !! 1%nat = Some c /\
    heap (exec (run 0%nat (Call (TryRecv BUS 1))) two_channels) !! 1%nat = Some c' /\
    size_limit c' = size_limit c /\
    data (chan_data c') `suffix_of` data (chan_data c).
Proof.
  eexists _, _.
  assert (Hwf : world_wf two_channels).
  { unfold two_channels, one_channel, exec.
    apply (world_wf_run_call 0%nat (TrySend BUS 1 9)).
    apply world_wf_open. apply world_wf_open. apply world_wf_new. }
  split; [|split]; [vm_compute; reflexivity..|].
  apply (sends_append_receives_take 0%nat (Call (TryRecv BUS 1)) two_channels 1%nat
           _ _ Hwf); vm_compute; reflexivity.
Defined.

(** ** Opening and closing leave the other channels alone *)

Lemma check_channel_slots channel w chan :
  check_channel BUS channel w = Some chan <->
  0 <= channel /\ slots w !! Z.to_nat channel = Some (Some chan).
Proof.
  split.
  - intros (_ & arr & Harr & Hrange & Hl)%check_channel_Some.
    unfold slots. rewrite Harr. simpl. split; [lia|done].
  - intros [Hpos Hl]. unfold check_channel, slots, channel_count in *.
    destruct (channels (bus w)) as [arr|]; simpl in *; [|done].
    pose proof (lookup_lt_Some _ _ _ Hl) as Hlt.
    destruct (channel <? 0) eqn:E1; [lia|].
    destruct (channel >=? Z.of_nat (length arr)) eqn:E2; [lia|].
    simpl. by rewrite Hl.
Qed.

Lemma check_channel_None channel w :
  check_channel BUS channel w = None <->
  forall chan, ¬ (0 <= channel /\ slots w !! Z.to_nat channel = Some (Some chan)).
Proof.
  split.
  - intros Hnone chan Hs%check_channel_slots. congruence.
  - intros Hnot. destruct (check_channel BUS channel w) as [chan|] eqn:E; [|done].
    apply check_channel_slots in E. by apply Hnot in E.
Qed.

(** The world after an open that returned a handle. *)
Lemma open_Done limit realloc_ok w h w' :
  coro_bus_channel_open BUS limit true realloc_ok w = (Done (RetInt h []), w') ->
  exists arr',
    w' = World (Bus (Some arr')) (<[next_addr w := new_channel limit]> (heap w))
               (fresh (dom (<[next_addr w := new_channel limit]> (heap w))))
               (global_error w) (runnable w) /\
    ((first_free_slot (slots w) 0 = Some h /\
      arr' = <[Z.to_nat h := Some (next_addr w)]> (slots w)) \/
     (first_free_slot (slots w) 0 = None /\ h = Z.of_nat (length (slots w)) /\
      arr' = slots w ++ [Some (next_addr w)])).
Proof.
  unfold coro_bus_channel_open, malloc_channel, set_channels, free_channel, slots,
    channel_count.
  munfold. simpl. intros Hrun.
  destruct (channels (bus w)) as [arr|] eqn:Harr; simpl in *.
  - destruct (first_free_slot arr 0) as [i|] eqn:Hfree; simpl in *.
    + simplify_eq. eexists. split; [reflexivity|]. by left.
    + destruct (_ =? INT_MAX); [done|]. destruct realloc_ok; simpl in *; [|done].
      simplify_eq. eexists. split; [reflexivity|]. by right.
  - destruct realloc_ok; simpl in *; [|done].
    simplify_eq. eexists. split; [reflexivity|]. by right.
Qed.

(** What an open that returns a handle leaves of the bus. *)
Lemma open_keeps_channels_parts limit realloc_ok w h w' :
  world_wf w ->
  coro_bus_channel_open BUS limit true realloc_ok w = (Done (RetInt h []), w') ->
  check_channel BUS h w = None /\
  check_channel BUS h w' = Some (next_addr w) /\
  heap w !! next_addr w = None /\
  heap w' !! next_addr w = Some (new_channel limit) /\
  (forall channel chan, check_channel BUS channel w = Some chan ->
     check_channel BUS channel w' = Some chan /\ heap w' !! chan = heap w !! chan) /\
  global_error w' = global_error w /\ runnable w' = runnable w.
Proof.
  intros Hwf (arr' & -> & Hcase)%open_Done.
  pose proof (wf_fresh _ Hwf) as Hfresh.
  assert (Hold : forall channel chan,
             check_channel BUS channel w = Some chan -> chan ≠ next_addr w).
  { intros channel chan [_ Hs]%check_channel_slots ->.
    by apply (slot_not_next _ _ _ Hwf) in Hs. }
  split_and!; try done; simpl.
  - apply check_channel_None. intros chan [Hpos Hs].
    destruct Hcase as [[Hfree _]|(_ & -> & _)].
    + apply first_free_slot_Some in Hfree as (_ & Hfree & _).
      rewrite Z.sub_0_r in Hfree. congruence.
    + apply lookup_lt_Some in Hs. lia.
  - apply check_channel_slots. unfold slots. simpl.
    destruct Hcase as [[Hfree ->]|(_ & -> & ->)].
    + apply first_free_slot_Some in Hfree as (Hpos & Hfree & _).
      rewrite Z.sub_0_r in Hfree. split; [lia|].
      apply list_lookup_insert_eq. by eapply lookup_lt_Some.
    + split; [lia|]. rewrite Nat2Z.id. by apply list_lookup_middle.
  - by rewrite lookup_insert_eq.
  - intros channel chan Hcheck. pose proof (Hold _ _ Hcheck) as Hne.
    split; [|by rewrite lookup_insert_ne].
    apply check_channel_slots in Hcheck as [Hpos Hs].
    apply check_channel_slots. split; [done|]. unfold slots at 1. simpl.
    destruct Hcase as [[Hfree ->]|(_ & _ & ->)].
    + apply first_free_slot_Some in Hfree as (Hh & Hfree & _).
      rewrite Z.sub_0_r in Hfree.
      rewrite list_lookup_insert_ne; [done|]. intros Heq. congruence.
    + rewrite lookup_app_l; [done|]. by eapply lookup_lt_Some.
Qed.

(** X4: an open that returns handle [h] gives out a handle that named no
    channel before and now names a new empty channel with the given limit,
    at an address that was not in use; every handle that was valid names
    the same channel with the same contents, and neither the error code
    nor the set of runnable coroutines changes. *)
Theorem open_keeps_channels limit realloc_ok w h w' :
  world_wf w ->
  coro_bus_channel_open BUS limit true realloc_ok w = (Done (RetInt h []), w') ->
  check_channel BUS h w = None /\
  check_channel BUS h w' = Some (next_addr w) /\
  heap w !! next_addr w = None /\
  heap w' !! next_addr w = Some (new_channel limit) /\
  (forall channel chan, check_channel BUS channel w = Some chan ->
     check_channel BUS channel w' = Some chan /\ heap w' !! chan = heap w !! chan) /\
  global_error w' = global_error w /\ runnable w' = runnable w.
Proof. apply open_keeps_channels_parts. Qed.

Lemma open_keeps_channels_witness :
  check_channel BUS 1 (one_channel 2) = None /\
  check_channel BUS 1 (exec (coro_bus_channel_open BUS 7 true true) (one_channel 2))
    = Some (next_addr (one_channel 2)).
Proof.
  assert (Hwf : world_wf (one_channel 2)).
  { apply world_wf_open, world_wf_new. }
  pose proof (open_keeps_channels 7 true (one_channel 2) 1
                (exec (coro_bus_channel_open BUS 7 true true) (one_channel 2))
                Hwf eq_refl) as (H1 & H2 & _).
  by split.
Defined.

(** X5: closing a valid handle frees its channel together with the
    messages it held and leaves the handle invalid; the slot array keeps
    its length, and every other valid handle still names the same channel
    with the same contents. *)
Theorem close_keeps_other_channels channel chan w :
  world_wf w ->
  check_channel BUS channel w = Some chan ->
  exists w',
    coro_bus_channel_close BUS channel w = (Done RetVoid, w') /\
    bad_handle channel w' /\
    heap w' !! chan = None /\
    channel_count (bus w') = channel_count (bus w) /\
    forall other chan', other ≠ channel ->
      check_channel BUS other w = Some chan' ->
      check_channel BUS other w' = Some chan' /\ heap w' !! chan' = heap w !! chan'.
Proof.
  intros Hwf Hcheck.
  pose proof (check_channel_Some _ _ _ _ Hcheck) as (_ & arr & Harr & Hrange & Hl).
  assert (is_Some (heap w !! chan)) as [c Hc].
  { apply elem_of_dom. apply (wf_live _ Hwf (Z.to_nat channel)).
    unfold slots. by rewrite Harr. }
  eexists. split; [by eapply close_eq|]. simpl. split_and!.
  - right. right. unfold read_slot. simpl.
    destruct (channel <? 0) eqn:E; [lia|].
    apply list_lookup_insert_eq. by eapply lookup_lt_Some.
  - apply lookup_delete_eq.
  - unfold channel_count. simpl. rewrite Harr. by rewrite length_insert.
  - intros other chan' Hne Hother.
    apply check_channel_slots in Hother as [Hpos Hs].
    assert (Hnat : Z.to_nat channel ≠ Z.to_nat other) by lia.
    split.
    + apply check_channel_slots. split; [done|]. unfold slots in *. simpl.
      rewrite Harr in Hs. simpl in Hs. by rewrite list_lookup_insert_ne.
    + apply lookup_delete_ne. intros ->.
      apply Hnat. eapply (wf_alias _ Hwf); [|exact Hs].
      unfold slots. by rewrite Harr.
Qed.

Lemma close_keeps_other_channels_witness :
  exists w',
    coro_bus_channel_close BUS 0 two_channels = (Done RetVoid, w') /\
    bad_handle 0 w' /\ heap w' !! 0%nat = None.
Proof.
  assert (Hwf : world_wf two_channels).
  { unfold two_channels, one_channel, exec.
    apply (world_wf_run_call 0%nat (TrySend BUS 1 9)).
    apply world_wf_open. apply world_wf_open. apply world_wf_new. }
  destruct (close_keeps_other_channels 0 0%nat two_channels Hwf eq_refl)
    as (w' & H1 & H2 & H3 & _).
  by exists w'.
Defined.

(** ** No channel is lost *)

Lemma no_leak_shape w w' : same_shape w w' -> no_leak w -> no_leak w'.
Proof.
  intros (Hb & _ & Hd) Hleak chan. unfold slots. rewrite Hb, Hd. apply Hleak.
Qed.

Lemma no_leak_runnable r w : no_leak w -> no_leak (set_runnable r w).
Proof. done. Qed.

Lemma no_leak_open b limit malloc_ok realloc_ok w r w' :
  world_wf w -> no_leak w ->
  coro_bus_channel_open b limit malloc_ok realloc_ok w = (Done r, w') ->
  no_leak w'.
Proof.
  intros Hwf Hleak Hrun.
  assert (Hfresh : next_addr w ∉ dom (heap w)).
  { apply not_elem_of_dom, (wf_fresh _ Hwf). }
  destruct malloc_ok; [|unfold coro_bus_channel_open in Hrun; simpl in Hrun;
                        unfold pure in Hrun; by simplify_eq].
  destruct b; [unfold coro_bus_channel_open in Hrun; by munfold|].
  destruct r as [|h out|].
  - (* realloc failed: the new channel is freed again *)
    unfold coro_bus_channel_open, malloc_channel, set_channels, free_channel,
      channel_count in Hrun.
    munfold. simpl in Hrun. intros chan Hin.
    assert (heap w' = delete (next_addr w) (<[next_addr w := new_channel limit]> (heap w))
            /\ bus w' = bus w) as [Hh Hb].
    { mcases; done. }
    rewrite Hh, dom_delete_L, dom_insert_L in Hin.
    unfold slots. rewrite Hb. apply Hleak.
    apply elem_of_difference in Hin as [Hin Hne].
    apply elem_of_union in Hin as [Hin|Hin]; done.
  - assert (out = []) as ->.
    { unfold coro_bus_channel_open, malloc_channel, set_channels, free_channel in Hrun.
      munfold. mcases; done. }
    apply open_Done in Hrun as (arr' & -> & Hcase). intros chan. simpl.
    rewrite dom_insert_L, elem_of_union, elem_of_singleton. unfold slots at 1. simpl.
    destruct Hcase as [[Hfree ->]|(_ & _ & ->)].
    + apply first_free_slot_Some in Hfree as (Hpos & Hfree & _).
      rewrite Z.sub_0_r in Hfree. intros [->|Hin].
      * exists (Z.to_nat h). apply list_lookup_insert_eq. by eapply lookup_lt_Some.
      * destruct (Hleak _ Hin) as [i Hi]. exists i.
        rewrite list_lookup_insert_ne; [done|]. intros <-. congruence.
    + intros [->|Hin].
      * exists (length (slots w)). by apply list_lookup_middle.
      * destruct (Hleak _ Hin) as [i Hi]. exists i.
        rewrite lookup_app_l; [done|]. by eapply lookup_lt_Some.
  - unfold coro_bus_channel_open, malloc_channel, set_channels, free_channel in Hrun.
    munfold. mcases; done.
Qed.

Lemma no_leak_close b channel w :
  world_wf w -> no_leak w -> no_leak (coro_bus_channel_close b channel w).2.
Proof.
  intros Hwf Hleak.
  destruct (check_channel b channel w) as [chan|] eqn:Hcheck;
    [|unfold coro_bus_channel_close; by rewrite Hcheck].
  pose proof (check_channel_Some _ _ _ _ Hcheck) as (-> & arr & Harr & Hrange & Hl).
  assert (is_Some (heap w !! chan)) as [c Hc].
  { apply elem_of_dom. apply (wf_live _ Hwf (Z.to_nat channel)).
    unfold slots. by rewrite Harr. }
  rewrite (close_eq _ _ _ _ _ Hcheck Hc Harr). simpl.
  intros chan'. simpl. rewrite dom_delete_L. intros [Hin Hne]%elem_of_difference.
  destruct (Hleak _ Hin) as [i Hi]. exists i. unfold slots in *. simpl.
  rewrite Harr in Hi. simpl in Hi.
  rewrite list_lookup_insert_ne; [done|]. intros <-.
  apply Hne, elem_of_singleton. congruence.
Qed.

Lemma no_leak_run self seg w o w' :
  world_wf w -> no_leak w -> run self seg w = (o, w') -> o ≠ Undefined -> no_leak w'.
Proof.
  intros Hwf Hleak Hrun Ho. destruct seg as [c|k]; simpl in Hrun.
  - pose proof (shape_run_call self c) as Hshape.
    destruct c as
      [b limit malloc_ok realloc_ok|b channel|b channel d|b channel d|b channel
       |b channel|b d|b d|b channel src count|b channel src count
       |b channel data_nonnull cap|b channel data_nonnull cap];
      simpl in Hrun;
      try (eapply no_leak_shape; [|exact Hleak];
           specialize (Hshape w); simpl in Hshape; by rewrite Hrun in Hshape).
    + destruct o as [r| | |]; [by eapply no_leak_open|..|done];
        unfold coro_bus_channel_open, malloc_channel, set_channels, free_channel in Hrun;
        munfold; mcases; done.
    + pose proof (no_leak_close b channel w Hwf Hleak) as H. by rewrite Hrun in H.
  - eapply no_leak_shape; [|exact Hleak].
    pose proof (shape_run_resume self k w) as Hshape. by rewrite Hrun in Hshape.
Qed.

Lemma no_leak_step s s' :
  any_step s s' -> world_wf (sys_world s) -> no_leak (sys_world s) ->
  no_leak (sys_world s').
Proof.
  intros (self & seg & Hstep) Hwf Hleak.
  destruct Hstep as [c w ts a o w' Hts Ha Hrun Ho|k w ts o w' Hts Hr Hrun Ho];
    simpl in *.
  - eapply (no_leak_run self (Call c)); [| |exact Hrun|done]; [|done].
    by apply world_wf_alloc.
  - eapply (no_leak_run self (Resume k)); [| |exact Hrun|done]; [|done].
    eapply world_wf_shape; [|exact Hwf]. done.
Qed.

Lemma reachable_no_leak s : reachable s -> no_leak (sys_world s).
Proof.
  unfold reachable. revert s. apply rtc_ind_r.
  - intros chan Hin. simpl in Hin. by rewrite dom_empty_L in Hin.
  - intros s s' Hreach Hstep IH. eapply no_leak_step; [done| |done].
    by apply reachable_wf.
Qed.

(** X6: in every state the system can reach, the channels that are
    allocated are exactly the channels that a slot of the bus holds: open
    and close never lose a block and never leave a slot pointing at a
    freed one. *)
Theorem live_channels_are_in_slots s chan :
  reachable s ->
  chan ∈ dom (heap (sys_world s)) <-> in_slots chan (sys_world s).
Proof.
  intros Hreach. unfold in_slots. rewrite list_elem_of_lookup. split.
  - by apply reachable_no_leak.
  - intros [i Hi]. eapply wf_live; [by apply reachable_wf|done].
Qed.

Lemma live_channels_are_in_slots_witness :
  0%nat ∈ dom (heap (sys_world parked_receiver)) <-> in_slots 0%nat (sys_world parked_receiver).
Proof.
  apply (live_channels_are_in_slots parked_receiver 0%nat).
  exact parked_receiver_reachable.
Defined.

(** ** Deleting the bus *)

(** The loop of [coro_bus_delete] over slots that hold live channels, no
    channel twice: the channels are gone and nothing else has changed. *)
Lemma delete_channels_eq arr : forall w,
  (forall i chan, arr !! i = Some (Some chan) -> is_Some (heap w !! chan)) ->
  (forall i j chan, arr !! i = Some (Some chan) -> arr !! j = Some (Some chan) -> i = j) ->
  exists h a,
    delete_channels arr w = (Done tt, set_next_addr a (set_heap h w)) /\
    forall chan,
      h !! chan = if decide (Some chan ∈ arr) then None else heap w !! chan.
Proof.
  induction arr as [|[chan|] arr IH]; intros w Hlive Halias; cbn [delete_channels].
  - exists (heap w), (next_addr w). split; [by destruct w|]. intros chan.
    destruct (decide (Some chan ∈ [])) as [Hin|]; [by apply elem_of_nil in Hin|done].
  - destruct (Hlive 0%nat chan eq_refl) as [c Hc].
    rewrite (bind_Done _ _ _ c w) by by apply deref_eq.
    unfold free_channel at 1. unfold bind at 1, modify.
    destruct (IH (set_next_addr chan (set_heap (delete chan (heap w)) w)))
      as (h & a & Hrun & Hh).
    + intros i chan' Hi. simpl.
      rewrite lookup_delete_ne; [by apply (Hlive (S i))|].
      intros ->. by specialize (Halias 0%nat (S i) chan' eq_refl Hi).
    + intros i j chan' Hi Hj. by specialize (Halias (S i) (S j) chan' Hi Hj) as [= ->].
    + exists h, a. split; [by rewrite Hrun|]. intros chan'. rewrite Hh.
      cbn [heap set_heap set_next_addr].
      destruct (decide (chan' = chan)) as [->|Hne].
      * rewrite lookup_delete_eq.
        destruct (decide (Some chan ∈ arr)), (decide (Some chan ∈ Some chan :: arr))
          as [|Hn]; try done; destruct Hn; apply elem_of_cons; by left.
      * rewrite lookup_delete_ne by done.
        destruct (decide (Some chan' ∈ arr)) as [Hin|Hn1],
          (decide (Some chan' ∈ Some chan :: arr)) as [Hin'|Hn2]; try done.
        -- destruct Hn2. apply elem_of_cons. by right.
        -- apply elem_of_cons in Hin' as [[= ->]|Hin']; done.
  - destruct (IH w) as (h & a & Hrun & Hh).
    + intros i chan Hi. by apply (Hlive (S i)).
    + intros i j chan' Hi Hj. by specialize (Halias (S i) (S j) chan' Hi Hj) as [= ->].
    + exists h, a. split; [done|]. intros chan. rewrite Hh.
      destruct (decide (Some chan ∈ arr)) as [Hin|Hn1],
        (decide (Some chan ∈ None :: arr)) as [Hin'|Hn2]; try done.
      * destruct Hn2. apply elem_of_cons. by right.
      * apply elem_of_cons in Hin' as [[=]|Hin']; done.
Qed.

(** X7: [coro_bus_delete] in any state the system can reach returns with
    every channel of the bus freed, so that nothing stays allocated; it
    wakes no coroutine and does not write the error code: a coroutine that
    is suspended on a channel of the bus is not resumed by it, unlike with
    [coro_bus_channel_close].  On NULL it does nothing. *)
Theorem delete_frees_every_channel s :
  reachable s ->
  coro_bus_delete NULL (sys_world s) = (Done RetVoid, sys_world s) /\
  exists w',
    coro_bus_delete BUS (sys_world s) = (Done RetVoid, w') /\
    heap w' = ∅ /\
    runnable w' = runnable (sys_world s) /\
    global_error w' = global_error (sys_world s).
Proof.
  intros Hreach. split; [done|].
  pose proof (reachable_wf _ Hreach) as Hwf.
  pose proof (reachable_no_leak _ Hreach) as Hleak.
  destruct (delete_channels_eq (slots (sys_world s)) (sys_world s))
    as (h & a & Hrun & Hh).
  - intros i chan Hi. apply elem_of_dom. by eapply wf_live.
  - apply (wf_alias _ Hwf).
  - unfold coro_bus_delete. rewrite bind_get. fold (slots (sys_world s)).
    rewrite (bind_Done _ _ _ _ _ Hrun). eexists. split; [reflexivity|]. simpl.
    split; [|done]. apply map_empty. intros chan. rewrite Hh.
    destruct (decide _) as [|Hn]; [done|].
    apply not_elem_of_dom. intros Hin. apply Hn.
    destruct (Hleak _ Hin) as [i Hi]. by eapply list_elem_of_lookup_2.
Qed.

Lemma delete_frees_every_channel_witness :
  exists w',
    coro_bus_delete BUS (sys_world parked_receiver) = (Done RetVoid, w') /\
    heap w' = ∅ /\
    runnable w' = runnable (sys_world parked_receiver) /\
    global_error w' = global_error (sys_world parked_receiver).
Proof.
  apply (delete_frees_every_channel parked_receiver).
  exact parked_receiver_reachable.
Defined.

(** ** The error code *)

Lemma respects_run {A} R (m : M A) w o w' :
  m w = (o, w') -> respects R m -> R w w'.
Proof. intros H Hm. specialize (Hm w). by rewrite H in Hm. Qed.

Lemma no_suspend_run {A} (m : M A) w o w' :
  m w = (o, w') -> no_suspend m ->
  match o with Parked _ | Yielded _ => False | _ => True end.
Proof. intros H Hm. specialize (Hm w). by rewrite H in Hm. Qed.

#[global] Instance same_error_preorder : PreOrder same_error.
Proof. split; [by intros ?|intros ??? H1 H2; unfold same_error in *; congruence]. Qed.

Lemma error_wakeup c : respects same_error (coro_wakeup c).
Proof. by intros w. Qed.

Lemma error_append chan d : respects same_error (channel_append chan d).
Proof. intros w. munfold. by mcases. Qed.

Lemma error_pop_first chan : respects same_error (channel_pop_first chan).
Proof. intros w. munfold. by mcases. Qed.

Lemma error_suspend_this {A} chan q self k :
  respects same_error (@wakeup_queue_suspend_this A chan q self k).
Proof. intros w. munfold. by mcases. Qed.

Lemma error_commit arr d : respects same_error (broadcast_commit arr d).
Proof. apply (R_commit _); [apply error_wakeup|apply error_append]. Qed.

Lemma error_park self d arr i : respects same_error (broadcast_park self d arr i).
Proof. apply (R_park _). intros. apply error_suspend_this. Qed.

Lemma error_send_v_copy chan src sent i n :
  respects same_error (send_v_copy chan src sent i n).
Proof. apply (R_send_v_copy _); [apply error_wakeup|apply error_append]. Qed.

Lemma error_recv_v_copy chan n : respects same_error (recv_v_copy chan n).
Proof. apply (R_recv_v_copy _). apply error_pop_first. Qed.

(** What the loops of a segment did to the error code: nothing. *)
Ltac error_loops :=
  repeat match goal with
  | H : none_blocked _ _ _ = _ |- _ => apply none_blocked_world in H; subst
  | H : broadcast_commit _ _ _ = _ |- _ =>
      eapply respects_run in H; [|apply error_commit]
  | H : broadcast_park _ _ _ _ _ = _ |- _ =>
      eapply respects_run in H; [|apply error_park]
  | H : send_v_copy _ _ _ _ _ _ = _ |- _ =>
      eapply respects_run in H; [|apply error_send_v_copy]
  | H : recv_v_copy _ _ _ = _ |- _ =>
      eapply respects_run in H; [|apply error_recv_v_copy]
  end;
  unfold same_error in *; simpl in *.

Lemma try_recv_v_result b channel data_nonnull capacity w r w' :
  coro_bus_try_recv_v b channel data_nonnull capacity w = (Done r, w') ->
  (r = RetFail /\
   (global_error w' = CORO_BUS_ERR_NO_CHANNEL \/
    global_error w' = CORO_BUS_ERR_WOULD_BLOCK)) \/
  (exists v out, r = RetInt v out /\ global_error w' = global_error w /\
     (0 <= capacity <= INT_MAX -> 0 <= v)).
Proof.
  intros Hrun. unfold coro_bus_try_recv_v in Hrun. munfold. mcases;
    try (left; split; [done|]; simpl; by auto).
  all: right; eexists _, _; split; [done|]; error_loops; split; [done|].
  all: intros Hcap;
    repeat match goal with
    | H : heap _ !! _ = Some ?c |- _ =>
        lazymatch goal with
        | _ : 0 <= data_size (chan_data c) |- _ => fail
        | _ => pose proof (data_size_nonneg (chan_data c))
        end
    end.
  all: apply to_int_nonneg; rewrite to_unsigned_small;
    unfold UINT_MOD, INT_MAX in *; lia.
Qed.

Lemma close_returns b channel w r w' :
  coro_bus_channel_close b channel w = (Done r, w') -> r = RetVoid.
Proof.
  unfold coro_bus_channel_close.
  destruct (check_channel _ _ _); [|by intros [= <- _]].
  unfold bind, deref. destruct (heap w !! _) as [c|]; [|done].
  destruct (close_drain_Done (recv_queue c) w) as [w1 E1]. rewrite E1.
  destruct (close_drain_Done (send_queue c) w1) as [w2 E2]. rewrite E2.
  unfold free_channel, set_channels, modify, pure. by intros [= <- _].
Qed.

(** Unfolds the functions without a call to [coro_bus_try_recv_v] down to
    their loops and splits them into their paths. *)
Ltac segment_paths H :=
  unfold coro_bus_channel_open, malloc_channel, set_channels, free_channel,
    coro_bus_send_resume, coro_bus_recv_resume, coro_bus_broadcast_resume,
    coro_bus_send_v_resume, coro_bus_send_v,
    coro_bus_send, coro_bus_try_send, coro_bus_recv, coro_bus_recv_loop,
    coro_bus_try_recv, coro_bus_broadcast, coro_bus_try_broadcast,
    coro_bus_send_v_turn, coro_bus_try_send_v in H;
  munfold; mcases.

Lemma recv_v_turn_failure self channel data_nonnull capacity w w' :
  0 <= capacity <= INT_MAX ->
  coro_bus_recv_v_turn self channel data_nonnull capacity w = (Done RetFail, w') ->
  global_error w' = CORO_BUS_ERR_NO_CHANNEL.
Proof.
  intros Hcap Hrun. unfold coro_bus_recv_v_turn in Hrun.
  apply bind_Done_inv in Hrun as (r & w1 & Htry & Hrun).
  apply try_recv_v_result in Htry as [[-> Herr]|(v & out & -> & _ & Hv)].
  - simpl in Hrun. munfold. mcases. by destruct Herr.
  - specialize (Hv Hcap). simpl in Hrun. destruct (v <? 0) eqn:E; [lia|].
    munfold. mcases.
Qed.

(** X8: a call that fails tells why.  Whenever a function leaves through
    [return -1], the error code it leaves is [CORO_BUS_ERR_NO_CHANNEL] or
    [CORO_BUS_ERR_WOULD_BLOCK], with one exception: [coro_bus_channel_open]
    whose [malloc] failed returns -1 and leaves everything, the error code
    included, as it was. *)
Theorem failure_sets_error self s w w' :
  int_sized s ->
  run self s w = (Done RetFail, w') ->
  global_error w' = CORO_BUS_ERR_NO_CHANNEL \/
  global_error w' = CORO_BUS_ERR_WOULD_BLOCK \/
  (w' = w /\ exists b limit realloc_ok, s = Call (Open b limit false realloc_ok)).
Proof.
  intros Hsized Hrun. destruct s as [c|k]; simpl in *.
  - destruct c as
      [b limit malloc_ok realloc_ok|b channel|b channel d|b channel d|b channel
       |b channel|b d|b d|b channel src count|b channel src count
       |b channel data_nonnull cap|b channel data_nonnull cap];
      simpl in Hrun.
    + destruct malloc_ok; [segment_paths Hrun; simpl; auto|].
      unfold coro_bus_channel_open in Hrun. simpl in Hrun. unfold pure in Hrun.
      simplify_eq. right. right. split; [done|]. by eexists _, _, _.
    + by apply close_returns in Hrun.
    + segment_paths Hrun; simpl; auto.
    + segment_paths Hrun; simpl; auto.
    + segment_paths Hrun; simpl; auto.
    + segment_paths Hrun; simpl; auto.
    + segment_paths Hrun; simpl; auto.
    + segment_paths Hrun; simpl; auto.
    + segment_paths Hrun; simpl; auto.
    + segment_paths Hrun; simpl; auto.
    + unfold coro_bus_recv_v in Hrun. rewrite bind_get in Hrun.
      destruct (check_channel _ _ _); [destruct data_nonnull|];
        try (munfold; simplify_eq; simpl; by auto).
      left. by eapply recv_v_turn_failure.
    + apply try_recv_v_result in Hrun as [[_ Herr]|(v & out & ? & _)]; [|done].
      destruct Herr; auto.
  - destruct k; simpl in Hrun.
    + segment_paths Hrun; simpl; auto.
    + segment_paths Hrun; simpl; auto.
    + segment_paths Hrun; simpl; auto.
    + segment_paths Hrun; simpl; auto.
    + segment_paths Hrun; simpl; auto.
    + unfold coro_bus_recv_v_resume in Hrun.
      apply bind_Done_inv in Hrun as (? & w0 & _ & Hrun).
      left. by eapply recv_v_turn_failure.
Qed.

Lemma failure_sets_error_witness :
  global_error (exec (run 0%nat (Call (TryRecv BUS 0))) (one_channel 2))
    = CORO_BUS_ERR_NO_CHANNEL \/
  global_error (exec (run 0%nat (Call (TryRecv BUS 0))) (one_channel 2))
    = CORO_BUS_ERR_WOULD_BLOCK \/
  (exec (run 0%nat (Call (TryRecv BUS 0))) (one_channel 2) = one_channel 2 /\
   exists b limit realloc_ok,
     Call (TryRecv BUS 0) = Call (Open b limit false realloc_ok)).
Proof.
  apply (failure_sets_error 0%nat (Call (TryRecv BUS 0)) (one_channel 2)).
  - exact I.
  - vm_compute. reflexivity.
Defined.

Lemma recv_v_turn_success self channel data_nonnull capacity w v out w' :
  coro_bus_recv_v_turn self channel data_nonnull capacity w = (Done (RetInt v out), w') ->
  global_error w' = global_error w.
Proof.
  intros Hrun. unfold coro_bus_recv_v_turn in Hrun.
  apply bind_Done_inv in Hrun as (r & w1 & Htry & Hrun).
  apply try_recv_v_result in Htry as [[-> Herr]|(v0 & out0 & -> & Herr & _)].
  - simpl in Hrun. munfold. mcases.
  - simpl in Hrun. munfold. mcases; congruence.
Qed.

(** X9: a success never touches the error code.  In the segment in which
    a function returns a value (a handle, 0 or a count, not the -1 of a
    failure) it does not write [global_error]: the code of an earlier
    failure is still there, so the error code says something only after
    a -1. *)
Theorem success_keeps_error self s w v out w' :
  run self s w = (Done (RetInt v out), w') -> global_error w' = global_error w.
Proof.
  intros Hrun. destruct s as [c|k]; simpl in *.
  - destruct c as
      [b limit malloc_ok realloc_ok|b channel|b channel d|b channel d|b channel
       |b channel|b d|b d|b channel src count|b channel src count
       |b channel data_nonnull cap|b channel data_nonnull cap];
      simpl in Hrun.
    + segment_paths Hrun; error_loops; congruence.
    + by apply close_returns in Hrun.
    + segment_paths Hrun; error_loops; congruence.
    + segment_paths Hrun; error_loops; congruence.
    + segment_paths Hrun; error_loops; congruence.
    + segment_paths Hrun; error_loops; congruence.
    + segment_paths Hrun; error_loops; congruence.
    + segment_paths Hrun; error_loops; congruence.
    + segment_paths Hrun; error_loops; congruence.
    + segment_paths Hrun; error_loops; congruence.
    + unfold coro_bus_recv_v in Hrun. rewrite bind_get in Hrun.
      destruct (check_channel _ _ _); [destruct data_nonnull|];
        try (munfold; by simplify_eq).
      by eapply recv_v_turn_success.
    + apply try_recv_v_result in Hrun as [[? _]|(? & ? & _ & Herr & _)]; done.
  - destruct k; simpl in Hrun.
    + segment_paths Hrun; error_loops; congruence.
    + segment_paths Hrun; error_loops; congruence.
    + segment_paths Hrun; error_loops; congruence.
    + segment_paths Hrun; error_loops; congruence.
    + segment_paths Hrun; error_loops; congruence.
    + unfold coro_bus_recv_v_resume in Hrun.
      apply bind_Done_inv in Hrun as (? & w0 & Hres & Hrun).
      apply recv_v_turn_success in Hrun. unfold wakeup_queue_resume_this, modify in Hres.
      by simplify_eq.
Qed.

Lemma success_keeps_error_witness :
  global_error (exec (run 0%nat (Call (TrySend BUS 0 5)))
                  (with_error CORO_BUS_ERR_WOULD_BLOCK (one_channel 2)))
  = global_error (with_error CORO_BUS_ERR_WOULD_BLOCK (one_channel 2)).
Proof.
  apply (success_keeps_error 0%nat (Call (TrySend BUS 0 5))
           (with_error CORO_BUS_ERR_WOULD_BLOCK (one_channel 2)) 0 []).
  vm_compute. reflexivity.
Defined.

(** ** A function that suspends has moved no message *)

#[global] Instance same_messages_preorder : PreOrder same_messages.
Proof.
  split; [by intros ?|].
  intros w1 w2 w3 [Hb12 Hd12] [Hb23 Hd23]. split; congruence.
Qed.

Lemma messages_same_heap w w' : bus w' = bus w -> heap w' = heap w -> same_messages w w'.
Proof. intros Hb Hh. split; [done|by rewrite Hh]. Qed.

Lemma messages_errno_set e : respects same_messages (coro_bus_errno_set e).
Proof. intros w. by apply messages_same_heap. Qed.

Lemma messages_wakeup c : respects same_messages (coro_wakeup c).
Proof. intros w. by apply messages_same_heap. Qed.

Lemma messages_yield {A} self k : respects same_messages (@coro_yield A self k).
Proof. intros w. by apply messages_same_heap. Qed.

Lemma messages_wakeup_first chan q :
  respects same_messages (wakeup_queue_wakeup_first chan q).
Proof. apply (R_wakeup_first _). apply messages_wakeup. Qed.

Lemma messages_suspend_this {A} chan q self k :
  respects same_messages (@wakeup_queue_suspend_this A chan q self k).
Proof.
  intros w. unfold wakeup_queue_suspend_this, bind, deref.
  destruct (heap w !! chan) as [c|] eqn:E; simpl; [|reflexivity].
  split; [done|]. simpl. rewrite fmap_insert.
  apply insert_id. rewrite lookup_fmap, E. by destruct q.
Qed.

Lemma messages_resume_this self : respects same_messages (wakeup_queue_resume_this self).
Proof.
  intros w. split; [done|]. simpl. rewrite <- map_fmap_compose.
  apply map_fmap_ext. by intros chan [].
Qed.

Lemma messages_park self d arr i : respects same_messages (broadcast_park self d arr i).
Proof. apply (R_park _). intros. apply messages_suspend_this. Qed.

Lemma no_suspend_resume_this self : no_suspend (wakeup_queue_resume_this self).
Proof. apply no_suspend_modify. Qed.

#[global] Hint Resolve no_suspend_resume_this : no_suspend.

(** Unfolds a segment down to its loops and to the primitives that write
    to a channel, and splits it into its paths. *)
Ltac light_paths H :=
  unfold coro_bus_channel_open, malloc_channel, set_channels, free_channel,
    coro_bus_send_resume, coro_bus_recv_resume, coro_bus_broadcast_resume,
    coro_bus_send_v_resume, coro_bus_recv_v_resume, coro_bus_send_v, coro_bus_recv_v,
    coro_bus_send, coro_bus_try_send, coro_bus_recv, coro_bus_recv_loop,
    coro_bus_try_recv, coro_bus_broadcast, coro_bus_try_broadcast,
    coro_bus_send_v_turn, coro_bus_try_send_v, coro_bus_recv_v_turn,
    coro_bus_try_recv_v in H;
  unfold bind, pure, get, undefined, deref, slot, coro_bus_errno,
    coro_bus_errno_set, coro_yield, modify in H;
  mcases.

(** A path that ends suspended: the steps that cannot suspend are ruled
    out, the others keep the messages. *)
Ltac message_steps :=
  repeat match goal with
  | H : none_blocked _ _ _ = _ |- _ => apply none_blocked_world in H; subst
  | H : _ = (Parked _, _) |- _ =>
      by eapply no_suspend_run in H; [|solve [auto 1 with no_suspend]]
  | H : _ = (Yielded _, _) |- _ =>
      by eapply no_suspend_run in H; [|solve [auto 1 with no_suspend]]
  | H : wakeup_queue_suspend_this _ _ _ _ _ = _ |- _ =>
      eapply (respects_run same_messages) in H; [|apply messages_suspend_this]
  | H : wakeup_queue_resume_this _ _ = _ |- _ =>
      eapply (respects_run same_messages) in H; [|apply messages_resume_this]
  | H : broadcast_park _ _ _ _ _ = _ |- _ =>
      eapply (respects_run same_messages) in H; [|apply messages_park]
  end;
  unfold same_messages in *; simpl in *; destruct_and?; try (split; congruence).

Lemma count_nonneg z : 0 <= z <= INT_MAX -> (to_int (to_unsigned z) <? 0) = false.
Proof.
  intros Hz. rewrite to_unsigned_small by (unfold UINT_MOD, INT_MAX in *; lia).
  rewrite to_int_in_range by done. lia.
Qed.

(** A batch receive of at most [INT_MAX] messages does not return a
    negative count. *)
Ltac count_nonneg :=
  exfalso;
  repeat match goal with
  | H : heap _ !! _ = Some ?c |- _ =>
      lazymatch goal with
      | _ : 0 <= data_size (chan_data c) |- _ => fail
      | _ => pose proof (data_size_nonneg (chan_data c))
      end
  end;
  match goal with
  | H : (to_int (to_unsigned ?z) <? 0) = true |- _ =>
      rewrite count_nonneg in H; [done|lia]
  end.

(** X10: a function that suspends has moved no message.  When a segment
    ends with the coroutine suspended (or yielding), the bus and the
    messages of every channel are as they were when the segment started:
    a blocked send, broadcast or batch has delivered nothing yet, a
    blocked receive has taken nothing.  (For a batch receive the capacity
    is at most [INT_MAX].) *)
Theorem suspension_moves_nothing self s w o w' :
  int_sized s ->
  run self s w = (o, w') ->
  (exists k, o = Parked k \/ o = Yielded k) ->
  same_messages w w'.
Proof.
  intros Hsized Hrun (k & [->| ->]).
  - destruct s as [[]|[]]; simpl in Hrun, Hsized.
    all: try (light_paths Hrun; message_steps; count_nonneg).
    exfalso. unfold coro_bus_channel_close in Hrun.
    destruct (check_channel _ _ _); [|done].
    eapply no_suspend_run in Hrun; [done|]. no_suspend_tac.
  - destruct s as [[]|[]]; simpl in Hrun, Hsized.
    all: try (light_paths Hrun; message_steps; count_nonneg).
    exfalso. unfold coro_bus_channel_close in Hrun.
    destruct (check_channel _ _ _); [|done].
    eapply no_suspend_run in Hrun; [done|]. no_suspend_tac.
Qed.

Lemma suspension_moves_nothing_witness :
  same_messages (one_channel 1) (exec (run 1%nat (Call (Recv BUS 0))) (one_channel 1)).
Proof.
  apply (suspension_moves_nothing 1%nat (Call (Recv BUS 0)) (one_channel 1)
           (Parked (KRecv 0 0%nat))).
  - exact I.
  - vm_compute. reflexivity.
  - exists (KRecv 0 0%nat). by left.
Defined.

(** ** The broadcast never spins *)

Lemma suspend_this_parks {A} chan q self k w o w' :
  @wakeup_queue_suspend_this A chan q self k w = (o, w') ->
  o = Parked k \/ o = Undefined.
Proof. unfold wakeup_queue_suspend_this. munfold. intros H. mcases; auto. Qed.

Lemma park_outcome self d arr : forall i w o w',
  broadcast_park self d arr i w = (o, w') ->
  o = Done tt \/ o = Undefined \/ exists j, o = Parked (KBroadcast j d).
Proof.
  induction arr as [|[chan|] arr IH]; intros i w o w' Hrun; simpl in Hrun.
  - unfold pure in Hrun. simplify_eq. by left.
  - unfold bind, deref in Hrun. destruct (heap w !! chan) as [c|]; [|simplify_eq; auto].
    destruct (full_without_receiver c); [|by eapply IH].
    apply suspend_this_parks in Hrun as [->| ->]; eauto.
  - by eapply IH.
Qed.

(** No path of any segment reaches the [coro_yield] of the broadcast. *)
Lemma run_never_yields self s w k : (run self s w).1 ≠ Yielded k.
Proof.
  destruct (run self s w) as [o w'] eqn:Hrun. simpl. intros ->.
  assert (Hno : forall A (m : M A) w0 w1,
             m w0 = (Yielded k, w1) -> no_suspend m -> False).
  { intros A m w0 w1 H Hm. by eapply no_suspend_run in H. }
  destruct s as [[]|[]]; simpl in Hrun.
  all: try (light_paths Hrun;
    repeat match goal with
    | H : wakeup_queue_suspend_this _ _ _ _ _ = _ |- _ =>
        by apply suspend_this_parks in H as [|]
    | H : broadcast_park _ _ _ _ _ = (Yielded _, _) |- _ =>
        by apply park_outcome in H as [|[|[]]]
    | H : none_blocked _ ?arr _ = (Done false, ?w1),
      H' : broadcast_park ?self ?d ?arr ?i ?w1 = (Done _, _) |- _ =>
        pose proof (none_blocked_world _ _ _ _ _ H); subst;
        destruct (blocked_parks self d arr i _ _ H) as (? & ? & ?); congruence
    | H : _ = (Yielded _, _) |- _ =>
        by eapply Hno in H; [|solve [auto 1 with no_suspend]]
    end).
  unfold coro_bus_channel_close in Hrun.
  destruct (check_channel _ _ _); [|done].
  eapply Hno in Hrun; [done|]. no_suspend_tac.
Qed.

(** X11: no segment ends in [coro_yield].  The only call of it, at the end
    of the loop of [coro_bus_broadcast], is never reached: when some
    channel keeps the broadcast from going through, the function suspends
    in the send queue of the first such channel instead of spinning. *)
Theorem broadcast_never_yields self s w k : (run self s w).1 ≠ Yielded k.
Proof. apply run_never_yields. Qed.

(** ** Who is woken *)

(** [coro_bus_try_send] on a channel with room, in full. *)
Lemma try_send_eq w channel chan c d :
  check_channel BUS channel w = Some chan ->
  heap w !! chan = Some c ->
  data_size (chan_data c) < size_limit c ->
  coro_bus_try_send BUS channel d w =
    (Done (RetInt 0 []),
     set_runnable (wake_first (recv_queue c) (runnable w))
       (set_heap (<[chan := with_message d c]> (heap w)) w)).
Proof.
  intros Hcheck Hc Hroom. unfold coro_bus_try_send. rewrite bind_get, Hcheck.
  rewrite (bind_Done _ _ _ c w) by by apply deref_eq.
  destruct (_ >=? _) eqn:E; [lia|].
  erewrite bind_Done by by apply channel_append_eq.
  erewrite bind_Done by (eapply wakeup_first_eq; simpl; apply lookup_insert_eq).
  done.
Qed.

(** [coro_bus_send] on a channel with room, in full. *)
Lemma send_eq self w channel chan c d :
  check_channel BUS channel w = Some chan ->
  heap w !! chan = Some c ->
  data_size (chan_data c) < size_limit c ->
  coro_bus_send self BUS channel d w =
    (Done (RetInt 0 []),
     set_runnable (wake_first (send_queue c) (wake_first (recv_queue c) (runnable w)))
       (set_heap (<[chan := with_message d c]> (heap w)) w)).
Proof.
  intros Hcheck Hc Hroom. unfold coro_bus_send. rewrite bind_get, Hcheck.
  rewrite (bind_Done _ _ _ c w) by by apply deref_eq.
  destruct (_ <? _) eqn:E; [|lia].
  erewrite bind_Done by by apply channel_append_eq.
  erewrite bind_Done by (eapply wakeup_first_eq; simpl; apply lookup_insert_eq).
  erewrite bind_Done by (eapply wakeup_first_eq; simpl; apply lookup_insert_eq).
  done.
Qed.

(** [coro_bus_recv] and [coro_bus_try_recv] on a channel that holds a
    message, in full. *)
Lemma recv_eq self blocking_recv w channel chan c d l :
  check_channel BUS channel w = Some chan ->
  heap w !! chan = Some c ->
  data (chan_data c) = d :: l ->
  run_call self (recv_call blocking_recv channel) w =
    (Done (RetInt 0 [d]),
     set_runnable (wake_first (send_queue c) (runnable w))
       (set_heap
          (<[chan := set_chan_data (DataVector l (capacity (chan_data c))) c]> (heap w))
          w)).
Proof.
  intros Hcheck Hc Hd.
  assert (Hsize : (data_size (chan_data c) =? 0) = false).
  { unfold data_size. rewrite Hd. simpl. lia. }
  destruct blocking_recv; simpl.
  - unfold coro_bus_recv. rewrite bind_get, (check_channel_recv_Some _ _ _ _ Hcheck).
    unfold coro_bus_recv_loop.
    rewrite (bind_Done _ _ _ c w) by by apply deref_eq.
    rewrite Hsize.
    erewrite bind_Done by by eapply channel_pop_first_eq.
    erewrite bind_Done by (eapply wakeup_first_eq; simpl; apply lookup_insert_eq).
    done.
  - unfold coro_bus_try_recv. rewrite bind_get, (check_channel_recv_Some _ _ _ _ Hcheck).
    rewrite (bind_Done _ _ _ c w) by by apply deref_eq.
    rewrite Hsize.
    erewrite bind_Done by by eapply channel_pop_first_eq.
    erewrite bind_Done by (eapply wakeup_first_eq; simpl; apply lookup_insert_eq).
    done.
Qed.

Lemma same_queues_insert w chan c c' :
  heap w !! chan = Some c ->
  send_queue c' = send_queue c -> recv_queue c' = recv_queue c ->
  same_queues w (set_heap (<[chan := c']> (heap w)) w).
Proof.
  intros Hc Hs Hr chan'. simpl. destruct (decide (chan' = chan)) as [->|Hne].
  - by rewrite lookup_insert_eq, Hc; simpl; rewrite Hs, Hr.
  - by rewrite lookup_insert_ne.
Qed.

(** X12: who a send wakes.  A send that finds room makes the oldest
    coroutine of the channel's receive queue runnable; [coro_bus_send],
    unlike [coro_bus_try_send], also wakes the oldest coroutine of the send
    queue.  Nobody else is woken, and the wait queues themselves are left
    as they are: a woken coroutine takes its own entry out when it runs. *)
Theorem send_wakes_the_oldest self w channel chan c d :
  check_channel BUS channel w = Some chan ->
  heap w !! chan = Some c ->
  data_size (chan_data c) < size_limit c ->
  let w1 := exec (coro_bus_try_send BUS channel d) w in
  let w2 := exec (coro_bus_send self BUS channel d) w in
  runnable w1 = wake_first (recv_queue c) (runnable w) /\
  runnable w2 = wake_first (send_queue c) (wake_first (recv_queue c) (runnable w)) /\
  same_queues w w1 /\ same_queues w w2.
Proof.
  intros Hcheck Hc Hroom. simpl. unfold exec.
  rewrite (try_send_eq _ _ _ _ _ Hcheck Hc Hroom).
  rewrite (send_eq _ _ _ _ _ _ Hcheck Hc Hroom). simpl.
  split_and!; try done; by eapply same_queues_insert.
Qed.

Lemma send_wakes_the_oldest_witness :
  let w := sys_world parked_receiver in
  let c := Channel 1 [] [1%nat] (DataVector [] 0) in
  let w1 := exec (coro_bus_try_send BUS 0 5) w in
  let w2 := exec (coro_bus_send 0%nat BUS 0 5) w in
  runnable w1 = wake_first (recv_queue c) (runnable w) /\
  runnable w2 = wake_first (send_queue c) (wake_first (recv_queue c) (runnable w)) /\
  same_queues w w1 /\ same_queues w w2.
Proof.
  apply (send_wakes_the_oldest 0%nat (sys_world parked_receiver) 0 0%nat
           (Channel 1 [] [1%nat] (DataVector [] 0)) 5).
  - vm_compute. reflexivity.
  - vm_compute. reflexivity.
  - vm_compute. reflexivity.
Defined.

(** X13: who a receive wakes.  [coro_bus_recv] and [coro_bus_try_recv]
    that find a message make the oldest coroutine of the channel's send
    queue runnable and nobody else (not the next receiver, also when
    messages are left), and leave the wait queues as they are. *)
Theorem recv_wakes_the_oldest_sender self blocking_recv w channel chan c :
  check_channel BUS channel w = Some chan ->
  heap w !! chan = Some c ->
  data (chan_data c) ≠ [] ->
  let w' := exec (run_call self (recv_call blocking_recv channel)) w in
  runnable w' = wake_first (send_queue c) (runnable w) /\
  same_queues w w'.
Proof.
  intros Hcheck Hc Hdata. destruct (data (chan_data c)) as [|d l] eqn:Hd; [done|].
  simpl. unfold exec. rewrite (recv_eq _ _ _ _ _ _ _ _ Hcheck Hc Hd). simpl.
  split; [done|]. by eapply same_queues_insert.
Qed.

Lemma recv_wakes_the_oldest_sender_witness :
  let w := two_channels in
  let c := Channel 1 [] [] (DataVector [9] 4) in
  let w' := exec (run_call 0%nat (recv_call true 1)) w in
  runnable w' = wake_first (send_queue c) (runnable w) /\
  same_queues w w'.
Proof.
  apply (recv_wakes_the_oldest_sender 0%nat true two_channels 1 1%nat
           (Channel 1 [] [] (DataVector [9] 4))).
  - vm_compute. reflexivity.
  - vm_compute. reflexivity.
  - simpl. discriminate.
Defined.

(** ** What close does to the closer *)

(** X14: [coro_bus_channel_close] on a valid handle makes runnable every
    coroutine of the channel's two wait queues and nobody else, and it
    writes the error code of the closing coroutine: [global_error] becomes
    [CORO_BUS_ERR_NO_CHANNEL] when some coroutine was waiting on the
    channel and keeps its value when none was. *)
Theorem close_wakes_waiters_and_sets_error channel chan c w :
  check_channel BUS channel w = Some chan ->
  heap w !! chan = Some c ->
  let w' := exec (coro_bus_channel_close BUS channel) w in
  runnable w' = list_to_set (send_queue c) ∪ (list_to_set (recv_queue c) ∪ runnable w) /\
  global_error w' =
    (if decide (recv_queue c = [] /\ send_queue c = []) then global_error w
     else CORO_BUS_ERR_NO_CHANNEL).
Proof.
  intros Hcheck Hc.
  pose proof (check_channel_Some _ _ _ _ Hcheck) as (_ & arr & Harr & _).
  simpl. unfold exec. rewrite (close_eq _ _ _ _ _ Hcheck Hc Harr). simpl.
  split; [done|].
  destruct (decide _) as [[-> ->]|Hn]; [done|].
  destruct (recv_queue c); [|done]. destruct (send_queue c); [|done].
  by destruct Hn.
Qed.

Lemma close_wakes_waiters_and_sets_error_witness :
  let w := sys_world parked_receiver in
  let c := Channel 1 [] [1%nat] (DataVector [] 0) in
  let w' := exec (coro_bus_channel_close BUS 0) w in
  runnable w' = list_to_set (send_queue c) ∪ (list_to_set (recv_queue c) ∪ runnable w) /\
  global_error w' =
    (if decide (recv_queue c = [] /\ send_queue c = []) then global_error w
     else CORO_BUS_ERR_NO_CHANNEL).
Proof.
  apply (close_wakes_waiters_and_sets_error 0 0%nat
           (Channel 1 [] [1%nat] (DataVector [] 0)) (sys_world parked_receiver)).
  - vm_compute. reflexivity.
  - vm_compute. reflexivity.
Defined.

(** ** The non-blocking broadcast delivers to all channels or to none *)

Lemma none_blocked_live blocked arr w :
  (forall i chan, arr !! i = Some (Some chan) -> is_Some (heap w !! chan)) ->
  exists b, none_blocked blocked arr w = (Done b, w).
Proof.
  induction arr as [|[chan|] arr IH]; intros Hlive; simpl.
  - by exists true.
  - destruct (Hlive 0%nat chan eq_refl) as [c Hc].
    rewrite (bind_Done _ _ _ c w) by by apply deref_eq.
    destruct (blocked c); [by exists false|].
    apply IH. intros i chan' Hi. by apply (Hlive (S i)).
  - apply IH. intros i chan' Hi. by apply (Hlive (S i)).
Qed.

(** The loop that commits a broadcast, over slots that hold live channels,
    no channel twice: every channel of the slots has the message behind
    its queue, the other channels are as they were. *)
Lemma commit_eq d arr : forall w,
  (forall i chan, arr !! i = Some (Some chan) -> is_Some (heap w !! chan)) ->
  (forall i j chan, arr !! i = Some (Some chan) -> arr !! j = Some (Some chan) -> i = j) ->
  exists h r,
    broadcast_commit arr d w = (Done tt, set_runnable r (set_heap h w)) /\
    forall chan,
      h !! chan = if decide (Some chan ∈ arr) then with_message d <$> heap w !! chan
                  else heap w !! chan.
Proof.
  induction arr as [|[chan|] arr IH]; intros w Hlive Halias; cbn [broadcast_commit].
  - exists (heap w), (runnable w). split; [by destruct w|]. intros chan.
    destruct (decide (Some chan ∈ [])) as [Hin|]; [by apply elem_of_nil in Hin|done].
  - destruct (Hlive 0%nat chan eq_refl) as [c Hc].
    erewrite bind_Done by by apply channel_append_eq.
    erewrite bind_Done by (eapply wakeup_first_eq; simpl; apply lookup_insert_eq).
    assert (Hnot : Some chan ∉ arr).
    { intros [i Hi]%list_elem_of_lookup.
      by specialize (Halias 0%nat (S i) chan eq_refl Hi). }
    edestruct IH as (h & r & Hrun & Hh); [| |rewrite Hrun].
    + intros i chan' Hi. simpl.
      destruct (decide (chan' = chan)) as [->|Hne];
        [by rewrite lookup_insert_eq|rewrite lookup_insert_ne by done].
      by apply (Hlive (S i)).
    + intros i j chan' Hi Hj. by specialize (Halias (S i) (S j) chan' Hi Hj) as [= ->].
    + exists h, r. split; [done|]. intros chan'. rewrite Hh. cbn [heap set_heap set_runnable].
      destruct (decide (chan' = chan)) as [->|Hne].
      * rewrite lookup_insert_eq.
        destruct (decide (Some chan ∈ arr)); [done|].
        destruct (decide (Some chan ∈ Some chan :: arr)) as [|Hn];
          [by rewrite Hc|destruct Hn; apply elem_of_cons; by left].
      * rewrite lookup_insert_ne by done.
        destruct (decide (Some chan' ∈ arr)) as [Hin|Hn1],
          (decide (Some chan' ∈ Some chan :: arr)) as [Hin'|Hn2]; try done.
        -- destruct Hn2. apply elem_of_cons. by right.
        -- apply elem_of_cons in Hin' as [[= ->]|Hin']; done.
  - destruct (IH w) as (h & r & Hrun & Hh).
    + intros i chan Hi. by apply (Hlive (S i)).
    + intros i j chan' Hi Hj. by specialize (Halias (S i) (S j) chan' Hi Hj) as [= ->].
    + exists h, r. split; [done|]. intros chan. rewrite Hh.
      destruct (decide (Some chan ∈ arr)) as [Hin|Hn1],
        (decide (Some chan ∈ None :: arr)) as [Hin'|Hn2]; try done.
      * destruct Hn2. apply elem_of_cons. by right.
      * apply elem_of_cons in Hin' as [[=]|Hin']; done.
Qed.

Lemma in_slots_lookup chan w :
  in_slots chan w <-> exists i, slots w !! i = Some (Some chan).
Proof. unfold in_slots. by rewrite list_elem_of_lookup. Qed.

(** X15: [coro_bus_try_broadcast] delivers to every channel or to none.
    On a well-formed bus it always returns.  Either it fails and no
    channel, slot or coroutine has changed; or it returns 0, every open
    channel had room and now has the message behind its queue, exactly
    once, and the channels that are not in the slots are as they were. *)
Theorem try_broadcast_all_or_nothing d w :
  world_wf w ->
  exists r w',
    coro_bus_try_broadcast BUS d w = (Done r, w') /\ bus w' = bus w /\
    ((r = RetFail /\ heap w' = heap w /\ runnable w' = runnable w) \/
     (r = RetInt 0 [] /\
      forall chan c, heap w !! chan = Some c ->
        if decide (in_slots chan w)
        then data_size (chan_data c) < size_limit c /\
             heap w' !! chan = Some (with_message d c)
        else heap w' !! chan = Some c)).
Proof.
  intros Hwf. unfold coro_bus_try_broadcast. rewrite bind_get.
  destruct (channels (bus w)) as [arr|] eqn:Harr;
    [|eexists _, _; split; [reflexivity|]; split; [done|]; by left].
  destruct (channel_count (bus w) =? 0);
    [eexists _, _; split; [reflexivity|]; split; [done|]; by left|].
  destruct (negb (any_channel_exists arr));
    [eexists _, _; split; [reflexivity|]; split; [done|]; by left|].
  assert (Hslots : slots w = arr) by (unfold slots; by rewrite Harr).
  assert (Hlive : forall i chan, arr !! i = Some (Some chan) -> is_Some (heap w !! chan)).
  { intros i chan Hi. apply elem_of_dom. apply (wf_live _ Hwf i). by rewrite Hslots. }
  assert (Halias : forall i j chan,
             arr !! i = Some (Some chan) -> arr !! j = Some (Some chan) -> i = j).
  { intros i j chan. rewrite <- Hslots. apply (wf_alias _ Hwf). }
  destruct (none_blocked_live full arr w Hlive) as [[] Hnone].
  - rewrite (bind_Done _ _ _ _ _ Hnone).
    destruct (commit_eq d arr w Hlive Halias) as (h & r & Hrun & Hh).
    rewrite (bind_Done _ _ _ _ _ Hrun).
    eexists _, _. split; [reflexivity|]. split; [done|]. right. split; [done|].
    intros chan c Hc. simpl. rewrite Hh, Hc.
    destruct (decide (in_slots chan w)) as [Hin|Hn].
    + pose proof (proj1 (in_slots_lookup _ _) Hin) as [i Hi]. rewrite Hslots in Hi.
      destruct (none_blocked_true _ _ _ _ Hnone _ _ Hi) as (c' & Hc' & Hfull).
      pose proof (eq_trans (eq_sym Hc') Hc) as [= ->].
      unfold full in Hfull.
      unfold in_slots in Hin. rewrite Hslots in Hin.
      destruct (decide (Some chan ∈ arr)); [|done]. split; [lia|done].
    + destruct (decide (Some chan ∈ arr)) as [Hin|]; [|done].
      destruct Hn. unfold in_slots. by rewrite Hslots.
  - rewrite (bind_Done _ _ _ _ _ Hnone).
    eexists _, _. split; [reflexivity|]. split; [done|]. by left.
Qed.

Lemma try_broadcast_all_or_nothing_witness :
  exists r w',
    coro_bus_try_broadcast BUS 7 (one_channel 2) = (Done r, w') /\
    bus w' = bus (one_channel 2) /\
    ((r = RetFail /\ heap w' = heap (one_channel 2) /\
      runnable w' = runnable (one_channel 2)) \/
     (r = RetInt 0 [] /\
      forall chan c, heap (one_channel 2) !! chan = Some c ->
        if decide (in_slots chan (one_channel 2))
        then data_size (chan_data c) < size_limit c /\
             heap w' !! chan = Some (with_message 7 c)
        else heap w' !! chan = Some c)).
Proof.
  apply (try_broadcast_all_or_nothing 7 (one_channel 2)).
  apply world_wf_open, world_wf_new.
Defined.

(** ** Batches *)

(** The [for] loop of [coro_bus_try_recv_v] on a channel that holds at
    least [n] messages: the [n] oldest come out in order. *)
Lemma recv_v_copy_eq n : forall chan c w,
  heap w !! chan = Some c ->
  (n <= length (data (chan_data c)))%nat ->
  recv_v_copy chan n w =
    (Done (take n (data (chan_data c))),
     set_heap
       (<[chan := set_chan_data
                    (DataVector (drop n (data (chan_data c))) (capacity (chan_data c))) c]>
          (heap w)) w).
Proof.
  induction n as [|n IH]; intros chan c w Hc Hn; simpl.
  - unfold pure. f_equal. rewrite drop_0.
    replace (set_chan_data _ c) with c by (by destruct c as [? ? ? []]).
    rewrite insert_id by done. by destruct w.
  - destruct (data (chan_data c)) as [|d l] eqn:Hd; simpl in Hn; [lia|].
    erewrite bind_Done by by eapply channel_pop_first_eq.
    erewrite bind_Done; [|apply IH; [apply lookup_insert_eq|simpl; lia]].
    unfold pure. simpl. by rewrite insert_insert_eq.
Qed.

(** [coro_bus_try_recv_v] on a channel that holds messages, with a
    capacity that fits an [int], in full. *)
Lemma try_recv_v_eq w channel chan c cap :
  check_channel BUS channel w = Some chan ->
  heap w !! chan = Some c ->
  data (chan_data c) ≠ [] ->
  0 <= cap <= INT_MAX ->
  let n := Z.min cap (data_size (chan_data c)) in
  coro_bus_try_recv_v BUS channel true cap w =
    (Done (RetInt n (take (Z.to_nat n) (data (chan_data c)))),
     set_runnable (wake_first (send_queue c) (runnable w))
       (set_heap
          (<[chan := set_chan_data
                       (DataVector (drop (Z.to_nat n) (data (chan_data c)))
                          (capacity (chan_data c))) c]>
             (heap w)) w)).
Proof.
  intros Hcheck Hc Hdata Hcap. simpl.
  pose proof (data_size_nonneg (chan_data c)) as Hsize.
  assert (Hpos : (data_size (chan_data c) =? 0) = false).
  { unfold data_size in *. destruct (data (chan_data c)); [done|simpl; lia]. }
  unfold coro_bus_try_recv_v. rewrite bind_get, Hcheck.
  rewrite (bind_Done _ _ _ c w) by by apply deref_eq.
  rewrite Hpos.
  assert (Hmin : (if cap <? data_size (chan_data c) then cap
                  else data_size (chan_data c))
                 = Z.min cap (data_size (chan_data c))).
  { destruct (_ <? _) eqn:E; lia. }
  rewrite Hmin.
  rewrite to_unsigned_small by (unfold UINT_MOD, INT_MAX in *; lia).
  rewrite to_int_in_range by lia.
  erewrite bind_Done; [|apply recv_v_copy_eq; [done|unfold data_size in *; lia]].
  erewrite bind_Done by (eapply wakeup_first_eq; simpl; apply lookup_insert_eq).
  done.
Qed.

(** X16: a batch comes out as it went in.  On an empty channel,
    [coro_bus_try_send_v] of the messages [vs] stores as many of them as
    the limit allows and returns that number, and [coro_bus_try_recv_v]
    then returns the oldest of them, as many as the capacity allows, in
    the order of [vs], and leaves the rest in the channel.  (Sizes up to
    [INT_MAX], limit below 2^32.) *)
Theorem batch_round_trip w channel chan c vs capacity :
  check_channel BUS channel w = Some chan ->
  heap w !! chan = Some c ->
  data (chan_data c) = [] ->
  0 < size_limit c < UINT_MOD ->
  0 < Z.of_nat (length vs) <= INT_MAX ->
  0 <= capacity <= INT_MAX ->
  let sent := Z.min (Z.of_nat (length vs)) (size_limit c) in
  let got := Z.min capacity sent in
  exists w1 w2 c2,
    coro_bus_try_send_v BUS channel (Some vs) (Z.of_nat (length vs)) w
      = (Done (RetInt sent []), w1) /\
    coro_bus_try_recv_v BUS channel true capacity w1
      = (Done (RetInt got (take (Z.to_nat got) vs)), w2) /\
    heap w2 !! chan = Some c2 /\
    data (chan_data c2) = drop (Z.to_nat got) (take (Z.to_nat sent) vs).
Proof.
  intros Hcheck Hc Hempty Hlimit Hlen Hcap. simpl.
  assert (Hsize : data_size (chan_data c) = 0) by (unfold data_size; by rewrite Hempty).
  pose proof (try_send_v_in_range w channel chan c vs (Z.of_nat (length vs))
                Hcheck Hc) as Hsend.
  simpl in Hsend. rewrite Hsize, Z.sub_0_r in Hsend.
  specialize (Hsend ltac:(lia) ltac:(lia) ltac:(lia)).
  destruct (size_limit c =? 0) eqn:E; [lia|].
  destruct Hsend as (w1 & c1 & Hsend & Hc1 & Hl1 & Hd1).
  rewrite Hempty in Hd1. simpl in Hd1.
  assert (Hbus : bus w1 = bus w).
  { pose proof (shape_run_call 0%nat (TrySendV BUS channel (Some vs) (Z.of_nat (length vs))) w)
      as Hshape. simpl in Hshape. rewrite Hsend in Hshape. apply Hshape. }
  assert (Hcheck1 : check_channel BUS channel w1 = Some chan).
  { by rewrite (check_channel_bus _ _ _ _ Hbus). }
  assert (Hsize1 : data_size (chan_data c1)
                   = Z.min (Z.of_nat (length vs)) (size_limit c)).
  { unfold data_size. rewrite Hd1, length_take. lia. }
  pose proof (try_recv_v_eq w1 channel chan c1 capacity Hcheck1 Hc1) as Hrecv.
  simpl in Hrecv. rewrite Hsize1, Hd1 in Hrecv.
  eexists w1, _, _. split; [exact Hsend|]. split.
  - rewrite Hrecv; [|destruct vs; [simpl in Hlen; lia|]|done].
    + f_equal. f_equal. f_equal. rewrite take_take. f_equal. lia.
    + destruct (Z.to_nat _) eqn:En; [lia|done].
  - simpl. rewrite lookup_insert_eq. split; [reflexivity|]. done.
Qed.

Lemma batch_round_trip_witness :
  let sent := Z.min (Z.of_nat (length [1; 2; 3])) (size_limit (new_channel 2)) in
  let got := Z.min 5 sent in
  exists w1 w2 c2,
    coro_bus_try_send_v BUS 0 (Some [1; 2; 3]) (Z.of_nat (length [1; 2; 3])) (one_channel 2)
      = (Done (RetInt sent []), w1) /\
    coro_bus_try_recv_v BUS 0 true 5 w1
      = (Done (RetInt got (take (Z.to_nat got) [1; 2; 3])), w2) /\
    heap w2 !! 0%nat = Some c2 /\
    data (chan_data c2) = drop (Z.to_nat got) (take (Z.to_nat sent) [1; 2; 3]).
Proof.
  apply (batch_round_trip (one_channel 2) 0 0%nat (new_channel 2) [1; 2; 3] 5).
  - vm_compute. reflexivity.
  - vm_compute. reflexivity.
  - reflexivity.
  - vm_compute. split; reflexivity.
  - vm_compute. split; [reflexivity|discriminate].
  - vm_compute. split; discriminate.
Defined.

(** ** Waiting in line *)

(** [coro_bus_send] on a full channel, in full: the caller goes to the
    tail of the send queue and stops being runnable. *)
Lemma send_parks_eq self w channel chan c d :
  check_channel BUS channel w = Some chan ->
  heap w !! chan = Some c ->
  size_limit c <= data_size (chan_data c) ->
  coro_bus_send self BUS channel d w =
    (Parked (KSend channel chan d),
     set_runnable (runnable w ∖ {[self]})
       (set_heap
          (<[chan := set_queue SendQ (rlist_add_tail_entry (send_queue c) self) c]> (heap w))
          w)).
Proof.
  intros Hcheck Hc Hfull. unfold coro_bus_send. rewrite bind_get, Hcheck.
  rewrite (bind_Done _ _ _ c w) by by apply deref_eq.
  destruct (_ <? _) eqn:E; [lia|].
  by rewrite (suspend_this_eq _ c).
Qed.

(** X17: a sender that is woken delivers or goes to the back of the line.
    When a coroutine suspended in [coro_bus_send] continues and its slot
    still holds the channel, it first takes its entry out of the wait
    queues.  If the channel has room, the message goes behind the queue of
    messages and the call returns 0.  If the channel is full again (another
    sender was faster), the coroutine suspends again at the tail of the
    send queue, behind the senders that arrived while it waited, as a
    first call on a full channel does. *)
Theorem woken_sender_delivers_or_requeues self w channel chan c d :
  check_channel BUS channel w = Some chan ->
  heap w !! chan = Some c ->
  let c1 := unlink_entry self c in
  if data_size (chan_data c) <? size_limit c
  then
    exists w',
      coro_bus_send_resume self channel chan d w = (Done (RetInt 0 []), w') /\
      heap w' !! chan = Some (with_message d c1)
  else
    exists w1 w2,
      coro_bus_send self BUS channel d w = (Parked (KSend channel chan d), w1) /\
      heap w1 !! chan
        = Some (set_queue SendQ (rlist_add_tail_entry (send_queue c) self) c) /\
      coro_bus_send_resume self channel chan d w = (Parked (KSend channel chan d), w2) /\
      heap w2 !! chan
        = Some (set_queue SendQ (rlist_add_tail_entry (send_queue c1) self) c1) /\
      (self ∉ runnable w1) /\ (self ∉ runnable w2).
Proof.
  intros Hcheck Hc. simpl.
  set (w0 := set_heap (unlink_entry self <$> heap w) w).
  assert (Hcheck0 : check_channel BUS channel w0 = Some chan).
  { by rewrite (check_channel_bus _ _ w w0). }
  assert (Hc0 : heap w0 !! chan = Some (unlink_entry self c)).
  { simpl. by rewrite lookup_fmap, Hc. }
  assert (Hresume : forall o,
             coro_bus_send self BUS channel d w0 = o ->
             coro_bus_send_resume self channel chan d w = o).
  { intros o <-. unfold coro_bus_send_resume.
    erewrite bind_Done by reflexivity. fold w0.
    erewrite bind_Done;
      [|unfold slot; by rewrite (check_channel_read_slot _ _ _ _ Hcheck0)].
    by rewrite decide_True. }
  destruct (_ <? _) eqn:E.
  - eexists. split; [apply Hresume, send_eq; [done..|simpl; lia]|].
    simpl. by rewrite lookup_insert_eq.
  - eexists _, _. split_and!.
    + apply send_parks_eq; [done..|lia].
    + simpl. by rewrite lookup_insert_eq.
    + apply Hresume, send_parks_eq; [done..|simpl; lia].
    + simpl. by rewrite lookup_insert_eq.
    + simpl. intros [_ Hn]%elem_of_difference. by apply Hn, elem_of_singleton.
    + simpl. intros [_ Hn]%elem_of_difference. by apply Hn, elem_of_singleton.
Qed.

Lemma woken_sender_delivers_or_requeues_witness :
  let c := Channel 1 [] [] (DataVector [9] 4) in
  let c1 := unlink_entry 3%nat c in
  if data_size (chan_data c) <? size_limit c
  then
    exists w',
      coro_bus_send_resume 3%nat 1 1%nat 5 two_channels = (Done (RetInt 0 []), w') /\
      heap w' !! 1%nat = Some (with_message 5 c1)
  else
    exists w1 w2,
      coro_bus_send 3%nat BUS 1 5 two_channels = (Parked (KSend 1 1%nat 5), w1) /\
      heap w1 !! 1%nat
        = Some (set_queue SendQ (rlist_add_tail_entry (send_queue c) 3%nat) c) /\
      coro_bus_send_resume 3%nat 1 1%nat 5 two_channels = (Parked (KSend 1 1%nat 5), w2) /\
      heap w2 !! 1%nat
        = Some (set_queue SendQ (rlist_add_tail_entry (send_queue c1) 3%nat) c1) /\
      (3%nat ∉ runnable w1) /\ (3%nat ∉ runnable w2).
Proof.
  apply (woken_sender_delivers_or_requeues 3%nat two_channels 1 1%nat
           (Channel 1 [] [] (DataVector [9] 4)) 5).
  - vm_compute. reflexivity.
  - vm_compute. reflexivity.
Defined.

(** ** Edge cases *)

(** X18: invalid arguments.  With a NULL bus, a handle that names no
    channel or, for the batch functions, a NULL data pointer,
    [coro_bus_send], [coro_bus_try_send] and the four batch functions
    return -1 and set [CORO_BUS_ERR_NO_CHANNEL] (there is no error code of
    its own for a NULL data pointer); nothing else changes and the caller
    is not suspended. *)
Theorem invalid_arguments_fail self c w :
  bad_arguments c w ->
  run_call self c w = (Done RetFail, with_error CORO_BUS_ERR_NO_CHANNEL w).
Proof.
  assert (Hbad : forall b channel,
             b = NULL \/ bad_handle channel w -> check_channel b channel w = None).
  { intros b channel [->|Hbad]; [done|by apply check_channel_bad]. }
  destruct c; simpl; try done; intros Hargs.
  - unfold coro_bus_send. by rewrite bind_get, Hbad.
  - unfold coro_bus_try_send. by rewrite bind_get, Hbad.
  - unfold coro_bus_send_v. rewrite bind_get.
    destruct Hargs as [H|[H| ->]]; [rewrite Hbad by auto..|]; try done.
    by destruct (check_channel _ _ _).
  - unfold coro_bus_try_send_v. rewrite bind_get.
    destruct Hargs as [H|[H| ->]]; [rewrite Hbad by auto..|]; try done.
    by destruct (check_channel _ _ _).
  - unfold coro_bus_recv_v. rewrite bind_get.
    destruct Hargs as [H|[H| ->]]; [rewrite Hbad by auto..|]; try done.
    by destruct (check_channel _ _ _).
  - unfold coro_bus_try_recv_v. rewrite bind_get.
    destruct Hargs as [H|[H| ->]]; [rewrite Hbad by auto..|]; try done.
    by destruct (check_channel _ _ _).
Qed.

Lemma invalid_arguments_fail_witness :
  run_call 0%nat (TrySendV BUS 0 None 3) (one_channel 2)
  = (Done RetFail, with_error CORO_BUS_ERR_NO_CHANNEL (one_channel 2)).
Proof.
  apply (invalid_arguments_fail 0%nat (TrySendV BUS 0 None 3) (one_channel 2)).
  simpl. right. right. reflexivity.
Defined.

Lemma any_channel_exists_false arr :
  (forall chan, Some chan ∉ arr) -> any_channel_exists arr = false.
Proof.
  induction arr as [|[chan|] arr IH]; intros Hnone; simpl; [done| |].
  - destruct (Hnone chan). apply elem_of_cons. by left.
  - apply IH. intros chan Hin. apply (Hnone chan). apply elem_of_cons. by right.
Qed.

(** X19: a broadcast needs a channel.  On a bus whose slots hold no
    channel (no slot array, or every channel closed), [coro_bus_broadcast]
    and [coro_bus_try_broadcast] return -1 with [CORO_BUS_ERR_NO_CHANNEL]
    at once; the blocking one does not wait for a channel to be opened. *)
Theorem broadcast_without_channels self d w :
  (forall chan, ¬ in_slots chan w) ->
  coro_bus_broadcast self BUS d w
    = (Done RetFail, with_error CORO_BUS_ERR_NO_CHANNEL w) /\
  coro_bus_try_broadcast BUS d w
    = (Done RetFail, with_error CORO_BUS_ERR_NO_CHANNEL w).
Proof.
  intros Hnone. unfold coro_bus_broadcast, coro_bus_try_broadcast.
  rewrite !bind_get. unfold in_slots, slots in Hnone.
  destruct (channels (bus w)) as [arr|]; [|done]. simpl in Hnone.
  destruct (channel_count (bus w) =? 0); [done|].
  by rewrite (any_channel_exists_false arr Hnone).
Qed.

Lemma broadcast_without_channels_witness :
  let w := exec (coro_bus_channel_close BUS 0) (one_channel 2) in
  coro_bus_broadcast 0%nat BUS 5 w
    = (Done RetFail, with_error CORO_BUS_ERR_NO_CHANNEL w) /\
  coro_bus_try_broadcast BUS 5 w
    = (Done RetFail, with_error CORO_BUS_ERR_NO_CHANNEL w).
Proof.
  apply (broadcast_without_channels 0%nat 5
           (exec (coro_bus_channel_close BUS 0) (one_channel 2))).
  intros chan. unfold in_slots.
  replace (slots (exec (coro_bus_channel_close BUS 0) (one_channel 2)))
    with [@None addr] by (vm_compute; reflexivity).
  intros Hin. apply elem_of_cons in Hin as [Hin|Hin]; [done|].
  by apply elem_of_nil in Hin.
Defined.

(** X20: empty batches.  [coro_bus_try_send_v] with a count of 0 still
    wants room: when the room it computes, [size_limit - size] cut down to
    an [unsigned], is 0 (a full channel, and also a room that is a
    multiple of 2^32) it fails with [CORO_BUS_ERR_WOULD_BLOCK], otherwise
    it returns 0 and stores nothing.  [coro_bus_try_recv_v] with a
    capacity of 0 still wants a message: on an empty channel it fails with
    [CORO_BUS_ERR_WOULD_BLOCK], otherwise it returns 0 and takes nothing. *)
Theorem empty_batch w channel chan c src :
  check_channel BUS channel w = Some chan ->
  heap w !! chan = Some c ->
  (if to_unsigned (to_size_t (size_limit c - data_size (chan_data c))) =? 0
   then coro_bus_try_send_v BUS channel (Some src) 0 w
        = (Done RetFail, with_error CORO_BUS_ERR_WOULD_BLOCK w)
   else exists w',
        coro_bus_try_send_v BUS channel (Some src) 0 w = (Done (RetInt 0 []), w') /\
        chan_data <$> heap w' !! chan = Some (chan_data c)) /\
  (if decide (data (chan_data c) = [])
   then coro_bus_try_recv_v BUS channel true 0 w
        = (Done RetFail, with_error CORO_BUS_ERR_WOULD_BLOCK w)
   else exists w',
        coro_bus_try_recv_v BUS channel true 0 w = (Done (RetInt 0 []), w') /\
        chan_data <$> heap w' !! chan = Some (chan_data c)).
Proof.
  intros Hcheck Hc. split.
  - unfold coro_bus_try_send_v. rewrite bind_get, Hcheck.
    rewrite (bind_Done _ _ _ c w) by by apply deref_eq.
    pose proof (to_unsigned_nonneg (to_size_t (size_limit c - data_size (chan_data c))))
      as Hspace.
    cbv zeta. destruct (_ =? 0) eqn:E; [done|].
    destruct (0 <? _) eqn:E0; [|lia]. simpl.
    unfold bind at 1, pure at 1.
    erewrite bind_Done by (by apply (wakeup_first_eq _ c)).
    eexists. split; [reflexivity|]. simpl. by rewrite Hc.
  - destruct (decide _) as [Hempty|Hdata].
    + unfold coro_bus_try_recv_v. rewrite bind_get, Hcheck.
      rewrite (bind_Done _ _ _ c w) by by apply deref_eq.
      unfold data_size. by rewrite Hempty.
    + pose proof (try_recv_v_eq w channel chan c 0 Hcheck Hc Hdata) as Hrecv.
      simpl in Hrecv. specialize (Hrecv ltac:(unfold INT_MAX; lia)).
      pose proof (data_size_nonneg (chan_data c)).
      rewrite Z.min_l in Hrecv by lia. simpl in Hrecv. rewrite drop_0 in Hrecv.
      eexists. split; [exact Hrecv|]. simpl. rewrite lookup_insert_eq. simpl.
      by destruct (chan_data c).
Qed.

Lemma empty_batch_witness :
  let w := one_channel (2 ^ 32) in
  let c := new_channel (2 ^ 32) in
  (if to_unsigned (to_size_t (size_limit c - data_size (chan_data c))) =? 0
   then coro_bus_try_send_v BUS 0 (Some []) 0 w
        = (Done RetFail, with_error CORO_BUS_ERR_WOULD_BLOCK w)
   else exists w',
        coro_bus_try_send_v BUS 0 (Some []) 0 w = (Done (RetInt 0 []), w') /\
        chan_data <$> heap w' !! 0%nat = Some (chan_data c)) /\
  (if decide (data (chan_data c) = [])
   then coro_bus_try_recv_v BUS 0 true 0 w
        = (Done RetFail, with_error CORO_BUS_ERR_WOULD_BLOCK w)
   else exists w',
        coro_bus_try_recv_v BUS 0 true 0 w = (Done (RetInt 0 []), w') /\
        chan_data <$> heap w' !! 0%nat = Some (chan_data c)).
Proof.
  apply (empty_batch (one_channel (2 ^ 32)) 0 0%nat (new_channel (2 ^ 32)) []).
  - vm_compute. reflexivity.
  - vm_compute. reflexivity.
Defined.

(** ** The blocking functions do what the non-blocking ones do *)

Lemma check_channel_recv_inv b channel w chan :
  check_channel_recv b channel w = Some (Some chan) ->
  b = BUS /\ check_channel BUS channel w = Some chan.
Proof.
  unfold check_channel_recv, check_channel, read_slot, channel_count.
  destruct b; [done|]. destruct (channels (bus w)) as [arr|]; [|done].
  destruct (_ =? 0); [done|]. destruct (channel <? 0) eqn:E; [done|].
  intros Hl. split; [done|]. simpl.
  pose proof (lookup_lt_Some _ _ _ Hl).
  destruct (channel >=? _) eqn:E'; [lia|]. by rewrite Hl.
Qed.

Lemma none_blocked_weaken arr : forall w w1,
  none_blocked full arr w = (Done true, w1) ->
  none_blocked full_without_receiver arr w = (Done true, w).
Proof.
  induction arr as [|[chan|] arr IH]; intros w w1 Hnone; simpl in *; [done| |by eapply IH].
  unfold bind, deref in *. destruct (heap w !! chan) as [c|]; [|done].
  unfold full_without_receiver. unfold full in Hnone.
  destruct (_ >=? _); [done|]. simpl. by eapply IH.
Qed.

(** X21: when a non-blocking function does not report
    [CORO_BUS_ERR_WOULD_BLOCK], the blocking function of the same name
    does the same thing: from the same state and with the same arguments it
    returns the same value and the same messages, at once, and leaves the
    same bus, the same channels and the same error code.  (Batch sizes up
    to [INT_MAX].) *)
Theorem blocking_agrees_with_try self c w r w' :
  non_blocking c = true ->
  int_sized (Call c) ->
  run_call self c w = (Done r, w') ->
  (r = RetFail -> global_error w' ≠ CORO_BUS_ERR_WOULD_BLOCK) ->
  exists w'',
    run_call self (blocking_variant c) w = (Done r, w'') /\
    bus w'' = bus w' /\ heap w'' = heap w' /\ global_error w'' = global_error w'.
Proof.
  intros Hc Hsized Hrun Hnot.
  destruct c as
    [b limit malloc_ok realloc_ok|b channel|b channel d|b channel d|b channel
     |b channel|b d|b d|b channel src count|b channel src count
     |b channel data_nonnull cap|b channel data_nonnull cap];
    try done; simpl in *.
  - (* try_send *)
    destruct (check_channel b channel w) as [chan|] eqn:Hcheck.
    + pose proof (check_channel_Some _ _ _ _ Hcheck) as [-> _].
      destruct (heap w !! chan) as [c|] eqn:Hheap.
      * destruct (data_size (chan_data c) <? size_limit c) eqn:E.
        -- rewrite (try_send_eq _ _ _ _ _ Hcheck Hheap) in Hrun by lia.
           rewrite (send_eq _ _ _ _ _ _ Hcheck Hheap) by lia.
           simplify_eq. by eexists.
        -- exfalso. unfold coro_bus_try_send in Hrun. rewrite bind_get, Hcheck in Hrun.
           rewrite (bind_Done _ _ _ c w) in Hrun by by apply deref_eq.
           destruct (_ >=? _) eqn:E'; [|lia]. munfold. simplify_eq. by apply Hnot.
      * unfold coro_bus_try_send in Hrun. rewrite bind_get, Hcheck in Hrun.
        unfold bind, deref in Hrun. by rewrite Hheap in Hrun.
    + unfold coro_bus_try_send in Hrun. unfold coro_bus_send.
      rewrite bind_get, Hcheck in *. eauto.
  - (* try_recv *)
    destruct (check_channel_recv b channel w) as [[chan|]|] eqn:Hcr.
    + pose proof (check_channel_recv_inv _ _ _ _ Hcr) as [-> Hcheck].
      destruct (heap w !! chan) as [c|] eqn:Hheap.
      * destruct (data (chan_data c)) as [|d l] eqn:Hd.
        -- exfalso. unfold coro_bus_try_recv in Hrun. rewrite bind_get, Hcr in Hrun.
           rewrite (bind_Done _ _ _ c w) in Hrun by by apply deref_eq.
           unfold data_size in Hrun. rewrite Hd in Hrun. simpl in Hrun.
           munfold. simplify_eq. by apply Hnot.
        -- pose proof (recv_eq self false _ _ _ _ _ _ Hcheck Hheap Hd) as Htry.
           pose proof (recv_eq self true _ _ _ _ _ _ Hcheck Hheap Hd) as Hblock.
           simpl in Htry, Hblock. rewrite Htry in Hrun. rewrite Hblock.
           simplify_eq. by eexists.
      * unfold coro_bus_try_recv in Hrun. rewrite bind_get, Hcr in Hrun.
        unfold bind, deref in Hrun. by rewrite Hheap in Hrun.
    + unfold coro_bus_try_recv in Hrun. unfold coro_bus_recv.
      rewrite bind_get, Hcr in *. eauto.
    + unfold coro_bus_try_recv in Hrun. by rewrite bind_get, Hcr in Hrun.
  - (* try_broadcast *)
    unfold coro_bus_try_broadcast in Hrun. unfold coro_bus_broadcast.
    rewrite bind_get in *.
    destruct b; [eauto|]. destruct (channels (bus w)) as [arr|]; [|eauto].
    destruct (channel_count (bus w) =? 0); [eauto|].
    destruct (negb (any_channel_exists arr)); [eauto|].
    apply bind_Done_inv in Hrun as (none_full & w1 & Hnone & Hrun).
    pose proof (none_blocked_world _ _ _ _ _ Hnone) as ->.
    destruct none_full.
    + rewrite (bind_Done _ _ _ true w) by by eapply none_blocked_weaken.
      rewrite Hrun. eauto.
    + exfalso. munfold. simplify_eq. by apply Hnot.
  - (* try_send_v *)
    destruct Hsized as [Hpos Hint].
    unfold coro_bus_try_send_v in Hrun. unfold coro_bus_send_v.
    rewrite bind_get in *.
    destruct (check_channel b channel w) as [chan|] eqn:Hcheck; [|eauto].
    destruct src as [src|]; [|eauto].
    pose proof (check_channel_Some _ _ _ _ Hcheck) as [-> _].
    unfold coro_bus_send_v_turn.
    erewrite bind_Done;
      [|unfold slot; by rewrite (check_channel_read_slot _ _ _ _ Hcheck)].
    rewrite decide_True by done.
    apply bind_Done_inv in Hrun as (c & w1 & Hderef & Hrun).
    rewrite (bind_Done _ _ _ _ _ Hderef).
    destruct (_ =? 0) eqn:Espace;
      [exfalso; munfold; simplify_eq; by apply Hnot|].
    rewrite Z.sub_0_r, (to_unsigned_small count)
      by (unfold UINT_MOD, INT_MAX in *; lia).
    pose proof (to_unsigned_nonneg (to_size_t (size_limit c - data_size (chan_data c))))
      as Hspace.
    assert (Hlt : to_unsigned (to_size_t (size_limit c - data_size (chan_data c)))
                  < UINT_MOD).
    { unfold to_unsigned. apply Z.mod_pos_bound. done. }
    set (space := to_unsigned (to_size_t (size_limit c - data_size (chan_data c)))) in *.
    rewrite Z.add_0_l, (to_unsigned_small (if count <? space then count else space))
      by (destruct (_ <? _); unfold UINT_MOD, INT_MAX in *; lia).
    rewrite Hrun. eauto.
  - (* try_recv_v *)
    unfold coro_bus_recv_v. rewrite bind_get.
    destruct (check_channel b channel w) as [chan|] eqn:Hcheck;
      [|unfold coro_bus_try_recv_v in Hrun; rewrite bind_get, Hcheck in Hrun; eauto].
    destruct data_nonnull;
      [|unfold coro_bus_try_recv_v in Hrun; rewrite bind_get, Hcheck in Hrun; eauto].
    pose proof (check_channel_Some _ _ _ _ Hcheck) as [-> _].
    unfold coro_bus_recv_v_turn. rewrite (bind_Done _ _ _ _ _ Hrun).
    pose proof (shape_run_call self (TryRecvV BUS channel true cap) w) as Hshape.
    simpl in Hshape. rewrite Hrun in Hshape. destruct Hshape as (Hbus & _ & Hdom).
    simpl in Hbus, Hdom.
    destruct (try_recv_v_result _ _ _ _ _ _ _ Hrun) as [[-> _]|(v & out & -> & _ & Hv)].
    + simpl. unfold coro_bus_errno. erewrite bind_Done by reflexivity.
      rewrite decide_False by by apply Hnot. eauto.
    + specialize (Hv Hsized). simpl. destruct (v <? 0) eqn:E; [lia|].
      assert (Hslot : read_slot channel w' = Some (Some chan)).
      { unfold read_slot. rewrite Hbus.
        apply (check_channel_read_slot _ _ _ _ Hcheck). }
      erewrite bind_Done by (unfold slot; by rewrite Hslot).
      assert (is_Some (heap w' !! chan)) as [c' Hc'].
      { apply elem_of_dom. rewrite Hdom. apply elem_of_dom.
        unfold coro_bus_try_recv_v in Hrun. rewrite bind_get, Hcheck in Hrun.
        unfold bind, deref in Hrun. by destruct (heap w !! chan). }
      rewrite (bind_Done _ _ _ c' w') by by apply deref_eq.
      destruct (_ >? 0).
      * erewrite bind_Done by by apply wakeup_first_eq. eexists. by split.
      * erewrite bind_Done by reflexivity. eexists. by split.
Qed.

Lemma blocking_agrees_with_try_witness :
  exists w'',
    run_call 0%nat (blocking_variant (TrySend BUS 0 5)) (one_channel 2)
      = (Done (RetInt 0 []), w'') /\
    bus w'' = bus (exec (coro_bus_try_send BUS 0 5) (one_channel 2)) /\
    heap w'' = heap (exec (coro_bus_try_send BUS 0 5) (one_channel 2)) /\
    global_error w'' = global_error (exec (coro_bus_try_send BUS 0 5) (one_channel 2)).
Proof.
  apply (blocking_agrees_with_try 0%nat (TrySend BUS 0 5) (one_channel 2) (RetInt 0 [])
           (exec (coro_bus_try_send BUS 0 5) (one_channel 2))).
  - reflexivity.
  - exact I.
  - vm_compute. reflexivity.
  - discriminate.
Defined.

(** ** The bus keeps to its own memory *)

Lemma check_live b channel w chan :
  world_wf w -> check_channel b channel w = Some chan -> is_Some (heap w !! chan).
Proof.
  intros Hwf (_ & arr & Harr & _ & Hl)%check_channel_Some.
  apply elem_of_dom, (wf_live _ Hwf (Z.to_nat channel)). unfold slots. by rewrite Harr.
Qed.

Lemma read_slot_live channel w chan :
  world_wf w -> read_slot channel w = Some (Some chan) -> is_Some (heap w !! chan).
Proof.
  intros Hwf (arr & Harr & _ & Hl)%read_slot_Some.
  apply elem_of_dom, (wf_live _ Hwf (Z.to_nat channel)). unfold slots. by rewrite Harr.
Qed.

Lemma read_slot_in_range channel w :
  0 <= channel < channel_count (bus w) -> is_Some (read_slot channel w).
Proof.
  unfold read_slot, channel_count. destruct (channels (bus w)) as [arr|]; [|lia].
  intros Hrange. destruct (channel <? 0) eqn:E; [lia|].
  apply lookup_lt_is_Some. lia.
Qed.

Lemma check_channel_recv_in_range channel w :
  (channel_count (bus w) ≠ 0 -> 0 <= channel < channel_count (bus w)) ->
  is_Some (check_channel_recv BUS channel w).
Proof.
  intros Hrange. unfold check_channel_recv.
  destruct (channels (bus w)) as [arr|] eqn:Harr; [|done].
  destruct (_ =? 0) eqn:E; [done|]. apply read_slot_in_range. apply Hrange. lia.
Qed.

Lemma shape_live w w' chan :
  same_shape w w' -> is_Some (heap w !! chan) -> is_Some (heap w' !! chan).
Proof. intros (_ & _ & Hd) Hc. apply elem_of_dom. rewrite Hd. by apply elem_of_dom. Qed.

Lemma pop_first_nonempty vector :
  (data_size vector =? 0) = false -> is_Some (data_vector_pop_first vector).
Proof.
  intros Hsize. unfold data_size in Hsize.
  destruct (data vector) as [|d l] eqn:Hd; [done|].
  by rewrite (data_vector_pop_first_cons _ d l).
Qed.

Lemma live_slots_wf w : world_wf w -> live_slots (slots w) w.
Proof. intros Hwf i chan Hi. apply elem_of_dom. by eapply wf_live. Qed.

Lemma live_slots_drop n arr w : live_slots arr w -> live_slots (drop n arr) w.
Proof. intros Hlive i chan Hi. rewrite lookup_drop in Hi. by eapply Hlive. Qed.

Lemma park_defined self d arr : forall i w,
  live_slots arr w -> (broadcast_park self d arr i w).1 ≠ Undefined.
Proof.
  induction arr as [|[chan|] arr IH]; intros i w Hlive; simpl; [done| |].
  - destruct (Hlive 0%nat chan eq_refl) as [c Hc].
    rewrite (bind_Done _ _ _ c w) by by apply deref_eq.
    destruct (full_without_receiver c).
    + by rewrite (suspend_this_eq _ c).
    + apply IH. intros j chan' Hj. by apply (Hlive (S j)).
  - apply IH. intros j chan' Hj. by apply (Hlive (S j)).
Qed.

(** Starts the refutation of an undefined outcome. *)
Ltac undefined_run H :=
  match goal with
  | |- (?m ?w).1 ≠ Undefined =>
      let o := fresh "o" in let w' := fresh "w'" in
      destruct (m w) as [o w'] eqn:H; simpl; intros ->
  end.

(** The paths of a loop-free function that end undefined on a well-formed
    world: the pointer that was read is live, the vector that is popped
    holds a message. *)
Ltac refute :=
  repeat match goal with
  | H : <[?a := _]> _ !! ?a = _ |- _ => rewrite lookup_insert_eq in H; simplify_eq/=
  | Hwf : world_wf ?w, H : check_channel _ _ ?w = Some ?a, H' : heap ?w !! ?a = None |- _ =>
      destruct (check_live _ _ _ _ Hwf H) as [? ?]; congruence
  | H : is_Some None |- _ => by destruct H
  | H : is_Some (heap ?w !! ?a), H' : heap ?w !! ?a = None |- _ =>
      destruct H as [? ?]; congruence
  | H : data_vector_pop_first ?v = None, H' : (data_size ?v =? 0) = false |- _ =>
      destruct (pop_first_nonempty _ H') as [? ?]; congruence
  end.

Lemma send_defined self b channel d w :
  world_wf w -> (coro_bus_send self b channel d w).1 ≠ Undefined.
Proof.
  intros Hwf. undefined_run Hrun. unfold coro_bus_send in Hrun. munfold. mcases; refute.
Qed.

Lemma try_send_defined b channel d w :
  world_wf w -> (coro_bus_try_send b channel d w).1 ≠ Undefined.
Proof.
  intros Hwf. undefined_run Hrun. unfold coro_bus_try_send in Hrun. munfold.
  mcases; refute.
Qed.

Lemma recv_loop_defined self channel chan w :
  is_Some (heap w !! chan) -> (coro_bus_recv_loop self channel chan w).1 ≠ Undefined.
Proof.
  intros Hlive. undefined_run Hrun. unfold coro_bus_recv_loop in Hrun. munfold.
  mcases; refute.
Qed.

Lemma recv_defined self b channel w :
  world_wf w ->
  (b = BUS -> channel_count (bus w) ≠ 0 -> 0 <= channel < channel_count (bus w)) ->
  (coro_bus_recv self b channel w).1 ≠ Undefined.
Proof.
  intros Hwf Hrange. unfold coro_bus_recv. rewrite bind_get.
  destruct b; [done|].
  destruct (check_channel_recv_in_range channel w (Hrange eq_refl)) as [[chan|] Hcr];
    rewrite Hcr; [|done].
  apply recv_loop_defined.
  apply check_channel_recv_inv in Hcr as [_ Hcheck]. by eapply check_live.
Qed.

Lemma try_recv_defined b channel w :
  world_wf w ->
  (b = BUS -> channel_count (bus w) ≠ 0 -> 0 <= channel < channel_count (bus w)) ->
  (coro_bus_try_recv b channel w).1 ≠ Undefined.
Proof.
  intros Hwf Hrange. unfold coro_bus_try_recv. rewrite bind_get.
  destruct b; [done|].
  destruct (check_channel_recv_in_range channel w (Hrange eq_refl)) as [[chan|] Hcr];
    rewrite Hcr; [|done].
  apply check_channel_recv_inv in Hcr as [_ Hcheck].
  undefined_run Hrun. munfold. mcases; refute.
Qed.

Lemma commit_defined d arr w :
  world_wf w -> slots w = arr -> exists w', broadcast_commit arr d w = (Done tt, w').
Proof.
  intros Hwf <-. destruct (commit_eq d (slots w) w) as (h & r & Hrun & _).
  - by apply live_slots_wf.
  - apply (wf_alias _ Hwf).
  - eauto.
Qed.

Lemma broadcast_defined self b d w :
  world_wf w -> (coro_bus_broadcast self b d w).1 ≠ Undefined.
Proof.
  intros Hwf. unfold coro_bus_broadcast. rewrite bind_get.
  destruct b; [done|]. destruct (channels (bus w)) as [arr|] eqn:Harr; [|done].
  destruct (_ =? 0); [done|]. destruct (negb _); [done|].
  assert (Hslots : slots w = arr) by (unfold slots; by rewrite Harr).
  destruct (none_blocked_live full_without_receiver arr w) as [[] Hnone].
  { rewrite <- Hslots. by apply live_slots_wf. }
  - rewrite (bind_Done _ _ _ _ _ Hnone).
    destruct (commit_defined d arr w Hwf Hslots) as [w' Hrun].
    by rewrite (bind_Done _ _ _ _ _ Hrun).
  - rewrite (bind_Done _ _ _ _ _ Hnone).
    destruct (blocked_parks self d arr 0 _ _ Hnone) as (j & w' & Hpark).
    unfold bind. by rewrite Hpark.
Qed.

Lemma try_broadcast_defined b d w :
  world_wf w -> (coro_bus_try_broadcast b d w).1 ≠ Undefined.
Proof.
  intros Hwf. unfold coro_bus_try_broadcast. rewrite bind_get.
  destruct b; [done|]. destruct (channels (bus w)) as [arr|] eqn:Harr; [|done].
  destruct (_ =? 0); [done|]. destruct (negb _); [done|].
  assert (Hslots : slots w = arr) by (unfold slots; by rewrite Harr).
  destruct (none_blocked_live full arr w) as [[] Hnone].
  { rewrite <- Hslots. by apply live_slots_wf. }
  - rewrite (bind_Done _ _ _ _ _ Hnone).
    destruct (commit_defined d arr w Hwf Hslots) as [w' Hrun].
    by rewrite (bind_Done _ _ _ _ _ Hrun).
  - by rewrite (bind_Done _ _ _ _ _ Hnone).
Qed.

Lemma send_v_turn_defined self channel chan src count w :
  world_wf w ->
  is_Some (read_slot channel w) ->
  0 <= count <= Z.of_nat (length src) -> count < UINT_MOD ->
  (coro_bus_send_v_turn self channel chan src count 0 w).1 ≠ Undefined.
Proof.
  intros Hwf [s Hslot] Hcount Hmod. unfold coro_bus_send_v_turn.
  erewrite bind_Done by (unfold slot; by rewrite Hslot).
  destruct (decide _) as [->|]; [|done].
  destruct (read_slot_live _ _ _ Hwf Hslot) as [c Hc].
  rewrite (bind_Done _ _ _ c w) by by apply deref_eq.
  set (space := to_unsigned (to_size_t (size_limit c - data_size (chan_data c)))).
  assert (Hspace : 0 <= space) by apply to_unsigned_nonneg.
  destruct (space =? 0); [by rewrite (suspend_this_eq _ c)|].
  rewrite Z.sub_0_r, (to_unsigned_small count) by lia.
  erewrite bind_Done;
    [|apply send_v_copy_eq; [done|lia|destruct (_ <? _) eqn:E; lia..]].
  erewrite bind_Done by (eapply wakeup_first_eq; simpl; apply lookup_insert_eq).
  done.
Qed.

Lemma try_send_v_defined b channel src count w :
  world_wf w ->
  match src with
  | Some src => 0 <= count <= Z.of_nat (length src) /\ count < UINT_MOD
  | None => True
  end ->
  (coro_bus_try_send_v b channel src count w).1 ≠ Undefined.
Proof.
  intros Hwf Hcount. unfold coro_bus_try_send_v. rewrite bind_get.
  destruct (check_channel b channel w) as [chan|] eqn:Hcheck; [|done].
  destruct src as [src|]; [|done]. destruct Hcount as [Hcount Hmod].
  destruct (check_live _ _ _ _ Hwf Hcheck) as [c Hc].
  rewrite (bind_Done _ _ _ c w) by by apply deref_eq.
  set (space := to_unsigned (to_size_t (size_limit c - data_size (chan_data c)))).
  assert (Hspace : 0 <= space) by apply to_unsigned_nonneg.
  destruct (space =? 0); [done|].
  erewrite bind_Done;
    [|apply send_v_copy_eq; [done|lia|destruct (_ <? _) eqn:E; lia..]].
  erewrite bind_Done by (eapply wakeup_first_eq; simpl; apply lookup_insert_eq).
  done.
Qed.

(** [coro_bus_try_recv_v] returns, and leaves the world in shape. *)
Lemma try_recv_v_defined b channel data_nonnull cap w :
  world_wf w -> 0 <= cap < UINT_MOD ->
  exists r w', coro_bus_try_recv_v b channel data_nonnull cap w = (Done r, w').
Proof.
  intros Hwf Hcap. unfold coro_bus_try_recv_v. rewrite bind_get.
  destruct (check_channel b channel w) as [chan|] eqn:Hcheck; [|by eexists _, _].
  destruct data_nonnull; [|by eexists _, _].
  destruct (check_live _ _ _ _ Hwf Hcheck) as [c Hc].
  rewrite (bind_Done _ _ _ c w) by by apply deref_eq.
  destruct (_ =? 0) eqn:Esize; [by eexists _, _|].
  pose proof (data_size_nonneg (chan_data c)) as Hsize.
  rewrite to_unsigned_small by (destruct (_ <? _) eqn:E; lia).
  erewrite bind_Done;
    [|apply recv_v_copy_eq; [done|unfold data_size in *; destruct (_ <? _) eqn:E; lia]].
  erewrite bind_Done by (eapply wakeup_first_eq; simpl; apply lookup_insert_eq).
  by eexists _, _.
Qed.

Lemma recv_v_turn_defined self channel cap w :
  world_wf w -> 0 <= cap < UINT_MOD ->
  is_Some (check_channel BUS channel w) ->
  (coro_bus_recv_v_turn self channel true cap w).1 ≠ Undefined.
Proof.
  intros Hwf Hcap [chan Hcheck]. unfold coro_bus_recv_v_turn.
  destruct (try_recv_v_defined BUS channel true cap w Hwf Hcap) as (r & w' & Htry).
  rewrite (bind_Done _ _ _ _ _ Htry).
  pose proof (shape_run_call self (TryRecvV BUS channel true cap) w) as Hshape.
  simpl in Hshape. rewrite Htry in Hshape. simpl in Hshape.
  assert (Hslot : read_slot channel w' = Some (Some chan)).
  { destruct Hshape as (Hbus & _). unfold read_slot. rewrite Hbus.
    apply (check_channel_read_slot _ _ _ _ Hcheck). }
  destruct (shape_live _ _ chan Hshape (check_live _ _ _ _ Hwf Hcheck)) as [c Hc].
  destruct (_ <? 0).
  - unfold coro_bus_errno. erewrite bind_Done by reflexivity.
    destruct (decide _); [|done].
    erewrite bind_Done by reflexivity.
    erewrite bind_Done by (unfold slot, read_slot in *; simpl; by rewrite Hslot).
    cbv beta iota. by rewrite (suspend_this_eq _ c).
  - erewrite bind_Done by (unfold slot; by rewrite Hslot).
    cbv beta iota. rewrite (bind_Done _ _ _ c w') by by apply deref_eq.
    destruct (_ >? 0).
    + by erewrite bind_Done by by apply wakeup_first_eq.
    + by erewrite bind_Done by reflexivity.
Qed.

Lemma open_defined limit malloc_ok realloc_ok w :
  channel_count (bus w) < INT_MAX ->
  (coro_bus_channel_open BUS limit malloc_ok realloc_ok w).1 ≠ Undefined.
Proof.
  intros Hcount. undefined_run Hrun.
  unfold coro_bus_channel_open, malloc_channel, set_channels, free_channel in Hrun.
  munfold. mcases; simpl in *; lia.
Qed.

Lemma close_defined b channel w :
  world_wf w -> (coro_bus_channel_close b channel w).1 ≠ Undefined.
Proof.
  intros Hwf. destruct (check_channel b channel w) as [chan|] eqn:Hcheck.
  - pose proof (check_channel_Some _ _ _ _ Hcheck) as (-> & arr & Harr & _).
    destruct (check_live _ _ _ _ Hwf Hcheck) as [c Hc].
    by rewrite (close_eq _ _ _ _ _ Hcheck Hc Harr).
  - unfold coro_bus_channel_close. by rewrite Hcheck.
Qed.

Lemma world_wf_resume_this self w :
  world_wf w -> world_wf (set_heap (unlink_entry self <$> heap w) w).
Proof.
  apply world_wf_shape. split; [done|]. split; [done|]. simpl. by rewrite dom_fmap_L.
Qed.

(** X22: the bus keeps to its own memory.  On a well-formed bus, with
    arguments in bounds (a handle inside the slot array for
    [coro_bus_recv] and [coro_bus_try_recv], which do not test it; at
    least [count] values behind the data pointer of a batch send; room for
    one more slot in [coro_bus_channel_open]), no segment of any function
    reads the slot array outside its bounds, follows a channel pointer
    that is NULL or freed, or fails the [assert] of the vector: it returns
    or suspends.  That holds as well for a call that continues after its
    channel was closed, or closed and opened again.  What the caller
    hands in and what the allocator answers are no part of this: the
    buffers that [coro_bus_recv], [coro_bus_try_recv] and the batch
    receives write their results to are taken to be valid and large
    enough, and the [realloc] of the storage of a vector, whose result the
    code does not test, is taken to succeed. *)
Theorem bus_memory_is_safe self s w :
  world_wf w -> in_bounds s w -> (run self s w).1 ≠ Undefined.
Proof.
  intros Hwf Hargs. destruct s as [c|k]; simpl in *.
  - destruct c as
      [b limit malloc_ok realloc_ok|b channel|b channel d|b channel d|b channel
       |b channel|b d|b d|b channel src count|b channel src count
       |b channel data_nonnull cap|b channel data_nonnull cap];
      simpl.
    + destruct malloc_ok; [|done]. destruct (Hargs eq_refl) as [-> Hcount].
      by apply open_defined.
    + by apply close_defined.
    + by apply send_defined.
    + by apply try_send_defined.
    + by apply recv_defined.
    + by apply try_recv_defined.
    + by apply broadcast_defined.
    + by apply try_broadcast_defined.
    + unfold coro_bus_send_v. rewrite bind_get.
      destruct (check_channel b channel w) as [chan|] eqn:Hcheck; [|done].
      destruct src as [src|]; [|done]. destruct Hargs as [Hcount Hmod].
      apply send_v_turn_defined;
        first [done|by rewrite (check_channel_read_slot _ _ _ _ Hcheck)].
    + by apply try_send_v_defined.
    + unfold coro_bus_recv_v. rewrite bind_get.
      destruct (check_channel b channel w) as [chan|] eqn:Hcheck; [|done].
      destruct data_nonnull; [|done].
      pose proof (check_channel_Some _ _ _ _ Hcheck) as [-> _].
      apply recv_v_turn_defined; first [done|by rewrite Hcheck].
    + destruct (try_recv_v_defined b channel data_nonnull cap w Hwf Hargs)
        as (r & w' & ->). done.
  - pose proof (world_wf_resume_this self w Hwf) as Hwf1.
    set (w1 := set_heap (unlink_entry self <$> heap w) w) in *.
    destruct k as [channel chan d|channel chan|i d|d|channel chan src count sent
                  |channel cap]; simpl.
    + unfold coro_bus_send_resume. erewrite bind_Done by reflexivity. fold w1.
      destruct (read_slot_in_range channel w1 Hargs) as [s Hslot].
      erewrite bind_Done by (unfold slot; by rewrite Hslot).
      destruct (decide _); [by apply send_defined|done].
    + unfold coro_bus_recv_resume. erewrite bind_Done by reflexivity. fold w1.
      destruct (read_slot_in_range channel w1 Hargs) as [s Hslot].
      erewrite bind_Done by (unfold slot; by rewrite Hslot).
      destruct (decide _) as [->|]; [|done].
      apply recv_loop_defined. by eapply read_slot_live.
    + unfold coro_bus_broadcast_resume. erewrite bind_Done by reflexivity. fold w1.
      rewrite bind_get.
      pose proof (park_defined self d (drop (Z.to_nat (i + 1)) (slots w1)) (i + 1) w1
                    (live_slots_drop _ _ _ (live_slots_wf _ Hwf1))) as Hpark.
      unfold slots in Hpark.
      destruct (broadcast_park _ _ _ _ _) as [[[]| | |] w2] eqn:Epark; try done.
      * pose proof (park_Done _ _ _ _ _ _ Epark) as ->.
        erewrite bind_Done by exact Epark.
        by apply broadcast_defined.
      * unfold bind. by rewrite Epark.
      * unfold bind. by rewrite Epark.
    + by apply broadcast_defined.
    + destruct Hargs as (Hrange & -> & Hcount & Hmod).
      unfold coro_bus_send_v_resume. erewrite bind_Done by reflexivity. fold w1.
      destruct (read_slot_in_range channel w1 Hrange) as [s Hslot].
      erewrite bind_Done by (unfold slot; by rewrite Hslot).
      destruct (decide _); [|done].
      apply send_v_turn_defined; first [done|by rewrite Hslot].
    + unfold coro_bus_recv_v_resume. erewrite bind_Done by reflexivity. fold w1.
      undefined_run Hrun.
      unfold coro_bus_recv_v_turn in Hrun.
      destruct (try_recv_v_defined BUS channel true cap w1 Hwf1 Hargs)
        as (r & w2 & Htry).
      destruct (check_channel BUS channel w1) as [chan|] eqn:Hcheck.
      * pose proof (recv_v_turn_defined self channel cap w1 Hwf1 Hargs) as Hturn.
        unfold coro_bus_recv_v_turn in Hturn. rewrite Hrun in Hturn.
        rewrite Hcheck in Hturn. by apply Hturn.
      * rewrite (bind_Done _ _ _ _ _ Htry) in Hrun.
        unfold coro_bus_try_recv_v in Htry. rewrite bind_get, Hcheck in Htry.
        munfold. by simplify_eq.
Qed.

Lemma bus_memory_is_safe_witness :
  (run 0%nat (Call (TryRecv BUS 0)) (one_channel 2)).1 ≠ Undefined.
Proof.
  apply (bus_memory_is_safe 0%nat (Call (TryRecv BUS 0)) (one_channel 2)).
  - apply world_wf_open, world_wf_new.
  - simpl. intros _ _. vm_compute. split; [discriminate|reflexivity].
Defined.

(** ** A batch receive continues on whatever the slot holds *)

Lemma read_slot_bus channel w w' :
  bus w' = bus w -> read_slot channel w' = read_slot channel w.
Proof. intros H. unfold read_slot. by rewrite H. Qed.

(** X23: [coro_bus_recv_v] does not remember its channel.  When a
    coroutine suspended in [coro_bus_recv_v] continues, it looks the handle
    up again and receives from the channel that the slot holds then: if
    the channel it waited on was closed and the handle given out again,
    it takes the messages of the new channel ([coro_bus_send] and
    [coro_bus_recv] compare the channel and fail instead). *)
Theorem recv_v_continues_on_the_slot self w channel chan c cap :
  check_channel BUS channel w = Some chan ->
  heap w !! chan = Some c ->
  data (chan_data c) ≠ [] ->
  0 <= cap <= INT_MAX ->
  let n := Z.min cap (data_size (chan_data c)) in
  exists w',
    coro_bus_recv_v_resume self channel cap w
      = (Done (RetInt n (take (Z.to_nat n) (data (chan_data c)))), w') /\
    chan_data <$> heap w' !! chan
      = Some (DataVector (drop (Z.to_nat n) (data (chan_data c))) (capacity (chan_data c))).
Proof.
  intros Hcheck Hc Hdata Hcap. simpl.
  set (w0 := set_heap (unlink_entry self <$> heap w) w).
  assert (Hcheck0 : check_channel BUS channel w0 = Some chan).
  { by rewrite (check_channel_bus _ _ w w0). }
  assert (Hc0 : heap w0 !! chan = Some (unlink_entry self c)).
  { simpl. by rewrite lookup_fmap, Hc. }
  pose proof (try_recv_v_eq w0 channel chan (unlink_entry self c) cap Hcheck0 Hc0 Hdata Hcap)
    as Htry.
  simpl in Htry.
  pose proof (data_size_nonneg (chan_data c)) as Hsize.
  unfold coro_bus_recv_v_resume. erewrite bind_Done by reflexivity. fold w0.
  unfold coro_bus_recv_v_turn. rewrite (bind_Done _ _ _ _ _ Htry). simpl.
  destruct (_ <? 0) eqn:E; [lia|].
  erewrite bind_Done;
    [|unfold slot; rewrite (read_slot_bus channel w) by done;
      by rewrite (check_channel_read_slot _ _ _ _ Hcheck)].
  cbv beta iota.
  erewrite bind_Done by (apply deref_eq; simpl; apply lookup_insert_eq).
  destruct (_ >? 0).
  - erewrite bind_Done by (eapply wakeup_first_eq; simpl; apply lookup_insert_eq).
    eexists. split; [reflexivity|]. simpl. by rewrite lookup_insert_eq.
  - erewrite bind_Done by reflexivity.
    eexists. split; [reflexivity|]. simpl. by rewrite lookup_insert_eq.
Qed.

Lemma recv_v_continues_on_the_slot_witness :
  let c := Channel 1 [] [] (DataVector [9] 4) in
  let n := Z.min 3 (data_size (chan_data c)) in
  exists w',
    coro_bus_recv_v_resume 5%nat 1 3 two_channels
      = (Done (RetInt n (take (Z.to_nat n) (data (chan_data c)))), w') /\
    chan_data <$> heap w' !! 1%nat
      = Some (DataVector (drop (Z.to_nat n) (data (chan_data c))) (capacity (chan_data c))).
Proof.
  apply (recv_v_continues_on_the_slot 5%nat two_channels 1 1%nat
           (Channel 1 [] [] (DataVector [9] 4)) 3).
  - vm_compute. reflexivity.
  - vm_compute. reflexivity.
  - simpl. discriminate.
  - vm_compute. split; discriminate.
Defined.

(** ** The slot array over a run *)

Lemma count_run self seg w o w' :
  run self seg w = (o, w') -> o ≠ Undefined ->
  channel_count (bus w) <= channel_count (bus w').
Proof.
  intros Hrun Ho. destruct seg as [c|k]; simpl in Hrun.
  - pose proof (shape_run_call self c) as Hshape.
    destruct c as
      [b limit malloc_ok realloc_ok|b channel|b channel d|b channel d|b channel
       |b channel|b d|b d|b channel src count|b channel src count
       |b channel data_nonnull cap|b channel data_nonnull cap];
      simpl in Hrun;
      try (specialize (Hshape w); simpl in Hshape; rewrite Hrun in Hshape;
           simpl in Hshape; destruct Hshape as [-> _]; lia).
    + destruct o as [[|h out|]| | |]; try done.
      all: try (unfold coro_bus_channel_open, malloc_channel, set_channels,
                  free_channel in Hrun; munfold; mcases; simpl; lia).
      assert (out = []) as ->.
      { unfold coro_bus_channel_open, malloc_channel, set_channels, free_channel in Hrun.
        munfold. mcases; done. }
      destruct b; [unfold coro_bus_channel_open in Hrun; munfold; by mcases|].
      destruct malloc_ok; [|unfold coro_bus_channel_open in Hrun; by munfold].
      apply open_Done in Hrun as (arr' & -> & Hcase).
      unfold channel_count, slots in *. simpl.
      destruct Hcase as [[_ ->]|(_ & _ & ->)].
      * rewrite length_insert. by destruct (channels (bus w)).
      * rewrite length_app. destruct (channels (bus w)); simpl; lia.
    + unfold coro_bus_channel_close in Hrun.
      destruct (check_channel b channel w) as [chan|] eqn:Hcheck; [|by simplify_eq].
      pose proof (check_channel_Some _ _ _ _ Hcheck) as (-> & arr & Harr & _).
      unfold bind at 1 in Hrun. unfold deref in Hrun.
      destruct (heap w !! chan) as [c|] eqn:Hc; [|by simplify_eq].
      pose proof (close_eq _ _ _ _ _ Hcheck Hc Harr) as Hclose.
      unfold coro_bus_channel_close in Hclose. rewrite Hcheck in Hclose.
      unfold bind at 1 in Hclose. unfold deref in Hclose. rewrite Hc in Hclose.
      rewrite Hclose in Hrun. simplify_eq. unfold channel_count. simpl.
      rewrite Harr, length_insert. lia.
  - pose proof (shape_run_resume self k w) as Hshape. rewrite Hrun in Hshape.
    simpl in Hshape. destruct Hshape as [-> _]. lia.
Qed.

(** X25: the slot array never shrinks.  Along every run of the system the
    number of slots only grows: a close empties a slot and an open reuses
    it, so a handle that was once inside the array stays inside it. *)
Theorem slot_array_never_shrinks s s' :
  rtc any_step s s' ->
  channel_count (bus (sys_world s)) <= channel_count (bus (sys_world s')).
Proof.
  induction 1 as [|s1 s2 s3 (self & seg & Hstep) _ IH]; [lia|].
  etrans; [|exact IH].
  destruct Hstep as [c w ts a o w' _ _ Hrun Ho|k w ts o w' _ _ Hrun Ho]; simpl.
  - by apply (count_run self (Call c)) in Hrun.
  - by apply (count_run self (Resume k)) in Hrun.
Qed.

Lemma slot_array_never_shrinks_witness :
  channel_count (bus (sys_world initial))
  <= channel_count (bus (sys_world parked_receiver)).
Proof.
  apply (slot_array_never_shrinks initial parked_receiver).
  exact parked_receiver_reachable.
Defined.

(** ** When the blocking functions block *)

(** X26: [coro_bus_send] suspends exactly when the channel is full, and
    [coro_bus_recv] exactly when it is empty.  On a valid handle
    [coro_bus_send] ends suspended if the channel holds at least
    [size_limit] messages and returns 0 otherwise; [coro_bus_recv] ends
    suspended if the channel holds no message and returns 0 with the oldest
    message otherwise. *)
Theorem send_and_recv_block_when_they_must self w channel chan c d :
  check_channel BUS channel w = Some chan ->
  heap w !! chan = Some c ->
  (coro_bus_send self BUS channel d w).1
    = (if data_size (chan_data c) <? size_limit c then Done (RetInt 0 [])
       else Parked (KSend channel chan d)) /\
  (coro_bus_recv self BUS channel w).1
    = match data (chan_data c) with
      | [] => Parked (KRecv channel chan)
      | oldest :: _ => Done (RetInt 0 [oldest])
      end.
Proof.
  intros Hcheck Hc. split.
  - destruct (_ <? _) eqn:E.
    + by rewrite (send_eq _ _ _ _ _ _ Hcheck Hc) by lia.
    + by rewrite (send_parks_eq _ _ _ _ _ _ Hcheck Hc) by lia.
  - destruct (data (chan_data c)) as [|oldest l] eqn:Hd.
    + by apply (blocking_parks self w channel chan c Hcheck Hc).
    + pose proof (recv_eq self true _ _ _ _ _ _ Hcheck Hc Hd) as Hrecv.
      simpl in Hrecv. by rewrite Hrecv.
Qed.

Lemma send_and_recv_block_when_they_must_witness :
  let c := Channel 1 [] [] (DataVector [9] 4) in
  (coro_bus_send 0%nat BUS 1 5 two_channels).1
    = (if data_size (chan_data c) <? size_limit c then Done (RetInt 0 [])
       else Parked (KSend 1 1%nat 5)) /\
  (coro_bus_recv 0%nat BUS 1 two_channels).1
    = match data (chan_data c) with
      | [] => Parked (KRecv 1 1%nat)
      | oldest :: _ => Done (RetInt 0 [oldest])
      end.
Proof.
  apply (send_and_recv_block_when_they_must 0%nat two_channels 1 1%nat
           (Channel 1 [] [] (DataVector [9] 4)) 5).
  - vm_compute. reflexivity.
  - vm_compute. reflexivity.
Defined.

(** ** A broadcast that goes through reaches every channel *)

(** A turn of [coro_bus_broadcast] that returns 0 has appended the message
    to every open channel and to no other. *)
Lemma broadcast_commits self d w w' :
  world_wf w ->
  coro_bus_broadcast self BUS d w = (Done (RetInt 0 []), w') ->
  bus w' = bus w /\
  forall chan c, heap w !! chan = Some c ->
    heap w' !! chan = Some (if decide (in_slots chan w) then with_message d c else c).
Proof.
  intros Hwf Hrun. unfold coro_bus_broadcast in Hrun. rewrite bind_get in Hrun.
  destruct (channels (bus w)) as [arr|] eqn:Harr; [|munfold; by simplify_eq].
  destruct (channel_count (bus w) =? 0); [munfold; by simplify_eq|].
  destruct (negb (any_channel_exists arr)); [munfold; by simplify_eq|].
  assert (Hslots : slots w = arr) by (unfold slots; by rewrite Harr).
  apply bind_Done_inv in Hrun as (all_ready & w1 & Hnone & Hrun).
  pose proof (none_blocked_world _ _ _ _ _ Hnone) as ->.
  destruct all_ready.
  - destruct (commit_eq d arr w) as (h & r & Hcommit & Hh).
    { rewrite <- Hslots. by apply live_slots_wf. }
    { intros i j chan. rewrite <- Hslots. apply (wf_alias _ Hwf). }
    rewrite (bind_Done _ _ _ _ _ Hcommit) in Hrun. unfold pure in Hrun. simplify_eq.
    split; [done|]. intros chan c Hc. simpl. rewrite Hh, Hc. unfold in_slots.
    by destruct (decide _).
  - destruct (blocked_parks self d arr 0 _ _ Hnone) as (j & w2 & Hpark).
    unfold bind in Hrun. by rewrite Hpark in Hrun.
Qed.

(** X27: when [coro_bus_broadcast] returns 0 on a well-formed bus, at
    once or after it has waited, every open channel has the message behind
    its queue, exactly once, and the channels that are not in the slots
    are as they were: the blocking broadcast, too, never delivers to a part
    of the channels.  A broadcast that waited starts over when it
    continues, so what it delivers to are the channels that are open
    then. *)
Theorem broadcast_reaches_every_channel self s d w w' :
  world_wf w ->
  match s with
  | Call (Broadcast _ d') | Resume (KBroadcast _ d') => d' = d
  | _ => False
  end ->
  run self s w = (Done (RetInt 0 []), w') ->
  bus w' = bus w /\
  forall chan c, heap w !! chan = Some c ->
    heap w' !! chan
    = Some (if decide (in_slots chan w) then with_message d (entered self s c)
            else entered self s c).
Proof.
  intros Hwf Hs Hrun.
  destruct s as [[| | | | | |b d'| | | | |]|[| |i d'| | |]]; try done; subst d'.
  - simpl in Hrun. destruct b; [unfold coro_bus_broadcast in Hrun; munfold; by simplify_eq|].
    by apply (broadcast_commits self d w w').
  - simpl in Hrun. unfold coro_bus_broadcast_resume in Hrun.
    erewrite bind_Done in Hrun by reflexivity.
    set (w1 := set_heap (unlink_entry self <$> heap w) w) in *.
    rewrite bind_get in Hrun.
    destruct (broadcast_park self d (drop (Z.to_nat (i + 1)) (default [] (channels (bus w1))))
                (i + 1) w1) as [[[]| | |] w2] eqn:Epark;
      unfold bind in Hrun; rewrite Epark in Hrun; try done.
    pose proof (park_Done _ _ _ _ _ _ Epark) as ->.
    destruct (broadcast_commits self d w1 w'
                (world_wf_resume_this self w Hwf) Hrun) as [Hbus Hheap].
    split; [done|]. intros chan c Hc.
    apply (Hheap chan (unlink_entry self c)). simpl. by rewrite lookup_fmap, Hc.
Qed.

Lemma broadcast_reaches_every_channel_witness :
  let s := Resume (KBroadcast 0 7) in
  let w' := exec (run 2%nat s) waited_broadcast in
  bus w' = bus waited_broadcast /\
  forall chan c, heap waited_broadcast !! chan = Some c ->
    heap w' !! chan
    = Some (if decide (in_slots chan waited_broadcast)
            then with_message 7 (entered 2%nat s c) else entered 2%nat s c).
Proof.
  apply (broadcast_reaches_every_channel 2%nat (Resume (KBroadcast 0 7)) 7 waited_broadcast).
  - unfold waited_broadcast, one_channel, exec.
    do 3 apply world_wf_run. apply world_wf_open, world_wf_new.
  - reflexivity.
  - vm_compute. reflexivity.
Defined.

(** ** Open and close undo each other *)

(** X28: closing the handle that an open has just returned gives back the
    heap as it was before the open, with no block of the channel left
    allocated; the error code and the runnable coroutines are unchanged,
    and every handle names what it named before the open. *)
Theorem open_then_close limit realloc_ok w h w1 :
  world_wf w ->
  coro_bus_channel_open BUS limit true realloc_ok w = (Done (RetInt h []), w1) ->
  exists w2,
    coro_bus_channel_close BUS h w1 = (Done RetVoid, w2) /\
    heap w2 = heap w /\
    global_error w2 = global_error w /\
    runnable w2 = runnable w /\
    forall channel, check_channel BUS channel w2 = check_channel BUS channel w.
Proof.
  intros Hwf Hopen.
  pose proof (world_wf_open BUS limit true realloc_ok w Hwf) as Hwf1.
  rewrite Hopen in Hwf1. simpl in Hwf1.
  destruct (open_keeps_channels_parts limit realloc_ok w h w1 Hwf Hopen)
    as (Hbefore & Hafter & Hfresh & Hnew & Hold & Herr & Hrunnable).
  pose proof (check_channel_Some _ _ _ _ Hafter) as (_ & arr & Harr & Hh0 & _).
  rewrite (close_eq _ _ _ _ _ Hafter Hnew Harr). eexists. split; [reflexivity|].
  simpl. apply open_Done in Hopen as (arr' & -> & Hcase). simpl in *.
  split_and!; try done.
  - rewrite delete_insert_id; done.
  - rewrite !union_empty_l_L. done.
  - intros channel. simplify_eq.
    destruct (check_channel BUS channel w) as [chan|] eqn:Hcheck.
    + destruct (decide (channel = h)) as [->|Hne]; [congruence|].
      apply check_channel_slots. apply check_channel_slots in Hcheck as [Hpos Hs].
      split; [done|]. unfold slots at 1. simpl.
      rewrite list_lookup_insert_ne by lia.
      destruct Hcase as [[Hfree ->]|(_ & _ & ->)].
      * apply first_free_slot_Some in Hfree as (Hh & _).
        rewrite list_lookup_insert_ne by lia. done.
      * rewrite lookup_app_l; [done|]. by eapply lookup_lt_Some.
    + apply check_channel_None. intros chan [Hpos Hs]. unfold slots in Hs. simpl in Hs.
      destruct (decide (channel = h)) as [->|Hne].
      * rewrite list_lookup_insert_eq in Hs; [done|].
        destruct Hcase as [[Hfree ->]|(_ & -> & ->)].
        -- apply first_free_slot_Some in Hfree as (Hh & Hfree & _).
           rewrite Z.sub_0_r in Hfree. rewrite length_insert.
           by eapply lookup_lt_Some.
        -- rewrite length_app. simpl. lia.
      * rewrite list_lookup_insert_ne in Hs by lia.
        apply (proj1 (check_channel_None channel w) Hcheck chan). split; [done|].
        destruct Hcase as [[Hfree ->]|(_ & -> & ->)].
        -- apply first_free_slot_Some in Hfree as (Hh & _).
           rewrite list_lookup_insert_ne in Hs by lia. done.
        -- apply lookup_app_Some in Hs as [Hs|[Hl Hs]]; [done|].
           apply list_lookup_singleton_Some in Hs as [Hs _]. lia.
Qed.

Lemma open_then_close_witness :
  exists w2,
    coro_bus_channel_close BUS 1
      (exec (coro_bus_channel_open BUS 7 true true) (one_channel 2)) = (Done RetVoid, w2) /\
    heap w2 = heap (one_channel 2) /\
    global_error w2 = global_error (one_channel 2) /\
    runnable w2 = runnable (one_channel 2) /\
    forall channel,
      check_channel BUS channel w2 = check_channel BUS channel (one_channel 2).
Proof.
  apply (open_then_close 7 true (one_channel 2) 1).
  - apply world_wf_open, world_wf_new.
  - vm_compute. reflexivity.
Defined.

(** ** The wait queues hold the waiting coroutines and nobody else *)

#[global] Instance others_queues_preorder self : PreOrder (others_queues self).
Proof.
  split; [by intros w chan|].
  intros w1 w2 w3 H12 H23 chan. by rewrite H23, H12.
Qed.

Lemma others_same_heap self w w' : heap w' = heap w -> others_queues self w w'.
Proof. intros H chan. by rewrite H. Qed.

Lemma others_insert self w w' chan c c' :
  heap w !! chan = Some c -> others self c' = others self c ->
  heap w' = <[chan := c']> (heap w) ->
  others_queues self w w'.
Proof.
  intros Hc Ho Hh chan'. rewrite Hh. destruct (decide (chan' = chan)) as [->|Hne].
  - rewrite lookup_insert_eq, Hc. simpl. by rewrite Ho.
  - by rewrite lookup_insert_ne.
Qed.

Lemma others_errno_set self e : respects (others_queues self) (coro_bus_errno_set e).
Proof. intros w. by apply others_same_heap. Qed.

Lemma others_wakeup self c : respects (others_queues self) (coro_wakeup c).
Proof. intros w. by apply others_same_heap. Qed.

Lemma others_yield {A} self k : respects (others_queues self) (@coro_yield A self k).
Proof. intros w. by apply others_same_heap. Qed.

Lemma others_append self chan d : respects (others_queues self) (channel_append chan d).
Proof.
  intros w. unfold channel_append, bind, deref.
  destruct (heap w !! chan) as [c|] eqn:E; simpl; [|reflexivity].
  eapply others_insert; [exact E| |reflexivity]; done.
Qed.

Lemma others_pop_first self chan : respects (others_queues self) (channel_pop_first chan).
Proof.
  intros w. unfold channel_pop_first, bind, deref.
  destruct (heap w !! chan) as [c|] eqn:E; simpl; [|reflexivity].
  destruct (data_vector_pop_first (chan_data c)) as [[d vector]|]; simpl; [|reflexivity].
  eapply others_insert; [exact E| |reflexivity]; done.
Qed.

Lemma del_entry_add_tail self q :
  rlist_del_entry self (rlist_add_tail_entry q self) = rlist_del_entry self q.
Proof.
  unfold rlist_del_entry, rlist_add_tail_entry, wakeup_queue. rewrite filter_app.
  rewrite (filter_cons_False _ self) by (intros H; by apply H).
  by rewrite filter_nil, app_nil_r.
Qed.

Lemma del_entry_idemp self q :
  rlist_del_entry self (rlist_del_entry self q) = rlist_del_entry self q.
Proof.
  unfold rlist_del_entry, wakeup_queue in *. induction q as [|x q IH]; [done|].
  destruct (decide (x ≠ self)).
  - rewrite !filter_cons_True by done. by rewrite IH.
  - by rewrite filter_cons_False by done.
Qed.

Lemma others_suspend_this {A} self chan q k :
  respects (others_queues self) (@wakeup_queue_suspend_this A chan q self k).
Proof.
  intros w. unfold wakeup_queue_suspend_this, bind, deref.
  destruct (heap w !! chan) as [c|] eqn:E; simpl; [|reflexivity].
  eapply others_insert; [exact E| |reflexivity].
  unfold others. destruct q; simpl; by rewrite del_entry_add_tail.
Qed.

Lemma others_resume_this self : respects (others_queues self) (wakeup_queue_resume_this self).
Proof.
  intros w chan. simpl. rewrite lookup_fmap.
  destruct (heap w !! chan) as [c|]; [|done]. simpl.
  unfold others. simpl. by rewrite !del_entry_idemp.
Qed.

(** Every segment but open and close leaves the entries of the other
    coroutines where they are. *)
Lemma others_run self s :
  match s with
  | Call (Open _ _ _ _) | Call (Close _ _) => True
  | _ => respects (others_queues self) (run self s)
  end.
Proof.
  destruct s as [c|k].
  - pose proof (R_run_call (others_queues self) self
                  (others_errno_set self) (others_wakeup self)
                  (fun A k => others_yield self k)
                  (others_append self) (others_pop_first self)
                  (fun A chan q k => others_suspend_this self chan q k) c) as H.
    by destruct c.
  - apply (R_run_resume (others_queues self) self);
      auto using others_errno_set, others_wakeup, others_append, others_pop_first,
        others_resume_this.
    + intros. apply others_yield.
    + intros. apply others_suspend_this.
Qed.

Lemma others_elem_of self c c' q t :
  others self c' = others self c -> t ≠ self ->
  t ∈ queue_of q c' <-> t ∈ queue_of q c.
Proof.
  unfold others, rlist_del_entry, wakeup_queue. intros [= Hs Hr] Hne.
  assert (Hfwd : forall l l' : list coro,
             filter (fun x => x ≠ self) l' = filter (fun x => x ≠ self) l ->
             t ∈ l' -> t ∈ l).
  { intros l l' E H.
    assert (t ∈ filter (fun x => x ≠ self) l) as Hin
      by (rewrite <- E; by apply list_elem_of_filter).
    by apply list_elem_of_filter in Hin as [_ ?]. }
  destruct q; simpl; split; apply Hfwd; done.
Qed.

(** A path that returns: no step of it writes to a wait queue. *)
Ltac queue_steps :=
  repeat match goal with
  | a : () |- _ => destruct a
  | H : decide _ = _ |- _ => clear H
  | H : none_blocked _ _ _ = _ |- _ => apply none_blocked_world in H; subst
  | H : broadcast_park _ _ _ _ _ = (Done _, _) |- _ => apply park_Done in H; subst
  | H : wakeup_queue_suspend_this _ _ _ _ _ = (Done _, _) |- _ =>
      by apply suspend_this_parks in H as [|]
  | H : wakeup_queue_resume_this _ _ = _ |- _ =>
      unfold wakeup_queue_resume_this, modify in H; simplify_eq
  | H : channel_append _ _ _ = _ |- _ =>
      eapply (respects_run same_queues) in H; [|apply queues_append]
  | H : channel_pop_first _ _ = _ |- _ =>
      eapply (respects_run same_queues) in H; [|apply queues_pop_first]
  | H : wakeup_queue_wakeup_first _ _ _ = _ |- _ =>
      eapply (respects_run same_queues) in H; [|apply queues_wakeup_first]
  | H : broadcast_commit _ _ _ = _ |- _ =>
      eapply (respects_run same_queues) in H; [|apply queues_commit]
  | H : send_v_copy _ _ _ _ _ _ = _ |- _ =>
      eapply (respects_run same_queues) in H; [|apply queues_send_v_copy]
  | H : recv_v_copy _ _ _ = _ |- _ =>
      eapply (respects_run same_queues) in H; [|apply queues_recv_v_copy]
  end;
  unfold same_queues in *; simpl in *;
  let chan := fresh "chan" in
  intros chan;
  repeat match goal with
  | H : forall _ : _, _ /\ _ |- _ => specialize (H chan)
  end;
  destruct_and?; split; congruence.

(** A call that returns, other than open and close, has left the wait
    queues as they were. *)
Lemma done_same_queues self c w r w' :
  match c with Open _ _ _ _ | Close _ _ => False | _ => True end ->
  run_call self c w = (Done r, w') -> same_queues w w'.
Proof.
  intros Hc Hrun. destruct c; try done; simpl in Hrun; light_paths Hrun; queue_steps.
Qed.

(** A suspended call that continues and returns has taken the entry of
    its coroutine out of the wait queues and changed nothing else in
    them. *)
Lemma done_same_queues_resume self k w r w' :
  match k with KBroadcastYield _ => False | _ => True end ->
  run_resume self k w = (Done r, w') ->
  same_queues (set_heap (unlink_entry self <$> heap w) w) w'.
Proof.
  intros Hk Hrun. destruct k; try done; simpl in Hrun; light_paths Hrun; queue_steps.
Qed.

#[global] Instance no_new_entries_preorder : PreOrder no_new_entries.
Proof.
  split.
  - intros w chan c q t Hc Hin. eauto.
  - intros w1 w2 w3 H12 H23 chan c3 q t Hc3 Hin.
    destruct (H23 _ _ _ _ Hc3 Hin) as (c2 & Hc2 & Hin2). eauto.
Qed.

Lemma no_new_same_heap w w' : heap w' = heap w -> no_new_entries w w'.
Proof. intros H chan c q t Hc Hin. rewrite H in Hc. eauto. Qed.

Lemma no_new_malloc c :
  send_queue c = [] -> recv_queue c = [] -> respects no_new_entries (malloc_channel c).
Proof.
  intros Hs Hr w chan c' q t. simpl.
  destruct (decide (chan = next_addr w)) as [->|Hne].
  - rewrite lookup_insert_eq. intros [= <-] Hin.
    destruct q; simpl in Hin; rewrite ?Hs, ?Hr in Hin; by apply elem_of_nil in Hin.
  - rewrite lookup_insert_ne by done. eauto.
Qed.

Lemma no_new_free chan : respects no_new_entries (free_channel chan).
Proof. intros w chan' c' q t. simpl. intros [_ Hc]%lookup_delete_Some. eauto. Qed.

(** Open and close put no coroutine into a wait queue. *)
Lemma no_new_open_close self c :
  match c with
  | Open _ _ _ _ | Close _ _ => respects no_new_entries (run_call self c)
  | _ => True
  end.
Proof.
  assert (He : forall e, respects no_new_entries (coro_bus_errno_set e))
    by (intros e w; by apply no_new_same_heap).
  assert (Hw : forall t, respects no_new_entries (coro_wakeup t))
    by (intros t w; by apply no_new_same_heap).
  assert (Hs : forall arr, respects no_new_entries (set_channels arr))
    by (intros arr w; by apply no_new_same_heap).
  assert (Hm : forall limit, respects no_new_entries (malloc_channel (new_channel limit)))
    by (intros limit; by apply no_new_malloc).
  pose proof no_new_free.
  destruct c; try done; simpl.
  - unfold coro_bus_channel_open. respects_tac.
  - by apply (R_close _); auto using no_new_free.
Qed.

(** A segment that suspends does so in a wait queue, at a place where it
    continues after a wake-up. *)
Lemma run_parks_entry self s w d w' :
  run self s w ≠ (Parked (KBroadcastYield d), w').
Proof.
  intros Hrun.
  assert (Hno : forall A (m : M A) w0 w1,
             m w0 = (Parked (KBroadcastYield d), w1) -> no_suspend m -> False).
  { intros A m w0 w1 H Hm. by eapply no_suspend_run in H. }
  destruct s as [[]|[]]; simpl in Hrun.
  all: try (light_paths Hrun;
    repeat match goal with
    | H : wakeup_queue_suspend_this _ _ _ _ _ = _ |- _ =>
        apply suspend_this_parks in H as [|]; by simplify_eq
    | H : broadcast_park _ _ _ _ _ = (Parked _, _) |- _ =>
        apply park_outcome in H as [|[|[]]]; by simplify_eq
    | H : _ = (Parked _, _) |- _ =>
        by eapply Hno in H; [|solve [auto 1 with no_suspend]]
    end).
  unfold coro_bus_channel_close in Hrun.
  destruct (check_channel _ _ _); [|done].
  eapply Hno in Hrun; [done|]. no_suspend_tac.
Qed.

Lemma same_queues_elem_of w w' chan c' q t :
  same_queues w w' -> heap w' !! chan = Some c' -> t ∈ queue_of q c' ->
  exists c, heap w !! chan = Some c /\ t ∈ queue_of q c.
Proof.
  intros Hsame Hc' Hin. destruct (Hsame chan) as [Hs Hr]. rewrite Hc' in Hs, Hr.
  destruct (heap w !! chan) as [c|]; [|done]. exists c. split; [done|].
  simpl in Hs, Hr. destruct q; simpl in *; congruence.
Qed.

Lemma others_queues_elem_of self w w' chan c' q t :
  others_queues self w w' -> t ≠ self ->
  heap w' !! chan = Some c' -> t ∈ queue_of q c' ->
  exists c, heap w !! chan = Some c /\ t ∈ queue_of q c.
Proof.
  intros Ho Hne Hc' Hin. specialize (Ho chan). rewrite Hc' in Ho.
  destruct (heap w !! chan) as [c|]; [|done]. exists c. split; [done|].
  simpl in Ho. eapply others_elem_of; [|done..]. congruence.
Qed.

(** After a segment of [self], every entry in a wait queue was there
    before, unless it is the one with which [self] has just suspended. *)
Lemma entries_after_run self seg w o w' chan c' q t :
  match seg with Resume (KBroadcastYield _) => False | _ => True end ->
  run self seg w = (o, w') ->
  heap w' !! chan = Some c' -> t ∈ queue_of q c' ->
  (t = self /\ forall r, o ≠ Done r) \/
  (exists c, heap w !! chan = Some c /\ t ∈ queue_of q c /\
     (t = self -> exists c0, seg = Call c0)).
Proof.
  intros Hseg Hrun Hc' Hin.
  assert (Hoc : match seg with
                | Call (Open _ _ _ _) | Call (Close _ _) => no_new_entries w w'
                | _ => True
                end).
  { destruct seg as [c|k]; [|done]. pose proof (no_new_open_close self c) as H.
    destruct c; try done; specialize (H w); simpl in *; by rewrite Hrun in H. }
  destruct (decide (t = self)) as [->|Hne].
  - destruct o as [r|k|k|]; [|by left..].
    right. destruct seg as [c|k].
    + assert (exists c0, heap w !! chan = Some c0 /\ self ∈ queue_of q c0) as (c0 & ? & ?).
      { destruct c; try (by eapply Hoc);
          (eapply same_queues_elem_of; [|done..];
           eapply done_same_queues; [|exact Hrun]; done). }
      eauto 6.
    + apply done_same_queues_resume in Hrun; [|done].
      destruct (same_queues_elem_of _ _ _ _ _ _ Hrun Hc' Hin) as (c & Hc & Hself).
      simpl in Hc. rewrite lookup_fmap in Hc.
      destruct (heap w !! chan) as [c0|]; simplify_eq/=.
      destruct q; simpl in Hself; apply list_elem_of_filter in Hself as [? _]; done.
  - right.
    assert (exists c, heap w !! chan = Some c /\ t ∈ queue_of q c) as (c & ? & ?);
      [|exists c; by split_and!].
    pose proof (others_run self seg) as Hothers.
    destruct seg as [[]|k]; try (by eapply Hoc);
      (eapply (others_queues_elem_of self); [|done..];
       specialize (Hothers w); simpl in *; by rewrite Hrun in Hothers).
Qed.

Lemma queued_inv_step self seg s s' :
  queued_inv s -> no_yielded s -> step self seg s s' ->
  queued_inv s' /\ no_yielded s'.
Proof.
  intros Hq Hy Hstep.
  assert (Hsettle : forall w w' o ts,
             run self seg w = (o, w') -> no_yielded (System w ts) ->
             no_yielded (System w' (settle self o ts))).
  { intros w w' o ts Hrun Hts t d Ht. simpl in Ht.
    destruct (decide (t = self)) as [->|Hne].
    - apply settle_self in Ht as [->| ->]; [by apply run_parks_entry in Hrun|].
      pose proof (run_never_yields self seg w (KBroadcastYield d)) as H.
      by rewrite Hrun in H.
    - rewrite settle_other in Ht by done. by eapply Hts. }
  destruct Hstep
    as [c w ts a o w' Hself Ha Hrun Ho|k w ts o w' Hself Hrunnable Hrun Ho].
  - split; [|eapply Hsettle; [done|]; intros t d; apply (Hy t d)].
    intros chan c' q t Hc' Hin. simpl in *.
    destruct (entries_after_run self (Call c) _ o w' chan c' q t I Hrun Hc' Hin)
      as [[-> Hnd]|(c0 & Hc0 & Hin0 & _)].
    + destruct o as [r| | |]; simpl; rewrite ?lookup_insert_eq; try done.
      by destruct (Hnd r).
    + destruct (decide (t = self)) as [->|Hne].
      * destruct (Hq chan c0 q self Hc0 Hin0) as [? ?]. simpl in *. congruence.
      * rewrite settle_other by done. by eapply Hq.
  - split; [|eapply Hsettle; [done|]; intros t d; apply (Hy t d)].
    assert (Hk : match k with KBroadcastYield _ => False | _ => True end).
    { destruct k; try done. by eapply Hy. }
    intros chan c' q t Hc' Hin. simpl in *.
    destruct (entries_after_run self (Resume k) _ o w' chan c' q t Hk Hrun Hc' Hin)
      as [[-> Hnd]|(c0 & Hc0 & Hin0 & Hcall)].
    + destruct o as [r| | |]; simpl; rewrite ?lookup_insert_eq; try done.
      by destruct (Hnd r).
    + destruct (decide (t = self)) as [->|Hne]; [by destruct Hcall as [? ?]|].
      rewrite settle_other by done. by eapply Hq.
Qed.

Lemma reachable_queued_inv s : reachable s -> queued_inv s /\ no_yielded s.
Proof.
  unfold reachable. revert s. apply rtc_ind_r.
  - split.
    + intros chan c q t Hc. simpl in Hc. by rewrite lookup_empty in Hc.
    + intros t d Ht. simpl in Ht. by rewrite lookup_empty in Ht.
  - intros s s' _ (self & seg & Hstep) [Hq Hy]. by eapply queued_inv_step.
Qed.

(** X29: the wait queues hold suspended coroutines only.  In every state
    the bus can reach, a coroutine that has an entry in the send or the
    receive queue of a live channel is suspended inside a blocking call: a
    call that returns has taken its entry out of the queue
    ([rlist_del_entry] after [coro_suspend]), open and close enqueue
    nobody, and no coroutine touches the entry of another one. *)
Theorem queue_entries_are_suspended s chan c q t :
  reachable s ->
  heap (sys_world s) !! chan = Some c ->
  t ∈ queue_of q c ->
  is_Some (tasks s !! t).
Proof.
  intros [Hq _]%reachable_queued_inv Hc Hin. by eapply Hq.
Qed.

Lemma queue_entries_are_suspended_witness : is_Some (tasks parked_receiver !! 1%nat).
Proof.
  apply (queue_entries_are_suspended parked_receiver 0%nat
           (Channel 1 [] [1%nat] (DataVector [] 0)) RecvQ 1%nat).
  - exact parked_receiver_reachable.
  - vm_compute. reflexivity.
  - simpl. apply list_elem_of_here.
Defined.

(** X30: a coroutine moves no entry but its own.  Whatever segment other
    than open and close coroutine [self] runs, every wait queue of every
    channel holds, once the entries of [self] are left out, the same
    coroutines in the same order as before: sending and receiving wake the
    head of a queue without taking it out, and only the woken coroutine
    removes its entry. *)
Theorem segments_keep_other_entries self s w chan :
  match s with Call (Open _ _ _ _) | Call (Close _ _) => False | _ => True end ->
  (others self <$> heap (exec (run self s) w) !! chan) = (others self <$> heap w !! chan).
Proof.
  intros Hs. pose proof (others_run self s) as H.
  destruct s as [[]|k]; try done; apply H.
Qed.

Lemma segments_keep_other_entries_witness :
  (others 0%nat <$>
     heap (exec (run 0%nat (Call (TrySend BUS 0 5))) (sys_world parked_receiver)) !! 0%nat)
  = (others 0%nat <$> heap (sys_world parked_receiver) !! 0%nat).
Proof.
  apply (segments_keep_other_entries 0%nat (Call (TrySend BUS 0 5))
           (sys_world parked_receiver) 0%nat).
  exact I.
Defined.

(** ** Suspended coroutines stay in their queue *)






